(** * cloudwatch-logs-cli: a shallow embedding of [lib/utils.js]

    The development follows the source file top to bottom:

    - [JsString]: the [String.prototype] methods the source calls
      ([startsWith], [endsWith], [slice], [indexOf], [lastIndexOf], [trim]);
    - [JsDate]: [new Date(ms)], the calendar getters and [toISOString];
    - [Creds]: [validateCredentials] over JSON values;
    - [Groups]: [filterLogGroupsByDate] and the segment computation of
      [getLogGroup];
    - [Cli]: the interactive functions ([getLogGroup], [getLogStream],
      [fetchLogs] and the keypress listener of [streamLogs]) in a
      state-and-exception monad over a scripted world: the answers of
      CloudWatch and of the operator are given in advance, and everything
      the program does to the outside is appended to an output;
    - [Interval]: the timer of [streamLogs] as an event loop, in which
      the activations of [fetchLogs] that [setInterval] starts are in
      flight together and settle in any order;
    - [Entry], [Config]: [getMainLogGroup] and [checkAWSConfig] with the
      functions it calls;
    - [Trace]: what the properties read off an output or a run;
    - [Sample]: concrete worlds for the closed instances.

    Conventions.  A JavaScript string is a Rocq [string]; each character
    stands for one code unit in the range 0..255.  JavaScript numbers that
    hold integers (lengths, indices, epoch milliseconds) are [Z].  The
    chalk styles and the host's time zone are parameters.  Recursion
    through [return f(...)] and [await f()] is bounded by fuel. *)

From Stdlib Require Import ZArith List String Ascii Bool Lia Sorted Permutation.
Import ListNotations.

Local Open Scope string_scope.
Local Open Scope Z_scope.

(* ================================================================= *)
(** ** String methods *)

Module JsString.

Definition len (s : string) : Z := Z.of_nat (String.length s).

(** [s.startsWith(p)] *)
Fixpoint startsWith (s p : string) : bool :=
  match p, s with
  | EmptyString, _ => true
  | String _ _, EmptyString => false
  | String b p', String a s' => Ascii.eqb a b && startsWith s' p'
  end.

(** Relative indices of [slice]: a negative index counts from the end,
    and the result is clamped to [0 .. len]. *)
Definition clampIndex (n i : Z) : Z :=
  if i <? 0 then Z.max (n + i) 0 else Z.min i n.

(** [s.slice(from, to)] *)
Definition slice (s : string) (from to : Z) : string :=
  let n := len s in
  let a := clampIndex n from in
  let b := clampIndex n to in
  String.substring (Z.to_nat a) (Z.to_nat (Z.max (b - a) 0)) s.

(** [s.slice(from)] *)
Definition sliceFrom (s : string) (from : Z) : string :=
  slice s from (len s).

(** [s.endsWith(p)] *)
Definition endsWith (s p : string) : bool :=
  (len p <=? len s) && String.eqb (sliceFrom s (len s - len p)) p.

(** [s.indexOf(c)] for a one-character search string: the least index
    holding [c], or -1. *)
Fixpoint indexOfFrom (c : ascii) (s : string) (i : Z) : Z :=
  match s with
  | EmptyString => -1
  | String a s' => if Ascii.eqb a c then i else indexOfFrom c s' (i + 1)
  end.

Definition indexOf (s : string) (c : ascii) : Z := indexOfFrom c s 0.

(** [s.lastIndexOf(c, pos)] for a one-character search string: the
    greatest index [k <= clamp pos] holding [c], or -1.  The scan keeps
    the last hit seen while walking the string from the left. *)
Fixpoint lastIndexOfUpTo (c : ascii) (s : string) (i bound best : Z) : Z :=
  match s with
  | EmptyString => best
  | String a s' =>
      if bound <? i then best
      else lastIndexOfUpTo c s' (i + 1) bound
             (if Ascii.eqb a c then i else best)
  end.

Definition lastIndexOfAt (s : string) (c : ascii) (pos : Z) : Z :=
  lastIndexOfUpTo c s 0 (Z.max pos 0) (-1).

(** [s.lastIndexOf(c)]: the position defaults to +Infinity. *)
Definition lastIndexOf (s : string) (c : ascii) : Z :=
  lastIndexOfAt s c (len s).

(** WhiteSpace and LineTerminator code units below 256:
    TAB, LF, VT, FF, CR, SP and NBSP. *)
Definition isWhiteSpace (c : ascii) : bool :=
  let n := N_of_ascii c in
  (((9 <=? n) && (n <=? 13)) || (n =? 32) || (n =? 160))%N.

Fixpoint trimStart (s : string) : string :=
  match s with
  | EmptyString => EmptyString
  | String a s' => if isWhiteSpace a then trimStart s' else s
  end.

(** Drops the trailing white space: a character is kept when it is not
    white space or when something is kept after it. *)
Fixpoint trimEnd (s : string) : string :=
  match s with
  | EmptyString => EmptyString
  | String a s' =>
      match trimEnd s' with
      | EmptyString => if isWhiteSpace a then EmptyString
                       else String a EmptyString
      | rest => String a rest
      end
  end.

(** [s.trim()] *)
Definition trim (s : string) : string := trimEnd (trimStart s).

End JsString.

(* ================================================================= *)
(** ** Errors ([lib/errors.js]) *)

Module Err.
(** The two properties of an [Error] object the source reads. *)
Record t : Type := mk { name : string; message : string }.
End Err.
Definition JsError : Type := Err.t.

(** [class AWSError extends Error]: the constructor sets [name]. *)
Definition AWSError (message : string) : JsError :=
  Err.mk "AWSError" message.

(** Completion of a call: a value, or a thrown error. *)
Inductive result (A : Type) : Type :=
| Ok (a : A)
| Thrown (e : JsError).
Arguments Ok {A} a.
Arguments Thrown {A} e.

(* ================================================================= *)
(** ** Dates *)

Module JsDate.

(** A Date object is its time value: epoch milliseconds, or [None] for
    the NaN time value of an invalid date. *)
Definition Date : Type := option Z.

Definition msPerDay : Z := 86400000.
Definition maxTime : Z := 8640000000000000.

(** [new Date(value)] on an integral number: TimeClip. *)
Definition newDate (value : Z) : Date :=
  if Z.abs value <=? maxTime then Some value else None.

Definition Day (t : Z) : Z := t / msPerDay.
Definition TimeWithinDay (t : Z) : Z := t mod msPerDay.

(** Proleptic Gregorian calendar date of a day number (days since
    1970-01-01), computed over 400-year eras that start on 1 March. *)
Record civil : Type := mkCivil { cYear : Z; cMonth : Z; cDay : Z }.

Definition civilFromDays (days : Z) : civil :=
  let z := days + 719468 in
  let era := z / 146097 in
  let doe := z - era * 146097 in
  let yoe := (doe - doe / 1460 + doe / 36524 - doe / 146096) / 365 in
  let doy := doe - (365 * yoe + yoe / 4 - yoe / 100) in
  let mp := (5 * doy + 2) / 153 in
  let d := doy - (153 * mp + 2) / 5 + 1 in
  let m := if mp <? 10 then mp + 3 else mp - 9 in
  mkCivil (if m <=? 2 then era * 400 + yoe + 1 else era * 400 + yoe) m d.

Definition YearFromTime (t : Z) : Z := cYear (civilFromDays (Day t)).
(** Months are numbered from 0, days of the month from 1. *)
Definition MonthFromTime (t : Z) : Z := cMonth (civilFromDays (Day t)) - 1.
Definition DateFromTime (t : Z) : Z := cDay (civilFromDays (Day t)).

Section LocalTime.
(** The host's time zone: the offset of local time from UTC, in
    milliseconds, at a given instant. *)
Variable localTZA : Z -> Z.

Definition LocalTime (t : Z) : Z := t + localTZA t.

(** The getters return a Number: NaN ([None]) on an invalid date. *)
Definition getFullYear (d : Date) : option Z :=
  option_map (fun t => YearFromTime (LocalTime t)) d.
Definition getMonth (d : Date) : option Z :=
  option_map (fun t => MonthFromTime (LocalTime t)) d.
Definition getDate (d : Date) : option Z :=
  option_map (fun t => DateFromTime (LocalTime t)) d.
End LocalTime.

(** [a === b] on Numbers: NaN is not equal to anything. *)
Definition strictEq (a b : option Z) : bool :=
  match a, b with
  | Some x, Some y => x =? y
  | _, _ => false
  end.

Definition digit (d : Z) : ascii := ascii_of_N (48 + Z.to_N d).

(** The [w] low decimal digits of [n], most significant first. *)
Fixpoint padded (w : nat) (n : Z) (acc : string) : string :=
  match w with
  | O => acc
  | S w' => padded w' (n / 10) (String (digit (n mod 10)) acc)
  end.

Definition isoYear (y : Z) : string :=
  if (0 <=? y) && (y <=? 9999) then padded 4 y EmptyString
  else if y <? 0 then "-" ++ padded 6 (- y) EmptyString
  else "+" ++ padded 6 y EmptyString.

(** [d.toISOString()]: throws a RangeError on an invalid date. *)
Definition toISOString (d : Date) : result string :=
  match d with
  | None => Thrown (Err.mk "RangeError" "Invalid time value")
  | Some t =>
      let c := civilFromDays (Day t) in
      let ms := TimeWithinDay t in
      Ok (isoYear (cYear c) ++ "-" ++ padded 2 (cMonth c) EmptyString ++ "-"
          ++ padded 2 (cDay c) EmptyString ++ "T"
          ++ padded 2 (ms / 3600000) EmptyString ++ ":"
          ++ padded 2 (ms / 60000 mod 60) EmptyString ++ ":"
          ++ padded 2 (ms / 1000 mod 60) EmptyString ++ "."
          ++ padded 3 (ms mod 1000) EmptyString ++ "Z")
  end.

End JsDate.

(* ================================================================= *)
(** ** Credential validation ([validateCredentials]) *)

Module Creds.

(** Values as [JSON.parse] or an object literal produce them.  An object
    is the list of its own properties; a number is an integer (a
    fractional number behaves here like any non-zero one). *)
#[local] Set Warnings "-register-all".
Inductive jsval : Type :=
| JUndefined
| JNull
| JBool (b : bool)
| JNum (n : Z)
| JStr (s : string)
| JArr (items : list jsval)
| JObj (props : list (string * jsval)).

(** ToBoolean *)
Definition truthy (v : jsval) : bool :=
  match v with
  | JUndefined | JNull => false
  | JBool b => b
  | JNum n => negb (n =? 0)
  | JStr s => negb (String.eqb s EmptyString)
  | JArr _ | JObj _ => true
  end.

Definition typeof (v : jsval) : string :=
  match v with
  | JUndefined => "undefined"
  | JNull | JArr _ | JObj _ => "object"
  | JBool _ => "boolean"
  | JNum _ => "number"
  | JStr _ => "string"
  end.

Fixpoint lookup (key : string) (props : list (string * jsval)) : jsval :=
  match props with
  | [] => JUndefined
  | (k, v) :: rest => if String.eqb k key then v else lookup key rest
  end.

(** [v.key] for a key that no prototype defines: an own property of an
    object, [undefined] on every other value that can be read from. *)
Definition get (v : jsval) (key : string) : jsval :=
  match v with
  | JObj props => lookup key props
  | _ => JUndefined
  end.

(** [a && b]: the left operand when it is falsy, else the right one. *)
Definition jsAnd (a b : jsval) : jsval := if truthy a then b else a.
Declare Scope js_scope.
Delimit Scope js_scope with js.
Notation "a && b" := (jsAnd a b) (at level 40, left associativity) : js_scope.

(** The source returns the value of the [&&] chain; its callers test it
    for truthiness.  The two [trim] calls are reached only after both
    [typeof] tests have passed. *)
Definition validateCredentials (credentials : jsval) : jsval :=
  let accessKeyId := get credentials "accessKeyId" in
  let secretAccessKey := get credentials "secretAccessKey" in
  (credentials &&
   accessKeyId &&
   secretAccessKey &&
   JBool (String.eqb (typeof accessKeyId) "string") &&
   JBool (String.eqb (typeof secretAccessKey) "string") &&
   match accessKeyId with
   | JStr a => JBool (negb (String.eqb (JsString.trim a) EmptyString))
   | _ => JUndefined
   end &&
   match secretAccessKey with
   | JStr s => JBool (negb (String.eqb (JsString.trim s) EmptyString))
   | _ => JUndefined
   end)%js.

(** What the specification calls a non-blank string: a string with at
    least one character that is not white space. *)
Definition nonBlank (s : string) : Prop :=
  exists c, In c (list_ascii_of_string s) /\ JsString.isWhiteSpace c = false.

Definition nonBlankString (v : jsval) : Prop :=
  exists s, v = JStr s /\ nonBlank s.

(** Every character of [s] is white space. *)
Definition allWhite (s : string) : bool :=
  List.forallb JsString.isWhiteSpace (list_ascii_of_string s).

End Creds.

(* ================================================================= *)
(** ** Log groups: date filter and next-segment computation *)

Module Groups.

(** An entry of [DescribeLogGroups]: the two fields the source reads. *)
Record LogGroup : Type :=
  mkLogGroup { logGroupName : string; creationTime : Z }.

Section DateFilter.
Variable localTZA : Z -> Z.
(** [Date.now()] at the moment [new Date()] is evaluated. *)
Variable nowMs : Z.

(** The callback of [logGroups.filter] in [filterLogGroupsByDate]. *)
Definition dateFilterKeeps (filter : string) (group : LogGroup) : bool :=
  let now : JsDate.Date := Some nowMs in
  let creationDate := JsDate.newDate (creationTime group) in
  if String.eqb filter "all" then true
  else if String.eqb filter "year" then
    JsDate.strictEq (JsDate.getFullYear localTZA creationDate)
                    (JsDate.getFullYear localTZA now)
  else if String.eqb filter "month" then
    JsDate.strictEq (JsDate.getFullYear localTZA creationDate)
                    (JsDate.getFullYear localTZA now)
    && JsDate.strictEq (JsDate.getMonth localTZA creationDate)
                       (JsDate.getMonth localTZA now)
  else if String.eqb filter "day" then
    JsDate.strictEq (JsDate.getFullYear localTZA creationDate)
                    (JsDate.getFullYear localTZA now)
    && JsDate.strictEq (JsDate.getMonth localTZA creationDate)
                       (JsDate.getMonth localTZA now)
    && JsDate.strictEq (JsDate.getDate localTZA creationDate)
                       (JsDate.getDate localTZA now)
  else false.

Definition filterLogGroupsByDate
    (logGroups : list LogGroup) (filter : string) : list LogGroup :=
  List.filter (dateFilterKeeps filter) logGroups.

(** The calendar fields of an instant in local time, as the
    specification speaks of them. *)
Definition localYear (t : Z) : Z :=
  JsDate.YearFromTime (JsDate.LocalTime localTZA t).
Definition localMonth (t : Z) : Z :=
  JsDate.MonthFromTime (JsDate.LocalTime localTZA t).
Definition localDayOfMonth (t : Z) : Z :=
  JsDate.DateFromTime (JsDate.LocalTime localTZA t).

(** A creation time denotes a date when it lies within the range of
    Date objects. *)
Definition hasDate (group : LogGroup) : Prop :=
  Z.abs (creationTime group) <= JsDate.maxTime.

Definition sameYear (group : LogGroup) : Prop :=
  hasDate group /\ localYear (creationTime group) = localYear nowMs.
Definition sameMonth (group : LogGroup) : Prop :=
  sameYear group /\ localMonth (creationTime group) = localMonth nowMs.
Definition sameDay (group : LogGroup) : Prop :=
  sameMonth group
  /\ localDayOfMonth (creationTime group) = localDayOfMonth nowMs.
End DateFilter.

(** [output] keeps exactly the entries of [input] that satisfy [P], in
    their order and with their multiplicity. *)
Definition keepsExactly
    (P : LogGroup -> Prop) (input output : list LogGroup) : Prop :=
  exists p : LogGroup -> bool,
    (forall g, p g = true <-> P g) /\ output = List.filter p input.

(** [Array.from(new Set(xs))]: the distinct elements in the order of
    their first occurrence. *)
Fixpoint arrayFromSet (xs : list string) : list string :=
  match xs with
  | [] => []
  | x :: rest =>
      x :: List.filter (fun y => negb (String.eqb y x)) (arrayFromSet rest)
  end.

(** The template literal [`/${mainLogGroup}${prefix}`]. *)
Definition groupPath (mainLogGroup prefix : string) : string :=
  "/" ++ mainLogGroup ++ prefix.

(** [logGroups.filter(group => group.logGroupName.startsWith(...))] *)
Definition matchingGroups
    (logGroups : list LogGroup) (mainLogGroup prefix : string)
    : list LogGroup :=
  List.filter
    (fun group =>
       JsString.startsWith (logGroupName group) (groupPath mainLogGroup prefix))
    logGroups.

(** The callback of [logGroups.map] that yields the next segment. *)
Definition nextSegment (mainLogGroup prefix : string) (group : LogGroup)
    : string :=
  let remainingPath :=
    JsString.sliceFrom (logGroupName group)
                       (JsString.len (groupPath mainLogGroup prefix)) in
  let nextSlashIndex := JsString.indexOf remainingPath "/" in
  if negb (nextSlashIndex =? -1)
  then JsString.slice remainingPath 0 (nextSlashIndex + 1)
  else remainingPath.

(** [subGroups] of [getLogGroup], from the unfiltered group list. *)
Definition subGroups
    (logGroups : list LogGroup) (mainLogGroup prefix : string)
    : list string :=
  arrayFromSet
    (List.map (nextSegment mainLogGroup prefix)
              (matchingGroups logGroups mainLogGroup prefix)).

(** [logGroups.sort((a, b) => b.creationTime - a.creationTime)]: the
    engine's sort is stable, so this is a stable sort by descending
    creation time. *)
Fixpoint insertGroup (g : LogGroup) (sorted : list LogGroup)
    : list LogGroup :=
  match sorted with
  | [] => [g]
  | h :: rest =>
      if creationTime h - creationTime g <=? 0 then g :: sorted
      else h :: insertGroup g rest
  end.

Definition sortByCreationDesc (logGroups : list LogGroup) : list LogGroup :=
  List.fold_right insertGroup [] logGroups.

End Groups.

(* ================================================================= *)
(** ** The interactive functions over a scripted world *)

Module Cli.
Import Groups.

(** An entry of [DescribeLogStreams]; [lastEventTimestamp] is absent on
    a stream that never received an event. *)
Record LogStream : Type :=
  mkLogStream { logStreamName : string; lastEventTimestamp : option Z }.

(** An entry of [data.events] in the answer to [FilterLogEvents]. *)
Record LogEvent : Type := mkLogEvent { timestamp : Z; message : string }.

Record Credentials : Type := mkCredentials {
  accessKeyId : string;
  secretAccessKey : string;
  sessionToken : option string;
  region : string
}.

(** The answers object of the four-question prompt in
    [getCredentialsFromUser]. *)
Record Answers : Type := mkAnswers {
  ansAccessKeyId : string;
  ansSecretAccessKey : string;
  ansSessionToken : string;
  ansRegion : string
}.

(** A choice of an inquirer list prompt. *)
Record Choice : Type := mkChoice { name : string; value : string }.

(** What the operator does at a list prompt: move to the choice at
    [index] and press Enter, or the prompt rejects. *)
Inductive MenuReply : Type :=
| Pick (index : nat)
| PromptFails (e : JsError).

(** Everything the program does to the outside, in order.  A request to
    CloudWatch is recorded together with the answer it received ([None]:
    no answer arrived). *)
Inductive Output : Type :=
| ConsoleLog (line : string)
| ConsoleClear
| SpinnerStart (text : string)
| SpinnerStop
| ListPrompt (message : string) (choices : list Choice)
| CredentialsPrompt
| WriteConfig (credentials : Credentials)
| DescribeLogGroups (region : string) (credentials : Credentials)
| DescribeLogStreams (region : string) (credentials : Credentials)
                     (logGroupName : string)
| FilterLogEvents (region : string) (credentials : Credentials)
                  (logGroupName logStreamName : string) (limit startTime : Z)
                  (answer : option (result (list LogEvent))).

(** The scripted world: the answers CloudWatch and the operator will
    give, in order, the clock, and the output so far.  Paginated answers
    are lists of pages. *)
Record World : Type := mkWorld {
  logGroupReplies : list (result (list (list LogGroup)));
  logStreamReplies : list (result (list (list LogStream)));
  logEventReplies : list (result (list LogEvent));
  menuReplies : list MenuReply;
  credentialReplies : list Answers;
  now : Z;
  output : list Output
}.

(** How a call of an async function ends: it returns, it throws, it
    waits for an answer that never comes, or the model ran out of fuel. *)
Inductive Outcome (A : Type) : Type :=
| Returned (a : A)
| Threw (e : JsError)
| Pending
| OutOfFuel.
Arguments Returned {A} a.
Arguments Threw {A} e.
Arguments Pending {A}.
Arguments OutOfFuel {A}.

Definition M (A : Type) : Type := World -> Outcome A * World.

Definition ret {A} (a : A) : M A := fun w => (Returned a, w).
Definition throw {A} (e : JsError) : M A := fun w => (Threw e, w).
Definition outOfFuel {A} : M A := fun w => (OutOfFuel, w).

Definition bind {A B} (m : M A) (k : A -> M B) : M B :=
  fun w =>
    match m w with
    | (Returned a, w') => k a w'
    | (Threw e, w') => (Threw e, w')
    | (Pending, w') => (Pending, w')
    | (OutOfFuel, w') => (OutOfFuel, w')
    end.

(** [try { body } catch (error) { handler }] *)
Definition tryCatch {A} (body : M A) (handler : JsError -> M A) : M A :=
  fun w =>
    match body w with
    | (Threw e, w') => handler e w'
    | other => other
    end.

Declare Scope cli_scope.
Delimit Scope cli_scope with cli.
Notation "x <- m ;; k" := (bind m (fun x => k))
  (at level 100, m at next level, right associativity) : cli_scope.
Notation "m ;; k" := (bind m (fun _ => k))
  (at level 100, right associativity) : cli_scope.
Local Open Scope cli_scope.

Definition liftResult {A} (r : result A) : M A :=
  match r with
  | Ok a => ret a
  | Thrown e => throw e
  end.

Definition emit (o : Output) : M unit :=
  fun w =>
    (Returned tt,
     mkWorld (logGroupReplies w) (logStreamReplies w) (logEventReplies w)
             (menuReplies w) (credentialReplies w) (now w)
             (output w ++ [o])).

(** [array.map(f)] where [f] may throw. *)
Fixpoint mapResult {A B} (f : A -> result B) (xs : list A)
    : result (list B) :=
  match xs with
  | [] => Ok []
  | x :: rest =>
      match f x with
      | Thrown e => Thrown e
      | Ok y =>
          match mapResult f rest with
          | Thrown e => Thrown e
          | Ok ys => Ok (y :: ys)
          end
      end
  end.

Fixpoint forEach {A} (f : A -> M unit) (xs : list A) : M unit :=
  match xs with
  | [] => ret tt
  | x :: rest => f x;; forEach f rest
  end.

(** *** Awaited calls *)

(** [await inquirer.prompt([{ type: 'list', message, choices }])]: shows
    the menu and yields the [value] of the picked choice.  A pick outside
    the menu cannot be made, so nothing ever comes back. *)
Definition listPrompt (message : string) (choices : list Choice) : M string :=
  fun w =>
    let shown := (output w ++ [ListPrompt message choices])%list in
    let world replies :=
      mkWorld (logGroupReplies w) (logStreamReplies w) (logEventReplies w)
              replies (credentialReplies w) (now w) shown in
    match menuReplies w with
    | [] => (Pending, world [])
    | PromptFails e :: rest => (Threw e, world rest)
    | Pick index :: rest =>
        match nth_error choices index with
        | Some choice => (Returned (value choice), world rest)
        | None => (Pending, world rest)
        end
    end.

(** [await inquirer.prompt] with the four credential questions. *)
Definition credentialsPrompt : M Answers :=
  fun w =>
    let shown := (output w ++ [CredentialsPrompt])%list in
    let world replies :=
      mkWorld (logGroupReplies w) (logStreamReplies w) (logEventReplies w)
              (menuReplies w) replies (now w) shown in
    match credentialReplies w with
    | [] => (Pending, world [])
    | answers :: rest => (Returned answers, world rest)
    end.

(** [fetchAllLogGroups]: one paginated listing, the pages pushed onto one
    array in order. *)
Definition fetchAllLogGroups (region : string) (credentials : Credentials)
    : M (list LogGroup) :=
  fun w =>
    let sent := (output w ++ [DescribeLogGroups region credentials])%list in
    let world replies :=
      mkWorld replies (logStreamReplies w) (logEventReplies w)
              (menuReplies w) (credentialReplies w) (now w) sent in
    match logGroupReplies w with
    | [] => (Pending, world [])
    | Thrown e :: rest => (Threw e, world rest)
    | Ok pages :: rest => (Returned (List.concat pages), world rest)
    end.

(** [fetchAllLogStreams] *)
Definition fetchAllLogStreams
    (region : string) (credentials : Credentials) (logGroupName : string)
    : M (list LogStream) :=
  fun w =>
    let sent :=
      (output w ++ [DescribeLogStreams region credentials logGroupName])%list
    in
    let world replies :=
      mkWorld (logGroupReplies w) replies (logEventReplies w)
              (menuReplies w) (credentialReplies w) (now w) sent in
    match logStreamReplies w with
    | [] => (Pending, world [])
    | Thrown e :: rest => (Threw e, world rest)
    | Ok pages :: rest => (Returned (List.concat pages), world rest)
    end.

(** [await cloudwatchLogsClient.send(new FilterLogEventsCommand(params))],
    yielding [data.events]. *)
Definition sendFilterLogEvents
    (region : string) (credentials : Credentials)
    (logGroupName logStreamName : string) (limit startTime : Z)
    : M (list LogEvent) :=
  fun w =>
    let world replies answer :=
      mkWorld (logGroupReplies w) (logStreamReplies w) replies
              (menuReplies w) (credentialReplies w) (now w)
              (output w ++ [FilterLogEvents region credentials logGroupName
                              logStreamName limit startTime answer]) in
    match logEventReplies w with
    | [] => (Pending, world [] None)
    | Thrown e :: rest => (Threw e, world rest (Some (Thrown e)))
    | Ok events :: rest => (Returned events, world rest (Some (Ok events)))
    end.

Definition MAX_LOG_LINES : Z := 1000.
Definition MAX_FETCH_LINES : Z := 200.

(** The test both catch blocks make on [error.name]. *)
Definition isExpiredToken (error : JsError) : bool :=
  String.eqb (Err.name error) "ExpiredTokenException"
  || String.eqb (Err.name error) "UnrecognizedClientException".

Section Program.

(** The four chalk styles the source uses.  What a style does to a
    string depends on the terminal; with colours off it is the identity. *)
Variables red green yellow blue : string -> string.
Variable localTZA : Z -> Z.

(** [storeCredentials]: the write to the config file is taken to
    succeed. *)
Definition storeCredentials (credentials : Credentials) : M unit :=
  emit (WriteConfig credentials).

Definition getCredentialsFromUser : M Credentials :=
  emit (ConsoleLog "Prompting user for AWS credentials...");;
  answers <- credentialsPrompt;;
  ret (mkCredentials
         (ansAccessKeyId answers)
         (ansSecretAccessKey answers)
         (if String.eqb (ansSessionToken answers) EmptyString then None
          else Some (ansSessionToken answers))
         (ansRegion answers)).

Definition handleExpiredToken (region : string) : M Credentials :=
  emit (ConsoleLog
          (red "The security token is expired. Requesting new credentials."));;
  newCredentials <- getCredentialsFromUser;;
  storeCredentials newCredentials;;
  ret newCredentials.

(** *** [getLogGroup] *)

(** How one activation of [getLogGroup] ends: with the chosen path, or
    with [return getLogGroup(...)].  The returned promise is not awaited
    inside the [try], so the new activation's errors do not pass through
    this activation's [catch]. *)
Inductive GroupNext : Type :=
| GroupDone (path : string)
| GroupAgain (credentials : Credentials) (prefix : string).

Definition dateFilterChoices : list Choice :=
  [mkChoice "All" "all"; mkChoice "This Year" "year";
   mkChoice "This Month" "month"; mkChoice "Today" "day"].

Definition finalChoice (group : LogGroup) : result Choice :=
  match JsDate.toISOString (JsDate.newDate (creationTime group)) with
  | Thrown e => Thrown e
  | Ok iso =>
      Ok (mkChoice (logGroupName group ++ " (Created: " ++ iso ++ ")")
                   (logGroupName group))
  end.

Definition getLogGroupBody
    (region : string) (credentials : Credentials)
    (mainLogGroup prefix : string) : M GroupNext :=
  emit (ConsoleLog "Fetching log groups...");;
  emit (SpinnerStart "Fetching log groups...");;
  tryCatch
    (logGroups <- fetchAllLogGroups region credentials;;
     emit SpinnerStop;;
     if (List.length logGroups =? 0)%nat
     then throw (AWSError "No log groups found.")
     else
       let logGroups := matchingGroups logGroups mainLogGroup prefix in
       let subGroups :=
         arrayFromSet (List.map (nextSegment mainLogGroup prefix) logGroups) in
       let choices :=
         List.map (fun group => mkChoice group (prefix ++ group)) subGroups in
       if (1 <? List.length choices)%nat
          || ((List.length choices =? 1)%nat
              && match choices with
                 | first :: _ => JsString.endsWith (name first) "/"
                 | [] => false
                 end)
       then
         selectedGroup <-
           listPrompt "Select Log Group:"
                      (choices ++ [mkChoice "Back" "back"])%list;;
         if String.eqb selectedGroup "back" then
           ret (GroupAgain credentials
                  (JsString.slice prefix 0
                     (JsString.lastIndexOfAt prefix "/"
                        (JsString.len prefix - 2) + 1)))
         else if JsString.endsWith selectedGroup "/" then
           ret (GroupAgain credentials selectedGroup)
         else ret (GroupDone ("/" ++ mainLogGroup ++ selectedGroup))
       else
         dateFilter <-
           listPrompt "Filter log groups by date:" dateFilterChoices;;
         nowMs <- (fun w => (Returned (now w), w));;
         let logGroups :=
           filterLogGroupsByDate localTZA nowMs logGroups dateFilter in
         let logGroups := sortByCreationDesc logGroups in
         finalChoices <- liftResult (mapResult finalChoice logGroups);;
         logGroup <- listPrompt "Select Log Group:" finalChoices;;
         ret (GroupDone logGroup))
    (fun error =>
       emit SpinnerStop;;
       if isExpiredToken error then
         emit (ConsoleLog
                 (red "The security token is expired or invalid. Requesting new credentials."));;
         newCredentials <- handleExpiredToken region;;
         ret (GroupAgain newCredentials prefix)
       else
         throw (AWSError ("An error occurred while fetching log groups: "
                          ++ Err.message error))).

Fixpoint getLogGroup
    (fuel : nat) (region : string) (credentials : Credentials)
    (mainLogGroup prefix : string) : M string :=
  match fuel with
  | O => outOfFuel
  | S fuel' =>
      next <- getLogGroupBody region credentials mainLogGroup prefix;;
      match next with
      | GroupDone path => ret path
      | GroupAgain credentials' prefix' =>
          getLogGroup fuel' region credentials' mainLogGroup prefix'
      end
  end.

(** *** [getLogStream] *)

(** [a.lastEventTimestamp || 0] *)
Definition lastEventOrZero (stream : LogStream) : Z :=
  match lastEventTimestamp stream with
  | Some t => t
  | None => 0
  end.

(** [logStreams.sort((a, b) => lastEventB - lastEventA)]: stable, by
    descending last event. *)
Fixpoint insertStream (s : LogStream) (sorted : list LogStream)
    : list LogStream :=
  match sorted with
  | [] => [s]
  | h :: rest =>
      if lastEventOrZero h - lastEventOrZero s <=? 0 then s :: sorted
      else h :: insertStream s rest
  end.

Definition sortByLastEventDesc (logStreams : list LogStream)
    : list LogStream :=
  List.fold_right insertStream [] logStreams.

Definition streamChoice (stream : LogStream) : result Choice :=
  let label lastEvent :=
    mkChoice (logStreamName stream ++ " (Last Event: " ++ lastEvent ++ ")")
             (logStreamName stream) in
  match lastEventTimestamp stream with
  | Some t =>
      if t =? 0 then Ok (label "No events")
      else match JsDate.toISOString (JsDate.newDate t) with
           | Thrown e => Thrown e
           | Ok iso => Ok (label iso)
           end
  | None => Ok (label "No events")
  end.

(** How one activation of [getLogStream] ends: with the picked value,
    with [return getLogGroup(region, credentials, <third argument>)], or
    with [return getLogStream(...)] under new credentials. *)
Inductive StreamNext : Type :=
| StreamDone (picked : string)
| StreamBack (thirdArgument : string)
| StreamAgain (credentials : Credentials).

Definition getLogStreamBody
    (region logGroup : string) (credentials : Credentials) : M StreamNext :=
  emit (ConsoleLog "Fetching log streams...");;
  emit (SpinnerStart "Fetching log streams...");;
  tryCatch
    (logStreams <- fetchAllLogStreams region credentials logGroup;;
     emit SpinnerStop;;
     if (List.length logStreams =? 0)%nat
     then throw (AWSError "No log streams found.")
     else
       let logStreams := sortByLastEventDesc logStreams in
       choices <- liftResult (mapResult streamChoice logStreams);;
       logStream <-
         listPrompt "Select Log Stream:"
                    (choices ++ [mkChoice "Back" "back"])%list;;
       if String.eqb logStream "back" then
         ret (StreamBack
                (JsString.slice logGroup 0
                   (JsString.lastIndexOf logGroup "/" + 1)))
       else ret (StreamDone logStream))
    (fun error =>
       emit SpinnerStop;;
       if isExpiredToken error then
         emit (ConsoleLog
                 (red "The security token is expired or invalid. Requesting new credentials."));;
         newCredentials <- handleExpiredToken region;;
         ret (StreamAgain newCredentials)
       else
         throw (AWSError ("An error occurred while fetching log streams: "
                          ++ Err.message error))).

(** On "Back" the source calls [getLogGroup] with three arguments: the
    truncated path lands in the [mainLogGroup] parameter and [prefix]
    takes its default [''].  What that call returns is returned as is. *)
Fixpoint getLogStream
    (fuel : nat) (region logGroup : string) (credentials : Credentials)
    : M string :=
  match fuel with
  | O => outOfFuel
  | S fuel' =>
      next <- getLogStreamBody region logGroup credentials;;
      match next with
      | StreamDone picked => ret picked
      | StreamBack thirdArgument =>
          getLogGroup fuel' region credentials thirdArgument EmptyString
      | StreamAgain credentials' =>
          getLogStream fuel' region logGroup credentials'
      end
  end.

(** *** [streamLogs]: the closure state and [fetchLogs] *)

(** The variables [fetchLogs] closes over, with the credentials object
    it mutates in place. *)
Record TailState : Type := mkTailState {
  logBuffer : list string;
  startTime : Z;
  lastFetchHadEvents : bool;
  credentials : Credentials
}.

(** The state [streamLogs] starts from. *)
Definition initialTailState (nowMs : Z) (credentials : Credentials)
    : TailState :=
  mkTailState [] (nowMs - 10 * 60 * 1000) false credentials.

(** One rendered line of the [forEach] over [data.events]. *)
Definition renderEvent (event : LogEvent) : result string :=
  match JsDate.toISOString (JsDate.newDate (timestamp event)) with
  | Thrown e => Thrown e
  | Ok iso => Ok (green ("[" ++ iso ++ "] " ++ message event))
  end.

(** [logBuffer.slice(logBuffer.length - MAX_LOG_LINES)] when the buffer
    is longer than [MAX_LOG_LINES]. *)
Definition limitBuffer (buffer : list string) : list string :=
  let length := Z.of_nat (List.length buffer) in
  if MAX_LOG_LINES <? length
  then List.skipn (Z.to_nat (length - MAX_LOG_LINES)) buffer
  else buffer.

(** The [try] block of [fetchLogs] after the answer has arrived, up to
    the repaint.  It throws when an event's timestamp is no valid date;
    the function then throws too, and the tail does not go on. *)
Definition processEvents (events : list LogEvent) (st : TailState)
    : result TailState :=
  match events with
  | [] =>
      let buffer :=
        if negb (lastFetchHadEvents st)
        then (logBuffer st ++ [yellow "No log events found."])%list
        else logBuffer st in
      Ok (mkTailState (limitBuffer buffer) (startTime st) false
                      (credentials st))
  | first :: rest =>
      match mapResult renderEvent events with
      | Thrown e => Thrown e
      | Ok lines =>
          Ok (mkTailState
                (limitBuffer (logBuffer st ++ lines))
                (timestamp (List.last rest first) + 1)
                true
                (credentials st))
      end
  end.

(** The [catch] block's three assignments to the shared credentials
    object; [region] is not assigned. *)
Definition refreshCredentials (st : TailState) (newCredentials : Credentials)
    : TailState :=
  mkTailState (logBuffer st) (startTime st) (lastFetchHadEvents st)
    (mkCredentials (accessKeyId newCredentials)
                   (secretAccessKey newCredentials)
                   (sessionToken newCredentials)
                   (region (credentials st))).

(** How one activation of [fetchLogs] ends: done, or [await fetchLogs()]
    from the [catch] block. *)
Inductive FetchNext : Type :=
| FetchDone (st : TailState)
| FetchRetry (st : TailState).

Definition fetchLogsBody
    (region logGroup logStream : string) (st : TailState) : M FetchNext :=
  tryCatch
    (events <- sendFilterLogEvents region (credentials st) logGroup logStream
                 MAX_FETCH_LINES (startTime st);;
     st' <- liftResult (processEvents events st);;
     emit ConsoleClear;;
     forEach (fun line => emit (ConsoleLog line)) (logBuffer st');;
     ret (FetchDone st'))
    (fun error =>
       if isExpiredToken error then
         emit (ConsoleLog
                 (red "The security token is expired or invalid. Requesting new credentials."));;
         newCredentials <- handleExpiredToken region;;
         ret (FetchRetry (refreshCredentials st newCredentials))
       else
         throw (AWSError ("An error occurred while fetching log events: "
                          ++ Err.message error))).

Fixpoint fetchLogs
    (fuel : nat) (region logGroup logStream : string) (st : TailState)
    : M TailState :=
  match fuel with
  | O => outOfFuel
  | S fuel' =>
      next <- fetchLogsBody region logGroup logStream st;;
      match next with
      | FetchDone st' => ret st'
      | FetchRetry st' => fetchLogs fuel' region logGroup logStream st'
      end
  end.

(** The runs of the interval timer in which every [fetchLogs] has
    settled before the timer is due again, [ticks] of them.  The timer
    itself does not wait for that; the runs with fetches in flight are
    those of [Interval.run] below.  A tick that throws ends the
    process. *)
Fixpoint poll
    (ticks fuel : nat) (region logGroup logStream : string) (st : TailState)
    : M TailState :=
  match ticks with
  | O => ret st
  | S ticks' =>
      st' <- fetchLogs fuel region logGroup logStream st;;
      poll ticks' fuel region logGroup logStream st'
  end.

(** *** [streamLogs]: the keypress listener *)

(** The timer and the terminal as [streamLogs] drives them. *)
Record Session : Type := mkSession {
  intervalArmed : bool;     (* [intervalId] still schedules [fetchLogs] *)
  rawMode : bool;           (* [process.stdin.setRawMode] *)
  stdinPaused : bool;       (* [process.stdin.pause] / [resume] *)
  console : list string;    (* lines this listener has logged *)
  backPrompts : nat         (* calls of [promptForBack] started *)
}.

Definition doubleQuote : string := String (ascii_of_nat 34) EmptyString.

(** After [setInterval], [setRawMode(true)], [resume()] and the hint. *)
Definition startSession : Session :=
  mkSession true true false
    [blue ("Press " ++ doubleQuote ++ "q" ++ doubleQuote
           ++ " to stop streaming logs.")] 0.

(** [key.toString()]: the chunk read from stdin, decoded.  The decoded
    text is the one-character string q exactly when the chunk is the
    single byte 0x71, so the chunk stands for its text. *)
Definition toString (key : string) : string := key.

(** The listener registered with [process.stdin.on('data', ...)], up to
    the call of [promptForBack]. *)
Definition onData (key : string) (s : Session) : Session :=
  if String.eqb (toString key) "q" then
    mkSession false false true
              (console s ++ [green "Stopped streaming logs."])%list
              (S (backPrompts s))
  else s.

(** What the event loop delivers while [streamLogs] is tailing: the
    interval timer is due, or stdin has read a chunk.  A timer that has
    been cleared runs nothing.  As in [poll], the [fetchLogs] of a tick
    is taken to have settled before the next event; [Interval.run] below
    has the fetches in flight.  The confirmation prompt that
    [promptForBack] opens after q lies outside this loop. *)
Inductive LoopEvent : Type :=
| Tick
| Data (key : string).

Record Loop : Type := mkLoop { tail : TailState; session : Session }.

Fixpoint eventLoop
    (events : list LoopEvent) (fuel : nat)
    (region logGroup logStream : string) (l : Loop) : M Loop :=
  match events with
  | [] => ret l
  | Tick :: rest =>
      if intervalArmed (session l) then
        st' <- fetchLogs fuel region logGroup logStream (tail l);;
        eventLoop rest fuel region logGroup logStream
                  (mkLoop st' (session l))
      else eventLoop rest fuel region logGroup logStream l
  | Data key :: rest =>
      eventLoop rest fuel region logGroup logStream
                (mkLoop (tail l) (onData key (session l)))
  end.

End Program.

End Cli.

(* ================================================================= *)
(** ** The interval timer with fetches in flight *)

Module Interval.
Import Cli.

(** [setInterval(fetchLogs, 2000)] starts an activation of [fetchLogs]
    whenever the timer is due, whether or not the activations before it
    have settled, and every activation reads and writes the variables of
    [streamLogs] between its [await]s.  An activation stands at one of
    its three [await]s, or it has settled: at the request ([request] is
    its place among the requests sent), at the prompt for credentials or
    at the write of the config file, both inside [handleExpiredToken].
    The activation that [await fetchLogs()] starts from the [catch]
    block, after which the awaiting one does nothing more, is counted as
    the awaiting one going on. *)
Inductive Stage : Type :=
| AwaitsAnswer (request : nat)
| AwaitsCredentials
| AwaitsWrite (newCredentials : Credentials)
| Settled.

(** What the event loop delivers while the timer is armed: the timer is
    due, or one of the promises an activation awaits settles.  Each
    callback runs up to its next [await] before another event is taken. *)
Inductive Event : Type :=
| TimerFires
| RequestSettles (activation : nat) (answer : result (list LogEvent))
| PromptSettles (activation : nat) (answers : result Answers)
| WriteSettles (activation : nat) (failure : option JsError).

(** The tail between two events: the variables [fetchLogs] closes over,
    the activations started so far, the requests sent so far in the
    order they left, each with the watermark it carries and, once it has
    settled, its answer, everything done to the outside, and the error
    that ended the process, if one did. *)
Record Tail : Type := mkTail {
  closure : TailState;
  activations : list Stage;
  requests : list (Z * option (result (list LogEvent)));
  effects : list Output;
  ended : option JsError
}.

(** The tail when [setInterval] has just been called. *)
Definition start (st : TailState) : Tail := mkTail st [] [] [] None.

(** [l] with its element at [i] replaced. *)
Fixpoint replace {A} (i : nat) (x : A) (l : list A) : list A :=
  match l, i with
  | [], _ => []
  | _ :: rest, O => x :: rest
  | y :: rest, S j => y :: replace j x rest
  end.

(** The object [getCredentialsFromUser] returns. *)
Definition enteredCredentials (answers : Answers) : Credentials :=
  mkCredentials
    (ansAccessKeyId answers)
    (ansSecretAccessKey answers)
    (if String.eqb (ansSessionToken answers) EmptyString then None
     else Some (ansSessionToken answers))
    (ansRegion answers).

Section Program.
Variables red green yellow : string -> string.
Variables region logGroup logStream : string.

(** The start of [fetchLogs]: [params] is built from the variables as
    they are now, and the request leaves.  In [effects] it stands
    without an answer; [requests] takes the answer when it comes. *)
Definition sendRequest (t : Tail) : Tail :=
  mkTail (closure t) (activations t)
    (requests t ++ [(startTime (closure t), None)])
    (effects t
     ++ [FilterLogEvents region (credentials (closure t)) logGroup logStream
           MAX_FETCH_LINES (startTime (closure t)) None])
    (ended t).

(** The activation moves on to [stage], leaving the variables at [st],
    after doing [done] to the outside. *)
Definition moveOn
    (activation : nat) (stage : Stage) (st : TailState) (done : list Output)
    (t : Tail) : Tail :=
  mkTail st (replace activation stage (activations t)) (requests t)
    (effects t ++ done) (ended t).

(** The promise of the activation is rejected.  Nothing handles the
    rejection of a timer callback, and the process ends with it. *)
Definition reject (activation : nat) (error : JsError) (t : Tail) : Tail :=
  mkTail (closure t) (replace activation Settled (activations t))
    (requests t) (effects t) (Some error).

(** The [catch] block of [fetchLogs], up to the prompt that
    [getCredentialsFromUser] opens. *)
Definition catchBlock (activation : nat) (error : JsError) (t : Tail)
    : Tail :=
  if isExpiredToken error then
    moveOn activation AwaitsCredentials (closure t)
      [ConsoleLog
         (red "The security token is expired or invalid. Requesting new credentials.");
       ConsoleLog
         (red "The security token is expired. Requesting new credentials.");
       ConsoleLog "Prompting user for AWS credentials...";
       CredentialsPrompt]
      t
  else
    reject activation
      (AWSError ("An error occurred while fetching log events: "
                 ++ Err.message error))
      t.

(** The request has its answer. *)
Definition settle
    (request : nat) (answer : result (list LogEvent)) (t : Tail) : Tail :=
  mkTail (closure t) (activations t)
    (replace request
       (fst (List.nth request (requests t) (0, None)), Some answer)
       (requests t))
    (effects t) (ended t).

(** One event.  An event for an activation that does not await it, and
    any event after the process has ended, cannot happen. *)
Definition step (ev : Event) (t : Tail) : option Tail :=
  match ended t with
  | Some _ => None
  | None =>
      match ev with
      | TimerFires =>
          let sent := sendRequest t in
          Some (mkTail (closure sent)
                  (activations sent
                   ++ [AwaitsAnswer (List.length (requests t))])
                  (requests sent) (effects sent) (ended sent))
      | RequestSettles activation answer =>
          match List.nth_error (activations t) activation with
          | Some (AwaitsAnswer request) =>
              let t := settle request answer t in
              match answer with
              | Ok events =>
                  match processEvents green yellow events (closure t) with
                  | Ok st' =>
                      Some (moveOn activation Settled st'
                              (ConsoleClear
                               :: List.map ConsoleLog (logBuffer st'))
                              t)
                  | Thrown error => Some (catchBlock activation error t)
                  end
              | Thrown error => Some (catchBlock activation error t)
              end
          | _ => None
          end
      | PromptSettles activation answers =>
          match List.nth_error (activations t) activation with
          | Some AwaitsCredentials =>
              match answers with
              | Ok answers =>
                  let newCredentials := enteredCredentials answers in
                  Some (moveOn activation (AwaitsWrite newCredentials)
                          (closure t) [WriteConfig newCredentials] t)
              | Thrown error => Some (reject activation error t)
              end
          | _ => None
          end
      | WriteSettles activation failure =>
          match List.nth_error (activations t) activation with
          | Some (AwaitsWrite newCredentials) =>
              match failure with
              | None =>
                  let t :=
                    moveOn activation
                      (AwaitsAnswer (List.length (requests t)))
                      (refreshCredentials (closure t) newCredentials) [] t in
                  Some (sendRequest t)
              | Some error => Some (reject activation error t)
              end
          | _ => None
          end
      end
  end.

(** The events of a schedule, one after the other. *)
Fixpoint run (schedule : list Event) (t : Tail) : option Tail :=
  match schedule with
  | [] => Some t
  | ev :: rest =>
      match step ev t with
      | Some t' => run rest t'
      | None => None
      end
  end.

End Program.

End Interval.

(* ================================================================= *)
(** ** The main-group menu ([getMainLogGroup]) *)

Module Entry.
Import Groups Cli.
Local Open Scope cli_scope.

(** [s.split(c)] for a one-character separator: the pieces between the
    separators, at least one piece. *)
Fixpoint split (s : string) (c : ascii) : list string :=
  match s with
  | EmptyString => [EmptyString]
  | String a s' =>
      if Ascii.eqb a c then EmptyString :: split s' c
      else match split s' c with
           | piece :: pieces => String a piece :: pieces
           | [] => [String a EmptyString]
           end
  end.

(** The callback of [logGroups.map] in [getMainLogGroup]:
    [parts.length > 1 ? parts[1] : group.logGroupName]. *)
Definition mainGroupOf (group : LogGroup) : string :=
  let parts := split (logGroupName group) "/" in
  if (1 <? List.length parts)%nat
  then List.nth 1 parts EmptyString
  else logGroupName group.

(** [mainGroups]: the distinct main groups, in order of first
    appearance. *)
Definition mainGroups (logGroups : list LogGroup) : list string :=
  arrayFromSet (List.map mainGroupOf logGroups).

(** How one activation of [getMainLogGroup] ends. *)
Inductive MainNext : Type :=
| MainDone (mainLogGroup : string)
| MainAgain (credentials : Credentials).

Section Program.
Variable red : string -> string.

Definition getMainLogGroupBody
    (region : string) (credentials : Credentials) : M MainNext :=
  emit (ConsoleLog "Fetching main log groups...");;
  emit (SpinnerStart "Fetching main log groups...");;
  tryCatch
    (logGroups <- fetchAllLogGroups region credentials;;
     emit SpinnerStop;;
     if (List.length logGroups =? 0)%nat
     then throw (AWSError "No log groups found.")
     else
       let choices :=
         List.map (fun group => mkChoice group group) (mainGroups logGroups) in
       mainLogGroup <- listPrompt "Select Main Log Group:" choices;;
       ret (MainDone mainLogGroup))
    (fun error =>
       emit SpinnerStop;;
       if isExpiredToken error then
         emit (ConsoleLog
                 (red "The security token is expired or invalid. Requesting new credentials."));;
         newCredentials <- handleExpiredToken red region;;
         ret (MainAgain newCredentials)
       else
         throw (AWSError
                  ("An error occurred while fetching main log groups: "
                   ++ Err.message error))).

Fixpoint getMainLogGroup
    (fuel : nat) (region : string) (credentials : Credentials) : M string :=
  match fuel with
  | O => outOfFuel
  | S fuel' =>
      next <- getMainLogGroupBody region credentials;;
      match next with
      | MainDone mainLogGroup => ret mainLogGroup
      | MainAgain credentials' => getMainLogGroup fuel' region credentials'
      end
  end.

End Program.

End Entry.

(* ================================================================= *)
(** ** Acquiring credentials ([checkAWSConfig]) *)

Module Config.
Import Creds.

(** What [checkAWSConfig] and its helpers do to the outside. *)
Inductive ConfigOutput : Type :=
| Log (line : string)
| AskCredentials
| WriteFile (credentials : jsval)
| GetSessionToken (region accessKeyId secretAccessKey : jsval)
                  (DurationSeconds : Z).

(** The scripted world of the credential flow: the parsed content of
    the config file ([None]: the file cannot be read or is not JSON),
    the session tokens STS will issue, the operator's answers to the
    credential questions, and the errors the writes of the config file
    will meet ([None], and every write past the end of the list:
    the write succeeds). *)
Record ConfigWorld : Type := mkConfigWorld {
  configFile : option jsval;
  stsReplies : list (result string);
  answerReplies : list (result Cli.Answers);
  writeReplies : list (option JsError);
  done : list ConfigOutput
}.

Definition CM (A : Type) : Type := ConfigWorld -> Cli.Outcome A * ConfigWorld.

Definition ret {A} (a : A) : CM A := fun w => (Cli.Returned a, w).
Definition throw {A} (e : JsError) : CM A := fun w => (Cli.Threw e, w).

Definition bind {A B} (m : CM A) (k : A -> CM B) : CM B :=
  fun w =>
    match m w with
    | (Cli.Returned a, w') => k a w'
    | (Cli.Threw e, w') => (Cli.Threw e, w')
    | (Cli.Pending, w') => (Cli.Pending, w')
    | (Cli.OutOfFuel, w') => (Cli.OutOfFuel, w')
    end.

(** The statements of a [try] block, with the way they complete handed
    to what follows: a value, or the error for the [catch] block. *)
Definition attempt {A} (body : CM A) : CM (result A) :=
  fun w =>
    match body w with
    | (Cli.Returned a, w') => (Cli.Returned (Ok a), w')
    | (Cli.Threw e, w') => (Cli.Returned (Thrown e), w')
    | (Cli.Pending, w') => (Cli.Pending, w')
    | (Cli.OutOfFuel, w') => (Cli.OutOfFuel, w')
    end.

Declare Scope config_scope.
Delimit Scope config_scope with config.
Notation "x <- m ;; k" := (bind m (fun x => k))
  (at level 100, m at next level, right associativity) : config_scope.
Notation "m ;; k" := (bind m (fun _ => k))
  (at level 100, right associativity) : config_scope.
Local Open Scope config_scope.

Definition emit (o : ConfigOutput) : CM unit :=
  fun w =>
    (Cli.Returned tt,
     mkConfigWorld (configFile w) (stsReplies w) (answerReplies w)
                   (writeReplies w) (done w ++ [o])).

(** [obj.key = v] on an object: an own property keeps its place, a new
    one goes last. *)
Fixpoint assign (key : string) (v : jsval) (props : list (string * jsval))
    : list (string * jsval) :=
  match props with
  | [] => [(key, v)]
  | (k, x) :: rest =>
      if String.eqb k key then (k, v) :: rest
      else (k, x) :: assign key v rest
  end.

Definition setProp (o : jsval) (key : string) (v : jsval) : jsval :=
  match o with
  | JObj props => JObj (assign key v props)
  | other => other
  end.

(** [loadStoredCredentials]: whatever goes wrong while reading or
    parsing, and whatever fails validation, yields [null]. *)
Definition loadStoredCredentials : CM jsval :=
  fun w =>
    match configFile w with
    | None => (Cli.Returned JNull, w)
    | Some credentials =>
        if truthy (validateCredentials credentials)
        then (Cli.Returned credentials, w)
        else (Cli.Returned JNull, w)
    end.

(** [storeCredentials]: one write of the config file. *)
Definition storeCredentials (credentials : jsval) : CM unit :=
  fun w =>
    let written :=
      mkConfigWorld (configFile w) (stsReplies w) (answerReplies w)
                    (List.tl (writeReplies w))
                    (done w ++ [WriteFile credentials]) in
    match writeReplies w with
    | Some e :: _ => (Cli.Threw e, written)
    | _ => (Cli.Returned tt, written)
    end.

(** The object literal [getCredentialsFromUser] returns;
    [answers.sessionToken || undefined]. *)
Definition credentialsObject (answers : Cli.Answers) : jsval :=
  JObj [("accessKeyId", JStr (Cli.ansAccessKeyId answers));
        ("secretAccessKey", JStr (Cli.ansSecretAccessKey answers));
        ("sessionToken",
         if String.eqb (Cli.ansSessionToken answers) EmptyString
         then JUndefined
         else JStr (Cli.ansSessionToken answers));
        ("region", JStr (Cli.ansRegion answers))].

Definition getCredentialsFromUser : CM jsval :=
  emit (Log "Prompting user for AWS credentials...");;
  answers <-
    (fun w =>
       let asked :=
         mkConfigWorld (configFile w) (stsReplies w)
                       (List.tl (answerReplies w)) (writeReplies w)
                       (done w ++ [AskCredentials]) in
       match answerReplies w with
       | [] => (Cli.Pending, asked)
       | Thrown e :: _ => (Cli.Threw e, asked)
       | Ok answers :: _ => (Cli.Returned answers, asked)
       end);;
  ret (credentialsObject answers).

(** [stsClient.send(new GetSessionTokenCommand({ DurationSeconds: 3600 }))],
    yielding [data.Credentials.SessionToken]. *)
Definition sendGetSessionToken (credentials : jsval) : CM string :=
  fun w =>
    let sent :=
      mkConfigWorld (configFile w) (List.tl (stsReplies w)) (answerReplies w)
        (writeReplies w)
        (done w ++ [GetSessionToken (get credentials "region")
                      (get credentials "accessKeyId")
                      (get credentials "secretAccessKey") 3600]) in
    match stsReplies w with
    | [] => (Cli.Pending, sent)
    | Thrown e :: _ => (Cli.Threw e, sent)
    | Ok token :: _ => (Cli.Returned token, sent)
    end.

Definition sessionTokenFailure : JsError :=
  AWSError "Failed to get session token. Please check your AWS credentials.".

Section Program.
Variable red : string -> string.

(** [generateSessionToken(credentials)] assigns the token to the object
    it is passed, which its caller goes on holding.  The model returns
    that object as the call leaves it, together with the way the call
    completes: with the object, or with the one AWSError its [catch]
    block makes of any failure. *)
Definition generateSessionToken (credentials : jsval)
    : CM (jsval * result jsval) :=
  sent <- attempt (sendGetSessionToken credentials);;
  match sent with
  | Thrown error => ret (credentials, Thrown sessionTokenFailure)
  | Ok token =>
      let credentials := setProp credentials "sessionToken" (JStr token) in
      stored <- attempt (storeCredentials credentials);;
      match stored with
      | Thrown error => ret (credentials, Thrown sessionTokenFailure)
      | Ok _ => ret (credentials, Ok credentials)
      end
  end.

Definition checkAWSConfig : CM jsval :=
  emit (Log "Checking AWS Config...");;
  credentials <- loadStoredCredentials;;
  credentials <-
    (if negb (truthy (validateCredentials credentials)) then
       credentials <- getCredentialsFromUser;;
       storeCredentials credentials;;
       ret credentials
     else ret credentials);;
  if negb (truthy (get credentials "sessionToken")) then
    generated <- generateSessionToken credentials;;
    let credentials := fst generated in
    match snd generated with
    | Thrown error =>
        emit (Log (red "Failed to get session token. Please check your AWS credentials."));;
        ret credentials
    | Ok credentials =>
        stored <- attempt (storeCredentials credentials);;
        match stored with
        | Thrown error =>
            emit (Log (red "Failed to get session token. Please check your AWS credentials."));;
            ret credentials
        | Ok _ => ret credentials
        end
    end
  else ret credentials.

End Program.

End Config.

(* ================================================================= *)
(** ** Vocabulary of the properties *)

Module Trace.
Import Cli.

(** What a call returned, if it returned. *)
Definition returned {A} (run : Outcome A * World) : option A :=
  match fst run with
  | Returned a => Some a
  | _ => None
  end.

(** The greatest timestamp among the events of a non-empty answer. *)
Definition maxTimestamp (first : LogEvent) (rest : list LogEvent) : Z :=
  List.fold_right (fun e m => Z.max (timestamp e) m) (timestamp first) rest.

(** An event whose timestamp is a date, so that its line can be
    rendered. *)
Definition renders (e : LogEvent) : Prop :=
  Z.abs (timestamp e) <= JsDate.maxTime.

(** The [FilterLogEvents] requests of an output, in order: the watermark
    each one sent and the answer it received. *)
Definition Exchange : Type := (Z * option (result (list LogEvent)))%type.

Definition exchangeOf (o : Output) : list Exchange :=
  match o with
  | FilterLogEvents _ _ _ _ _ startTime answer => [(startTime, answer)]
  | _ => []
  end.

Definition exchanges (out : list Output) : list Exchange :=
  List.flat_map exchangeOf out.

(** Every event an answer returned is at or after the watermark its
    request sent. *)
Definition answerRespectsWatermark (x : Exchange) : Prop :=
  match snd x with
  | Some (Ok events) => Forall (fun e => fst x <= timestamp e) events
  | _ => True
  end.

(** The request failed on an expired or unrecognised token: the fetch
    that the [catch] block of [fetchLogs] retries. *)
Definition failedOnToken (x : Exchange) : Prop :=
  exists e, snd x = Some (Thrown e) /\ isExpiredToken e = true.

(** The watermark after an exchange, as the watermark before it and the
    answer determine it. *)
Definition nextWatermark
    (watermark : Z) (answer : option (result (list LogEvent))) : Z :=
  match answer with
  | Some (Ok (first :: rest)) => timestamp (List.last rest first) + 1
  | _ => watermark
  end.

(** Exchanges that start from [watermark] and in which every request
    sends the watermark the exchanges before it have left. *)
Fixpoint follows (watermark : Z) (xs : list Exchange) : Prop :=
  match xs with
  | [] => True
  | x :: rest =>
      fst x = watermark /\ follows (nextWatermark watermark (snd x)) rest
  end.

Fixpoint finalWatermark (watermark : Z) (xs : list Exchange) : Z :=
  match xs with
  | [] => watermark
  | x :: rest => finalWatermark (nextWatermark watermark (snd x)) rest
  end.

(** The event is a chunk from stdin other than the single character q. *)
Definition isOtherKey (ev : LoopEvent) : bool :=
  match ev with
  | Tick => false
  | Data key => negb (String.eqb key "q")
  end.

(** The menus shown to the operator. *)
Definition isListPrompt (o : Output) : bool :=
  match o with
  | ListPrompt _ _ => true
  | _ => false
  end.

(** The menus of an output, in order: the question and the values the
    operator can pick. *)
Definition menuOf (o : Output) : list (string * list string) :=
  match o with
  | ListPrompt message choices => [(message, List.map value choices)]
  | _ => []
  end.

Definition menus (out : list Output) : list (string * list string) :=
  List.flat_map menuOf out.

(** The log groups whose streams were listed, in order. *)
Definition streamListingOf (o : Output) : list string :=
  match o with
  | DescribeLogStreams _ _ logGroupName => [logGroupName]
  | _ => []
  end.

Definition streamListings (out : list Output) : list string :=
  List.flat_map streamListingOf out.

(** *** Runs of the timer with fetches in flight *)

Definition isSettled (stage : Interval.Stage) : bool :=
  match stage with
  | Interval.Settled => true
  | _ => false
  end.

(** No activation of [fetchLogs] is under way. *)
Definition idle (t : Interval.Tail) : bool :=
  List.forallb isSettled (Interval.activations t).

(** At most the activation started last is under way, and when it
    awaits an answer, its request is the one sent last. *)
Definition lastUnderWay (t : Interval.Tail) : Prop :=
  exists settled,
    Forall (fun stage => stage = Interval.Settled) settled
    /\ (Interval.activations t = settled
        \/ (exists earlier watermark,
              Interval.activations t
              = (settled ++ [Interval.AwaitsAnswer (List.length earlier)])%list
              /\ Interval.requests t
                 = (earlier ++ [(watermark, None)])%list)
        \/ Interval.activations t
           = (settled ++ [Interval.AwaitsCredentials])%list
        \/ exists newCredentials,
             Interval.activations t
             = (settled ++ [Interval.AwaitsWrite newCredentials])%list).

(** The answers with events of a schedule, in the order they arrive. *)
Definition answeredEvents (ev : Interval.Event) : list (list LogEvent) :=
  match ev with
  | Interval.RequestSettles _ (Ok events) => [events]
  | _ => []
  end.

Definition eventsAnswered (schedule : list Interval.Event)
    : list (list LogEvent) :=
  List.flat_map answeredEvents schedule.

Section Schedules.
Variables red green yellow : string -> string.
Variables region logGroup logStream : string.

(** A schedule in which the timer is due only while no activation is
    under way: no two fetches overlap. *)
Fixpoint serial (schedule : list Interval.Event) (t : Interval.Tail)
    : bool :=
  match schedule with
  | [] => true
  | ev :: rest =>
      if match ev with
         | Interval.TimerFires => idle t
         | _ => true
         end
      then
        match Interval.step red green yellow region logGroup logStream ev t
        with
        | Some t' => serial rest t'
        | None => true
        end
      else false
  end.

(** Every line that answers arriving in this order push onto the
    buffer, none taken away: the notice for an answer without events
    when the answer before it had none either, a line per event
    otherwise.  [hadEvents] is [lastFetchHadEvents] before the first
    answer. *)
Fixpoint pushedBy (hadEvents : bool) (answers : list (list LogEvent))
    : result (list string) :=
  match answers with
  | [] => Ok []
  | [] :: later =>
      match pushedBy false later with
      | Thrown e => Thrown e
      | Ok more =>
          Ok ((if hadEvents then [] else [yellow "No log events found."])
              ++ more)%list
      end
  | events :: later =>
      match mapResult (renderEvent green) events with
      | Thrown e => Thrown e
      | Ok lines =>
          match pushedBy true later with
          | Thrown e => Thrown e
          | Ok more => Ok (lines ++ more)%list
          end
      end
  end.

End Schedules.

End Trace.

(** Sample data for the closed instances below. *)
Module Sample.
Import Cli.

(** A chalk style on a terminal without colours. *)
Definition plain (s : string) : string := s.

Definition utc (t : Z) : Z := 0.

Definition credentials : Credentials :=
  mkCredentials "AKIAEXAMPLE" "secret" None "eu-west-1".

Definition eventAt (t : Z) : LogEvent := mkLogEvent t "line".

(** A world in which CloudWatch gives [replies] to [FilterLogEvents]. *)
Definition tailWorld (replies : list (result (list LogEvent))) : World :=
  mkWorld [] [] replies [] [] 1700000000000 [].

(** The state [streamLogs] starts from at that world's clock. *)
Definition tailStart : TailState :=
  initialTailState 1700000000000 credentials.

Definition zeroState : TailState := mkTailState [] 0 false credentials.

(** The operator tails a stream of /a/b/c, goes back from the stream
    menu, and answers the two menus that follow with their first entry.
    [groups] is what CloudWatch lists as log groups. *)
Definition backWorld (groups : list Groups.LogGroup) : World :=
  mkWorld [Ok [groups]]
    [Ok [[mkLogStream "stream-1" (Some 1700000000000)]];
     Ok [[mkLogStream "stream-9" None]]]
    [] [Pick 1; Pick 0; Pick 0] [] 1700000300000 [].

Definition ordinaryGroups : list Groups.LogGroup :=
  [Groups.mkLogGroup "/a/b/c" 1700000000000;
   Groups.mkLogGroup "/a/b/d" 1700000100000].

(** The same listing with a group whose name starts with two slashes. *)
Definition doubleSlashGroups : list Groups.LogGroup :=
  [Groups.mkLogGroup "/a/b/c" 1700000000000;
   Groups.mkLogGroup "//a/b/x" 1700000100000].

(** CloudWatch lists no log group: two pages, both empty. *)
Definition emptyListingWorld : World :=
  mkWorld [Ok [[]; []]] [] [] [Pick 0] [] 1700000300000 [].

(** The entries of the specification's example. *)
Definition exampleGroups : list Groups.LogGroup :=
  [Groups.mkLogGroup "/a/b/c" 1700000000000;
   Groups.mkLogGroup "/a/b/d" 1700000100000;
   Groups.mkLogGroup "/a/e" 1700000200000].

(** The operator walks the example: into the root, into b/, back, and
    then picks e.  Every menu is preceded by a fresh listing. *)
Definition walkWorld : World :=
  mkWorld (List.repeat (Ok [exampleGroups]) 4) [] []
    [Pick 0; Pick 0; Pick 2; Pick 1] [] 1700000300000 [].

(** A buffer at the cap: 1000 lines, the oldest one marked. *)
Definition fullBuffer : list string := "oldest" :: List.repeat "old" 999.

Definition fullState : TailState := mkTailState fullBuffer 0 true credentials.

(** [fullState] after a fetch answered with one event at 5 ms. *)
Definition fullStateAfter : TailState :=
  mkTailState (List.repeat "old" 999 ++ ["[1970-01-01T00:00:00.005Z] line"])
              6 true credentials.

End Sample.

(* ================================================================= *)
(** ** Vocabulary of the navigation properties *)

Module Nav.

(** The character occurs in the string. *)
Definition occurs (c : ascii) (s : string) : Prop :=
  In c (list_ascii_of_string s).

(** The prefix [getLogGroup] passes on when the operator picks "Back". *)
Definition parentPrefix (prefix : string) : string :=
  JsString.slice prefix 0
    (JsString.lastIndexOfAt prefix "/" (JsString.len prefix - 2) + 1).

(** The credentials [getCredentialsFromUser] builds from the answers. *)
Definition credentialsOf (answers : Cli.Answers) : Cli.Credentials :=
  Cli.mkCredentials
    (Cli.ansAccessKeyId answers)
    (Cli.ansSecretAccessKey answers)
    (if String.eqb (Cli.ansSessionToken answers) EmptyString then None
     else Some (Cli.ansSessionToken answers))
    (Cli.ansRegion answers).



End Nav.

(* ================================================================= *)
(** ** Further sample worlds *)

Module Cases.
Import Cli.

(** The stream menu of /a/b/c with no stream listed. *)
Definition noStreamsWorld : World :=
  mkWorld [] [Ok [[]]] [] [Pick 0] [] 1700000300000 [].

(** The listing of log groups is throttled. *)
Definition throttled : JsError :=
  Err.mk "ThrottlingException" "Rate exceeded".

Definition throttledListingWorld : World :=
  mkWorld [Thrown throttled] [] [] [Pick 0] [] 1700000300000 [].

(** The first request of a tail is throttled. *)
Definition throttledTailWorld : World :=
  Sample.tailWorld [Thrown throttled; Ok []].

Definition expired : JsError :=
  Err.mk "ExpiredTokenException" "The security token is expired".

Definition newAnswers : Answers :=
  mkAnswers "AKIANEW" "new-secret" "token" "us-east-1".


(** The main menu over the example; the operator picks its first
    entry. *)
Definition mainMenuWorld : World :=
  mkWorld [Ok [Sample.exampleGroups]] [] [] [Pick 0] [] 1700000300000 [].

(** A listing with a group whose name holds no slash. *)
Definition mixedGroups : list Groups.LogGroup :=
  Groups.mkLogGroup "RDSOSMetrics" 1700000000000 :: Sample.exampleGroups.

(** Stored credentials with and without a session token. *)
Definition storedWithToken : Creds.jsval :=
  Creds.JObj [("accessKeyId", Creds.JStr "AKIASTORED");
              ("secretAccessKey", Creds.JStr "stored-secret");
              ("sessionToken", Creds.JStr "stored-token");
              ("region", Creds.JStr "eu-west-1")].

Definition storedWithoutToken : Creds.jsval :=
  Creds.JObj [("accessKeyId", Creds.JStr "AKIASTORED");
              ("secretAccessKey", Creds.JStr "stored-secret");
              ("region", Creds.JStr "eu-west-1")].

Definition configWorld
    (file : option Creds.jsval) (sts : list (result string))
    (answers : list (result Answers)) (writes : list (option JsError))
    : Config.ConfigWorld :=
  Config.mkConfigWorld file sts answers writes [].

(** The config file cannot be written. *)
Definition readOnly : JsError :=
  Err.mk "Error" "EACCES: permission denied".

(** The operator leaves both keys blank and enters a session token. *)
Definition blankAnswers : Answers := mkAnswers "  " "" "token" "eu-west-1".

(** The prompt is interrupted. *)
Definition interrupted : JsError :=
  Err.mk "ExitPromptError" "User force closed the prompt".

(** Two fetches in flight at once: the second timer tick comes before
    the first request is answered, and the answers arrive in the
    opposite order. *)
Definition overlappingSchedule : list Interval.Event :=
  [Interval.TimerFires;
   Interval.TimerFires;
   Interval.RequestSettles 1 (Ok [Sample.eventAt 10; Sample.eventAt 20]);
   Interval.TimerFires;
   Interval.RequestSettles 0 (Ok [Sample.eventAt 10]);
   Interval.TimerFires].

(** Three ticks, each settled before the next; the second one fails on
    the token and is retried with the credentials the operator enters. *)
Definition serialSchedule : list Interval.Event :=
  [Interval.TimerFires;
   Interval.RequestSettles 0 (Ok [Sample.eventAt 5]);
   Interval.TimerFires;
   Interval.RequestSettles 1 (Thrown expired);
   Interval.PromptSettles 1 (Ok newAnswers);
   Interval.WriteSettles 1 None;
   Interval.RequestSettles 1 (Ok []);
   Interval.TimerFires;
   Interval.RequestSettles 2 (Ok [Sample.eventAt 9; Sample.eventAt 7])].

(** The tail after [overlappingSchedule], from an empty buffer. *)
Definition overlappingEnd : Interval.Tail :=
  match
    Interval.run Sample.plain Sample.plain Sample.plain
      "eu-west-1" "/a/b/c" "stream-1" overlappingSchedule
      (Interval.start Sample.zeroState)
  with
  | Some t => t
  | None => Interval.start Sample.zeroState
  end.

End Cases.

(** The [catch] block shared by the menus, in a goal that says the
    activation returned: the error was a token error and the operator
    answered, and every other case is impossible. *)
Ltac refresh_or_rethrow :=
  unfold Cli.bind, Cli.emit, Cli.handleExpiredToken,
    Cli.getCredentialsFromUser, Cli.storeCredentials, Cli.credentialsPrompt,
    Cli.ret, Cli.throw;
  cbn [fst snd Cli.logGroupReplies Cli.logStreamReplies Cli.logEventReplies
       Cli.menuReplies Cli.credentialReplies Cli.now Cli.output];
  match goal with
  | |- context [Cli.isExpiredToken ?e] => destruct (Cli.isExpiredToken e)
  end;
  [ match goal with
    | |- context [Cli.credentialReplies ?w] =>
        destruct (Cli.credentialReplies w) as [ | answers more ]
    end;
    intros H; inversion H; subst;
    first [ split; [ reflexivity | left; eexists; reflexivity ]
          | left; eexists; reflexivity ]
  | intros H; discriminate H ].

(* ================================================================= *)
(** * Properties *)

(** ** The library functions on sample inputs *)

Example slice_examples :
  JsString.slice "/a/b/c" 0 5 = "/a/b/" /\
  JsString.sliceFrom "/a/b/c" 2 = "/b/c" /\
  JsString.slice "abc" (-2) 10 = "bc" /\
  JsString.slice "abc" 2 1 = EmptyString /\
  JsString.endsWith "b/" "/" = true /\
  JsString.endsWith EmptyString "/" = false /\
  JsString.indexOf "b/c" "/" = 1 /\
  JsString.indexOf "e" "/" = -1 /\
  JsString.lastIndexOf "/a/b/c" "/" = 4 /\
  JsString.lastIndexOfAt "/b/c/" "/" 3 = 2 /\
  JsString.lastIndexOfAt "/" "/" (-1) = 0 /\
  JsString.lastIndexOfAt EmptyString "/" (-2) = -1 /\
  JsString.trim "  ak id  " = "ak id" /\
  JsString.trim "   " = EmptyString.
Proof. repeat split; reflexivity. Qed.

Example toISOString_examples :
  JsDate.toISOString (JsDate.newDate 0) = Ok "1970-01-01T00:00:00.000Z" /\
  JsDate.toISOString (JsDate.newDate 1700000000123)
    = Ok "2023-11-14T22:13:20.123Z" /\
  JsDate.toISOString (JsDate.newDate 951782400000)
    = Ok "2000-02-29T00:00:00.000Z" /\
  JsDate.toISOString (JsDate.newDate (-1))
    = Ok "1969-12-31T23:59:59.999Z" /\
  JsDate.toISOString (JsDate.newDate 8640000000000000)
    = Ok "+275760-09-13T00:00:00.000Z" /\
  JsDate.toISOString (JsDate.newDate (-8640000000000000))
    = Ok "-271821-04-20T00:00:00.000Z" /\
  JsDate.toISOString (JsDate.newDate 8640000000000001)
    = Thrown (Err.mk "RangeError" "Invalid time value").
Proof. repeat split; vm_compute; reflexivity. Qed.

Example getters_examples :
  let utc := fun _ : Z => 0 in
  let cet := fun _ : Z => 3600000 in
  JsDate.getFullYear utc (JsDate.newDate 1704067199000) = Some 2023 /\
  JsDate.getMonth utc (JsDate.newDate 1704067199000) = Some 11 /\
  JsDate.getDate utc (JsDate.newDate 1704067199000) = Some 31 /\
  JsDate.getFullYear cet (JsDate.newDate 1704067199000) = Some 2024 /\
  JsDate.getMonth cet (JsDate.newDate 1704067199000) = Some 0 /\
  JsDate.getDate cet (JsDate.newDate 1704067199000) = Some 1.
Proof. repeat split; vm_compute; reflexivity. Qed.

Example validateCredentials_examples :
  let ok := Creds.JObj [("accessKeyId", Creds.JStr "AKIA");
                        ("secretAccessKey", Creds.JStr "s3cr3t");
                        ("region", Creds.JStr "eu-west-1")] in
  Creds.validateCredentials ok = Creds.JBool true /\
  Creds.validateCredentials Creds.JNull = Creds.JNull /\
  Creds.validateCredentials (Creds.JObj [("accessKeyId", Creds.JStr EmptyString)])
    = Creds.JStr EmptyString /\
  Creds.validateCredentials
    (Creds.JObj [("accessKeyId", Creds.JStr "  ");
                 ("secretAccessKey", Creds.JStr "x")]) = Creds.JBool false /\
  Creds.validateCredentials
    (Creds.JObj [("accessKeyId", Creds.JNum 7);
                 ("secretAccessKey", Creds.JStr "x")]) = Creds.JBool false.
Proof. repeat split; reflexivity. Qed.

Example getLogGroup_walk :
  let run :=
    Cli.getLogGroup Sample.plain Sample.utc 4 "eu-west-1" Sample.credentials
      "a" EmptyString Sample.walkWorld in
  Trace.returned run = Some "/a/e"
  /\ Trace.menus (Cli.output (snd run))
     = [("Select Log Group:", ["/"; "back"]);
        ("Select Log Group:", ["/b/"; "/e"; "back"]);
        ("Select Log Group:", ["/b/c"; "/b/d"; "back"]);
        ("Select Log Group:", ["/b/"; "/e"; "back"])].
Proof. split; vm_compute; reflexivity. Qed.

(* ================================================================= *)
(** ** The tail loop: one answered fetch *)

Section TailFacts.
Import Cli Trace.
Variables red green yellow blue : string -> string.

Lemma toISOString_valid (t : Z) :
  Z.abs t <= JsDate.maxTime ->
  exists iso, JsDate.toISOString (JsDate.newDate t) = Ok iso.
Proof.
  intros H. unfold JsDate.newDate.
  destruct (Z.leb_spec (Z.abs t) JsDate.maxTime) as [_ | Hgt]; [ | lia ].
  simpl. eexists. reflexivity.
Qed.

Lemma renderEvents_valid (events : list LogEvent) :
  Forall (fun e => Z.abs (timestamp e) <= JsDate.maxTime) events ->
  exists lines,
    mapResult (renderEvent green) events = Ok lines
    /\ List.length lines = List.length events.
Proof.
  induction 1 as [ | e rest He _ IH ].
  - exists []. split; reflexivity.
  - destruct IH as [lines [Hlines Hlen]].
    destruct (toISOString_valid _ He) as [iso Hiso].
    cbn [mapResult]. unfold renderEvent at 1. rewrite Hiso, Hlines.
    eexists. split; [ reflexivity | simpl; congruence ].
Qed.

Lemma forEach_log (lines : list string) (w : World) :
  forEach (fun line => emit (ConsoleLog line)) lines w
  = (Returned tt,
     mkWorld (logGroupReplies w) (logStreamReplies w) (logEventReplies w)
             (menuReplies w) (credentialReplies w) (now w)
             (output w ++ List.map ConsoleLog lines)).
Proof.
  revert w. induction lines as [ | line rest IH ]; intros w.
  - simpl. unfold ret. rewrite app_nil_r. destruct w; reflexivity.
  - cbn [forEach]. unfold bind at 1. unfold emit at 1.
    rewrite IH. cbn. rewrite <- app_assoc. reflexivity.
Qed.

(** A fetch whose request is answered with [events] that render ends the
    activation at once with the state [processEvents] computes. *)
Lemma fetchLogs_answered
    (fuel : nat) (region logGroup logStream : string)
    (st st' : TailState) (events : list LogEvent)
    (w : World) (later : list (result (list LogEvent))) :
  logEventReplies w = Ok events :: later ->
  processEvents green yellow events st = Ok st' ->
  exists w',
    fetchLogs red green yellow (S fuel) region logGroup logStream st w
    = (Returned st', w')
    /\ logEventReplies w' = later.
Proof.
  intros Hreply Hproc.
  cbn [fetchLogs]. unfold bind at 1. unfold fetchLogsBody, tryCatch.
  unfold bind at 1. unfold sendFilterLogEvents. rewrite Hreply.
  unfold bind at 1. rewrite Hproc. cbn [liftResult]. unfold ret at 1.
  unfold bind at 1. unfold emit at 1.
  unfold bind at 1. rewrite forEach_log. cbn.
  eexists. split; reflexivity.
Qed.

Lemma processEvents_nonempty
    (first : LogEvent) (rest : list LogEvent) (st : TailState) :
  Forall renders (first :: rest) ->
  exists lines,
    mapResult (renderEvent green) (first :: rest) = Ok lines
    /\ processEvents green yellow (first :: rest) st
       = Ok (mkTailState (limitBuffer (logBuffer st ++ lines))
                         (timestamp (List.last rest first) + 1)
                         true (credentials st)).
Proof.
  intros Hvalid.
  destruct (renderEvents_valid _ Hvalid) as [lines [Hlines _]].
  exists lines. split; [ exact Hlines | ].
  unfold processEvents. rewrite Hlines. reflexivity.
Qed.

(** C1, in the form that holds of the code.  A fetch answered with a
    non-empty list of events that render returns, and the new watermark
    is the timestamp of the event returned last plus one.  It is the
    greatest timestamp plus one exactly when the event returned last
    carries the greatest timestamp, so the result depends on the order of
    the answer. *)
Theorem watermark_is_last_timestamp_plus_one
    (fuel : nat) (region logGroup logStream : string) (st : TailState)
    (w : World) (first : LogEvent) (rest : list LogEvent)
    (later : list (result (list LogEvent))) :
  logEventReplies w = Ok (first :: rest) :: later ->
  Forall renders (first :: rest) ->
  exists st' w',
    fetchLogs red green yellow (S fuel) region logGroup logStream st w
    = (Returned st', w')
    /\ startTime st' = timestamp (List.last rest first) + 1
    /\ lastFetchHadEvents st' = true
    /\ (startTime st' = maxTimestamp first rest + 1
        <-> timestamp (List.last rest first) = maxTimestamp first rest).
Proof.
  intros Hreply Hvalid.
  destruct (processEvents_nonempty first rest st Hvalid)
    as [lines [_ Hproc]].
  destruct (fetchLogs_answered fuel region logGroup logStream _ _ _ w later
              Hreply Hproc) as [w' [Hrun _]].
  eexists. exists w'. split; [ exact Hrun | ].
  cbn [startTime lastFetchHadEvents].
  repeat split; intros; lia.
Qed.

End TailFacts.

(** An answer in ascending order, 100, 103, 105: the watermark becomes 106. *)
Lemma watermark_is_last_timestamp_plus_one_witness :
  exists st' w',
    Cli.fetchLogs Sample.plain Sample.plain Sample.plain 1
      "eu-west-1" "/a/b/c" "stream-1" Sample.tailStart
      (Sample.tailWorld
         [Ok [Sample.eventAt 100; Sample.eventAt 103; Sample.eventAt 105]])
    = (Cli.Returned st', w')
    /\ Cli.startTime st' = 105 + 1
    /\ Cli.lastFetchHadEvents st' = true
    /\ (Cli.startTime st' = 105 + 1 <-> 105 = 105).
Proof.
  apply (watermark_is_last_timestamp_plus_one
           Sample.plain Sample.plain Sample.plain 0
           "eu-west-1" "/a/b/c" "stream-1" Sample.tailStart
           (Sample.tailWorld
              [Ok [Sample.eventAt 100; Sample.eventAt 103;
                   Sample.eventAt 105]])
           (Sample.eventAt 100) [Sample.eventAt 103; Sample.eventAt 105] []).
  - reflexivity.
  - repeat constructor; unfold Trace.renders; vm_compute; discriminate.
Defined.

(** C1 as the specification words it does not hold: answered with the
    timestamps 100, 105, 103 in that order, the fetch leaves the
    watermark at 104, while the greatest timestamp plus one is 106. *)
Lemma watermark_after_unordered_answer :
  option_map Cli.startTime
    (Trace.returned
       (Cli.fetchLogs Sample.plain Sample.plain Sample.plain 1
          "eu-west-1" "/a/b/c" "stream-1" Sample.tailStart
          (Sample.tailWorld
             [Ok [Sample.eventAt 100; Sample.eventAt 105;
                  Sample.eventAt 103]])))
  = Some 104
  /\ Trace.maxTimestamp (Sample.eventAt 100)
       [Sample.eventAt 105; Sample.eventAt 103] + 1 = 106.
Proof. split; vm_compute; reflexivity. Qed.
(* ================================================================= *)
(** ** The scrollback buffer *)

Section Buffer.
Import Cli.

Lemma limitBuffer_skipn (buffer : list string) :
  limitBuffer buffer = List.skipn (List.length buffer - 1000) buffer.
Proof.
  unfold limitBuffer, MAX_LOG_LINES.
  destruct (Z.ltb_spec 1000 (Z.of_nat (List.length buffer))) as [Hgt | Hle].
  - f_equal. lia.
  - replace (List.length buffer - 1000)%nat with 0%nat by lia. reflexivity.
Qed.

Lemma limitBuffer_length (buffer : list string) :
  List.length (limitBuffer buffer) = Nat.min (List.length buffer) 1000.
Proof. rewrite limitBuffer_skipn, length_skipn. lia. Qed.

(** The retained lines are a suffix of the buffer: what is dropped is
    dropped from the front. *)
Lemma limitBuffer_suffix (buffer : list string) :
  (List.firstn (List.length buffer - 1000) buffer ++ limitBuffer buffer)%list
  = buffer.
Proof. rewrite limitBuffer_skipn. apply firstn_skipn. Qed.

(** Trimming early does not change what a later trim retains. *)
Lemma limitBuffer_app (a b : list string) :
  limitBuffer (limitBuffer a ++ b) = limitBuffer (a ++ b).
Proof.
  rewrite (limitBuffer_skipn (limitBuffer a ++ b)).
  rewrite (limitBuffer_skipn (a ++ b)).
  rewrite !skipn_app, !length_app, limitBuffer_length.
  rewrite limitBuffer_skipn, skipn_skipn.
  f_equal; f_equal; lia.
Qed.

End Buffer.

(* ================================================================= *)
(** ** The tail loop: every way a fetch can end *)

Section FetchFacts.
Import Cli Trace.
Variables red green yellow blue : string -> string.

(** Rendering fails only with the RangeError of [toISOString]. *)
Lemma renderEvents_error (events : list LogEvent) (e : JsError) :
  mapResult (renderEvent green) events = Thrown e ->
  isExpiredToken e = false.
Proof.
  induction events as [ | ev rest IH ]; cbn [mapResult]; [ discriminate | ].
  unfold renderEvent at 1, JsDate.newDate.
  destruct (Z.abs (timestamp ev) <=? JsDate.maxTime); cbn.
  - destruct (mapResult (renderEvent green) rest); [ discriminate | ].
    intros H. injection H as <-. apply IH. reflexivity.
  - intros H. injection H as <-. reflexivity.
Qed.

Lemma processEvents_error
    (events : list LogEvent) (st : TailState) (e : JsError) :
  processEvents green yellow events st = Thrown e ->
  isExpiredToken e = false.
Proof.
  unfold processEvents. destruct events as [ | first rest ]; [ discriminate | ].
  destruct (mapResult (renderEvent green) (first :: rest)) eqn:Hlines;
    [ discriminate | ].
  intros H. injection H as <-. exact (renderEvents_error _ _ Hlines).
Qed.

End FetchFacts.

Section TailBuffer.
Import Cli Trace.
Variables red green yellow blue : string -> string.

(** What [processEvents] pushes onto the buffer before it trims it, and
    that it leaves the credentials alone. *)
Lemma processEvents_pushes
    (events : list LogEvent) (st st' : TailState) :
  processEvents green yellow events st = Ok st' ->
  credentials st' = credentials st
  /\ exists appended,
       match events with
       | [] =>
           appended
           = if lastFetchHadEvents st then []
             else [yellow "No log events found."]
       | _ :: _ => mapResult (renderEvent green) events = Ok appended
       end
       /\ logBuffer st' = limitBuffer (logBuffer st ++ appended).
Proof.
  unfold processEvents. destruct events as [ | first rest ].
  - intros H. injection H as <-. cbn [logBuffer credentials].
    split; [ reflexivity | ].
    destruct (lastFetchHadEvents st); cbn [negb]; eexists;
      (split; [ reflexivity | ]); rewrite ?app_nil_r; reflexivity.
  - destruct (mapResult (renderEvent green) (first :: rest)) as [lines | e];
      [ | discriminate ].
    intros H. injection H as <-. cbn [logBuffer credentials].
    split; [ reflexivity | ]. exists lines. split; reflexivity.
Qed.

(** An activation of [fetchLogs] that is done has repainted the screen
    with the buffer [processEvents] left, and one that asks for a retry
    has added no request to the one it sent. *)
Lemma fetchLogsBody_returned
    (region logGroup logStream : string) (st : TailState)
    (w w' : World) (next : FetchNext) :
  fetchLogsBody red green yellow region logGroup logStream st w
  = (Returned next, w') ->
  match next with
  | FetchDone st' =>
      exists events,
        processEvents green yellow events st = Ok st'
        /\ output w'
           = (output w
              ++ FilterLogEvents region (credentials st) logGroup logStream
                   MAX_FETCH_LINES (startTime st) (Some (Ok events))
                 :: ConsoleClear :: List.map ConsoleLog (logBuffer st'))%list
  | FetchRetry st' =>
      (exists c, st' = refreshCredentials st c)
      /\ exists post, output w' = (output w ++ post)%list
  end.
Proof.
  unfold fetchLogsBody, tryCatch.
  unfold bind at 1. unfold sendFilterLogEvents.
  destruct (logEventReplies w) as [ | [events | e] later ].
  - discriminate.
  - unfold bind at 1.
    destruct (processEvents green yellow events st) as [st' | e] eqn:Hproc;
      cbn [liftResult]; unfold ret at 1, throw at 1.
    + unfold bind at 1. unfold emit at 1. unfold bind at 1.
      rewrite forEach_log. unfold ret. cbn [output].
      intros H. injection H as <- <-. cbn [output].
      exists events. split; [ exact Hproc | ].
      rewrite <- !app_assoc. reflexivity.
    + rewrite (processEvents_error green yellow _ _ _ Hproc). unfold throw.
      discriminate.
  - destruct (isExpiredToken e) eqn:Hexp.
    + unfold handleExpiredToken, getCredentialsFromUser, storeCredentials.
      unfold bind, emit, credentialsPrompt, ret. cbn.
      destruct (credentialReplies w) as [ | answers more ];
        intros H; [ discriminate H | ].
      injection H as <- <-. cbn [output]. split.
      * eexists. reflexivity.
      * rewrite <- !app_assoc. eexists. reflexivity.
    + unfold throw. discriminate.
Qed.

(** A call of [fetchLogs] that returns: after any number of retries,
    which change nothing but the credentials, its last request was
    answered with events that [processEvents] accepted. *)
Lemma fetchLogs_returned
    (fuel : nat) (region logGroup logStream : string)
    (st st' : TailState) (w w' : World) :
  fetchLogs red green yellow fuel region logGroup logStream st w
  = (Returned st', w') ->
  exists events earlier,
    processEvents green yellow events
      (mkTailState (logBuffer st) (startTime st) (lastFetchHadEvents st)
                   (credentials st'))
    = Ok st'
    /\ output w'
       = (output w
          ++ earlier
          ++ FilterLogEvents region (credentials st') logGroup logStream
               MAX_FETCH_LINES (startTime st) (Some (Ok events))
             :: ConsoleClear :: List.map ConsoleLog (logBuffer st'))%list.
Proof.
  revert st w. induction fuel as [ | fuel IH ]; intros st w; cbn [fetchLogs].
  - discriminate.
  - unfold bind.
    destruct (fetchLogsBody red green yellow region logGroup logStream st w)
      as [[[st1 | st1] | e | | ] w1] eqn:Hbody; try discriminate.
    + unfold ret. intros H. injection H as <- <-.
      destruct (fetchLogsBody_returned _ _ _ _ _ _ _ Hbody)
        as [events [Hproc Hout]].
      destruct (processEvents_pushes _ _ _ Hproc) as [Hcred _].
      exists events, []. rewrite Hcred. split.
      * destruct st. exact Hproc.
      * exact Hout.
    + destruct (fetchLogsBody_returned _ _ _ _ _ _ _ Hbody)
        as [[c ->] [post Hout]].
      intros Hrec. destruct (IH _ _ Hrec) as [events [earlier [Hproc Hout']]].
      cbn [refreshCredentials logBuffer startTime lastFetchHadEvents]
        in Hproc, Hout'.
      exists events, (post ++ earlier)%list. split; [ exact Hproc | ].
      rewrite Hout', Hout, <- !app_assoc. reflexivity.
Qed.

(** C7.  Whenever a fetch of the tail loop completes, after any number
    of credential retries, its last request was answered with some
    events, and the lines this answer appends are the notice (when it
    has no events and the fetch before had none) or one line per event,
    in the order of the answer.  The buffer then is the old buffer
    followed by these lines, without its first lines beyond the last
    [MAX_LOG_LINES] = 1000: it never holds more than 1000 lines, what is
    dropped is dropped from the front, the retained lines keep their
    order, and nothing is dropped unless the cap is exceeded. *)
Theorem buffer_capped_oldest_dropped_first
    (fuel : nat) (region logGroup logStream : string)
    (st st' : TailState) (w w' : World) :
  fetchLogs red green yellow fuel region logGroup logStream st w
  = (Returned st', w') ->
  exists events appended earlier,
    output w'
    = (output w
       ++ earlier
       ++ FilterLogEvents region (credentials st') logGroup logStream
            MAX_FETCH_LINES (startTime st) (Some (Ok events))
          :: ConsoleClear :: List.map ConsoleLog (logBuffer st'))%list
    /\ match events with
       | [] =>
           appended
           = if lastFetchHadEvents st then []
             else [yellow "No log events found."]
       | _ :: _ => mapResult (renderEvent green) events = Ok appended
       end
    /\ MAX_LOG_LINES = 1000
    /\ Z.of_nat (List.length (logBuffer st')) <= MAX_LOG_LINES
    /\ logBuffer st'
       = List.skipn (List.length (logBuffer st ++ appended) - 1000)
                    (logBuffer st ++ appended)
    /\ (logBuffer st ++ appended)%list
       = (List.firstn (List.length (logBuffer st ++ appended) - 1000)
                      (logBuffer st ++ appended)
          ++ logBuffer st')%list
    /\ List.length (logBuffer st')
       = Nat.min (List.length (logBuffer st ++ appended)) 1000.
Proof.
  intros Hrun.
  destruct (fetchLogs_returned _ _ _ _ _ _ _ _ Hrun)
    as [events [earlier [Hproc Hout]]].
  destruct (processEvents_pushes _ _ _ Hproc) as [_ [appended [Hlines Hbuf]]].
  cbn [logBuffer lastFetchHadEvents] in Hlines, Hbuf.
  exists events, appended, earlier.
  split; [ exact Hout | ]. split; [ exact Hlines | ].
  split; [ reflexivity | ]. rewrite Hbuf. repeat split.
  - rewrite limitBuffer_length. unfold MAX_LOG_LINES. lia.
  - apply limitBuffer_skipn.
  - symmetry. apply limitBuffer_suffix.
  - apply limitBuffer_length.
Qed.

Lemma processEvents_empty (st : TailState) :
  processEvents green yellow [] st
  = Ok (mkTailState
          (limitBuffer
             (if lastFetchHadEvents st then logBuffer st
              else logBuffer st ++ [yellow "No log events found."]))
          (startTime st) false (credentials st)).
Proof. unfold processEvents. destruct (lastFetchHadEvents st); reflexivity. Qed.

Lemma limitBuffer_idempotent (buffer : list string) :
  limitBuffer (limitBuffer buffer) = limitBuffer buffer.
Proof.
  rewrite <- (app_nil_r (limitBuffer buffer)) at 1.
  rewrite limitBuffer_app, app_nil_r. reflexivity.
Qed.

(** C2, in the form that holds of the code.  A fetch answered with no
    events appends the notice exactly when [lastFetchHadEvents] is false,
    that is when the fetch before it returned no events either or when it
    is the first fetch.  Of two consecutive answered fetches, the second
    one empty: after an empty fetch the notice is appended, after a fetch
    with events nothing is.  So two consecutive empty fetches append two
    notices when the flag was false before them. *)
Theorem no_events_notice_follows_an_empty_fetch
    (fuel : nat) (region logGroup logStream : string) (st : TailState)
    (w : World) (previous : list LogEvent)
    (later : list (result (list LogEvent))) :
  logEventReplies w = Ok previous :: Ok [] :: later ->
  Forall renders previous ->
  exists st1 w1 st2 w2,
    fetchLogs red green yellow (S fuel) region logGroup logStream st w
    = (Returned st1, w1)
    /\ fetchLogs red green yellow (S fuel) region logGroup logStream st1 w1
       = (Returned st2, w2)
    /\ lastFetchHadEvents st2 = false
    /\ logBuffer st2
       = match previous with
         | [] => limitBuffer (logBuffer st1 ++ [yellow "No log events found."])
         | _ :: _ => logBuffer st1
         end
    /\ (previous = [] -> lastFetchHadEvents st = false ->
        logBuffer st2
        = limitBuffer (logBuffer st ++ [yellow "No log events found.";
                                        yellow "No log events found."])).
Proof.
  intros Hreply Hvalid.
  assert (Hfirst : exists st1,
             processEvents green yellow previous st = Ok st1
             /\ lastFetchHadEvents st1
                = match previous with [] => false | _ :: _ => true end
             /\ (exists b, logBuffer st1 = limitBuffer b)
             /\ (previous = [] -> lastFetchHadEvents st = false ->
                 logBuffer st1
                 = limitBuffer (logBuffer st ++ [yellow "No log events found."]))).
  { destruct previous as [ | first rest ].
    - eexists. split; [ apply processEvents_empty | ].
      cbn [lastFetchHadEvents logBuffer]. split; [ reflexivity | ].
      split; [ eexists; reflexivity | ].
      intros _ ->. reflexivity.
    - destruct (processEvents_nonempty green yellow first rest st Hvalid)
        as [lines [_ Hproc]].
      eexists. split; [ exact Hproc | ].
      cbn [lastFetchHadEvents logBuffer]. split; [ reflexivity | ].
      split; [ eexists; reflexivity | discriminate ]. }
  destruct Hfirst as [st1 [Hproc1 [Hflag1 [[b Hlim] Hpair]]]].
  destruct (fetchLogs_answered red green yellow fuel region logGroup logStream
              _ _ _ w _ Hreply Hproc1) as [w1 [Hrun1 Hreply1]].
  destruct (fetchLogs_answered red green yellow fuel region logGroup logStream
              _ _ _ w1 _ Hreply1 (processEvents_empty st1))
    as [w2 [Hrun2 _]].
  exists st1, w1. eexists. exists w2.
  split; [ exact Hrun1 | ]. split; [ exact Hrun2 | ].
  cbn [lastFetchHadEvents logBuffer]. split; [ reflexivity | ].
  rewrite Hflag1. split.
  - destruct previous; [ reflexivity | ].
    rewrite Hlim. apply limitBuffer_idempotent.
  - intros Hprev Hflag. subst previous.
    rewrite (Hpair eq_refl Hflag), limitBuffer_app, <- app_assoc.
    reflexivity.
Qed.

End TailBuffer.

(** A buffer of 1000 lines and one new event: the line marked oldest is
    dropped and the new line is the last one. *)
Lemma buffer_capped_oldest_dropped_first_witness :
  exists events appended earlier,
    Cli.output
      (snd (Cli.fetchLogs Sample.plain Sample.plain Sample.plain 1
              "eu-west-1" "/a/b/c" "stream-1" Sample.fullState
              (Sample.tailWorld [Ok [Sample.eventAt 5]])))
    = (Cli.output (Sample.tailWorld [Ok [Sample.eventAt 5]])
       ++ earlier
       ++ Cli.FilterLogEvents "eu-west-1"
            (Cli.credentials Sample.fullStateAfter) "/a/b/c" "stream-1"
            Cli.MAX_FETCH_LINES (Cli.startTime Sample.fullState)
            (Some (Ok events))
          :: Cli.ConsoleClear
          :: List.map Cli.ConsoleLog (Cli.logBuffer Sample.fullStateAfter))%list
    /\ match events with
       | [] =>
           appended
           = if Cli.lastFetchHadEvents Sample.fullState then []
             else [Sample.plain "No log events found."]
       | _ :: _ =>
           Cli.mapResult (Cli.renderEvent Sample.plain) events = Ok appended
       end
    /\ Cli.MAX_LOG_LINES = 1000
    /\ Z.of_nat (List.length (Cli.logBuffer Sample.fullStateAfter))
       <= Cli.MAX_LOG_LINES
    /\ Cli.logBuffer Sample.fullStateAfter
       = List.skipn
           (List.length (Cli.logBuffer Sample.fullState ++ appended) - 1000)
           (Cli.logBuffer Sample.fullState ++ appended)
    /\ (Cli.logBuffer Sample.fullState ++ appended)%list
       = (List.firstn
            (List.length (Cli.logBuffer Sample.fullState ++ appended) - 1000)
            (Cli.logBuffer Sample.fullState ++ appended)
          ++ Cli.logBuffer Sample.fullStateAfter)%list
    /\ List.length (Cli.logBuffer Sample.fullStateAfter)
       = Nat.min (List.length (Cli.logBuffer Sample.fullState ++ appended))
                 1000.
Proof.
  apply (buffer_capped_oldest_dropped_first
           Sample.plain Sample.plain Sample.plain 1
           "eu-west-1" "/a/b/c" "stream-1"
           Sample.fullState Sample.fullStateAfter
           (Sample.tailWorld [Ok [Sample.eventAt 5]])
           (snd (Cli.fetchLogs Sample.plain Sample.plain Sample.plain 1
                   "eu-west-1" "/a/b/c" "stream-1" Sample.fullState
                   (Sample.tailWorld [Ok [Sample.eventAt 5]])))).
  vm_compute. reflexivity.
Defined.

(** The first two fetches of a tail, both without events. *)
Lemma no_events_notice_follows_an_empty_fetch_witness :
  exists st1 w1 st2 w2,
    Cli.fetchLogs Sample.plain Sample.plain Sample.plain 1
      "eu-west-1" "/a/b/c" "stream-1" Sample.tailStart
      (Sample.tailWorld [Ok []; Ok []])
    = (Cli.Returned st1, w1)
    /\ Cli.fetchLogs Sample.plain Sample.plain Sample.plain 1
         "eu-west-1" "/a/b/c" "stream-1" st1 w1
       = (Cli.Returned st2, w2)
    /\ Cli.lastFetchHadEvents st2 = false
    /\ Cli.logBuffer st2
       = Cli.limitBuffer (Cli.logBuffer st1 ++ ["No log events found."])
    /\ (@nil Cli.LogEvent = [] ->
        Cli.lastFetchHadEvents Sample.tailStart = false ->
        Cli.logBuffer st2
        = Cli.limitBuffer
            (Cli.logBuffer Sample.tailStart
             ++ ["No log events found."; "No log events found."])).
Proof.
  exact (no_events_notice_follows_an_empty_fetch
           Sample.plain Sample.plain Sample.plain 0
           "eu-west-1" "/a/b/c" "stream-1" Sample.tailStart
           (Sample.tailWorld [Ok []; Ok []]) [] []
           eq_refl (Forall_nil _)).
Defined.

(** C2 as the specification words it does not hold: two consecutive
    fetches without events at the start of the tail append two notices,
    the second although the fetch before it was empty; and a fetch
    without events that follows a fetch with events appends none. *)
Lemma two_empty_fetches_append_two_notices :
  option_map Cli.logBuffer
    (Trace.returned
       (Cli.poll Sample.plain Sample.plain Sample.plain 2 1
          "eu-west-1" "/a/b/c" "stream-1" Sample.tailStart
          (Sample.tailWorld [Ok []; Ok []])))
  = Some ["No log events found."; "No log events found."]
  /\ option_map Cli.logBuffer
       (Trace.returned
          (Cli.poll Sample.plain Sample.plain Sample.plain 2 1
             "eu-west-1" "/a/b/c" "stream-1" Sample.tailStart
             (Sample.tailWorld [Ok [Sample.eventAt 5]; Ok []])))
     = Some ["[1970-01-01T00:00:00.005Z] line"].
Proof. split; vm_compute; reflexivity. Qed.

(* ================================================================= *)
(** ** The watermark across fetches *)

Section Watermark.
Import Cli Trace.
Variables red green yellow blue : string -> string.

Lemma last_In {A} (rest : list A) (first : A) :
  In (List.last rest first) (first :: rest).
Proof.
  destruct rest as [ | a rest ]; [ left; reflexivity | right ].
  revert a. induction rest as [ | b rest IH ]; intros a.
  - left. reflexivity.
  - right. exact (IH b).
Qed.

(** An answer that respects the watermark of its request moves the
    watermark forward, if at all. *)
Lemma nextWatermark_le (x : Exchange) :
  answerRespectsWatermark x -> fst x <= nextWatermark (fst x) (snd x).
Proof.
  destruct x as [wm [[[ | first rest] | e] | ]]; cbn; try lia.
  intros Hall. rewrite Forall_forall in Hall.
  specialize (Hall _ (last_In rest first)). lia.
Qed.

Lemma follows_monotone (xs : list Exchange) (wm : Z) :
  follows wm xs ->
  Forall answerRespectsWatermark xs ->
  StronglySorted Z.le (List.map fst xs)
  /\ Forall (fun x => wm <= fst x) xs
  /\ wm <= finalWatermark wm xs
  /\ Forall (fun x => fst x <= finalWatermark wm xs) xs.
Proof.
  revert wm. induction xs as [ | x xs IH ]; intros wm Hfollows Hall.
  - cbn. repeat split; try constructor. lia.
  - destruct Hfollows as [Hx Hxs]. inversion Hall as [ | ? ? Hrx Hrxs ]; subst.
    destruct (IH _ Hxs Hrxs) as [Hsorted [Hlow [Hend Hhigh]]].
    pose proof (nextWatermark_le x Hrx) as Hstep.
    assert (Hlow' : Forall (fun y => fst x <= fst y) xs).
    { eapply Forall_impl; [ | exact Hlow ]. cbn. intros. lia. }
    cbn [List.map finalWatermark]. repeat split.
    + constructor; [ exact Hsorted | ].
      rewrite Forall_map. exact Hlow'.
    + constructor; [ lia | exact Hlow' ].
    + lia.
    + constructor; [ lia | exact Hhigh ].
Qed.

Lemma follows_adjacent (xs : list Exchange) (wm : Z)
    (pre post : list Exchange) (x y : Exchange) :
  follows wm xs ->
  xs = (pre ++ x :: y :: post)%list ->
  fst y = nextWatermark (fst x) (snd x).
Proof.
  revert wm xs. induction pre as [ | p pre IH ]; intros wm xs Hfollows ->.
  - cbn in Hfollows. destruct Hfollows as [-> [-> _]]. reflexivity.
  - cbn in Hfollows. destruct Hfollows as [_ Hrest].
    exact (IH _ _ Hrest eq_refl).
Qed.

Lemma follows_last (xs : list Exchange) (wm : Z)
    (pre : list Exchange) (x : Exchange) :
  follows wm xs ->
  xs = (pre ++ [x])%list ->
  finalWatermark wm xs = nextWatermark (fst x) (snd x).
Proof.
  revert wm xs. induction pre as [ | p pre IH ]; intros wm xs Hfollows ->.
  - cbn in Hfollows. destruct Hfollows as [-> _]. reflexivity.
  - cbn in Hfollows. destruct Hfollows as [_ Hrest].
    cbn [app finalWatermark]. exact (IH _ _ Hrest eq_refl).
Qed.

Lemma processEvents_watermark
    (events : list LogEvent) (st st' : TailState) :
  processEvents green yellow events st = Ok st' ->
  startTime st' = nextWatermark (startTime st) (Some (Ok events)).
Proof.
  unfold processEvents. destruct events as [ | first rest ].
  - intros H. injection H as <-. reflexivity.
  - destruct (mapResult (renderEvent green) (first :: rest));
      [ | discriminate ].
    intros H. injection H as <-. reflexivity.
Qed.

End Watermark.

Section ScheduleFacts.
Import Cli Trace.

Lemma replace_last {A} (l : list A) (x y : A) :
  Interval.replace (List.length l) y (l ++ [x]) = (l ++ [y])%list.
Proof.
  induction l as [ | a l IH ]; cbn; [ reflexivity | ]. rewrite IH. reflexivity.
Qed.

Lemma settled_nth_error
    (settled : list Interval.Stage) (i : nat) (stage : Interval.Stage) :
  Forall (fun s => s = Interval.Settled) settled ->
  List.nth_error settled i = Some stage ->
  stage = Interval.Settled.
Proof.
  intros Hall Hnth. rewrite Forall_forall in Hall.
  apply Hall. exact (nth_error_In _ _ Hnth).
Qed.

(** Among settled activations followed by one more, only the last can
    be under way. *)
Lemma under_way_is_last
    (settled : list Interval.Stage) (last stage : Interval.Stage) (i : nat) :
  Forall (fun s => s = Interval.Settled) settled ->
  List.nth_error (settled ++ [last]) i = Some stage ->
  stage <> Interval.Settled ->
  i = List.length settled /\ stage = last.
Proof.
  intros Hall Hnth Hstage.
  destruct (Nat.lt_ge_cases i (List.length settled)) as [Hlt | Hge].
  - rewrite nth_error_app1 in Hnth by exact Hlt.
    elim Hstage. exact (settled_nth_error _ _ _ Hall Hnth).
  - rewrite nth_error_app2 in Hnth by exact Hge.
    destruct (i - List.length settled)%nat as [ | k ] eqn:Hk.
    + cbn in Hnth. injection Hnth as <-. split; [ lia | reflexivity ].
    + destruct k; discriminate Hnth.
Qed.

Lemma idle_settled (settled : list Interval.Stage) :
  Forall (fun s => s = Interval.Settled) settled ->
  List.forallb isSettled settled = true.
Proof.
  induction 1 as [ | s rest -> _ IH ]; [ reflexivity | exact IH ].
Qed.

Lemma idle_last (settled : list Interval.Stage) (last : Interval.Stage) :
  List.forallb isSettled (settled ++ [last]) = true ->
  last = Interval.Settled.
Proof.
  rewrite forallb_app. intros H. apply andb_true_iff in H.
  destruct H as [_ H]. destruct last; try discriminate H. reflexivity.
Qed.

Lemma settled_snoc (settled : list Interval.Stage) :
  Forall (fun s => s = Interval.Settled) settled ->
  Forall (fun s => s = Interval.Settled) (settled ++ [Interval.Settled]).
Proof.
  intros H. apply Forall_app. split; [ exact H | ].
  constructor; [ reflexivity | constructor ].
Qed.

Lemma finalWatermark_snoc (wm : Z) (xs : list Exchange) (x : Exchange) :
  finalWatermark wm (xs ++ [x])
  = nextWatermark (finalWatermark wm xs) (snd x).
Proof.
  revert wm. induction xs as [ | y xs IH ]; intros wm; cbn; auto.
Qed.

Lemma follows_snoc (wm : Z) (xs : list Exchange) (x : Exchange) :
  follows wm (xs ++ [x])
  <-> follows wm xs /\ fst x = finalWatermark wm xs.
Proof.
  revert wm. induction xs as [ | y xs IH ]; intros wm; cbn.
  - tauto.
  - rewrite IH. tauto.
Qed.

End ScheduleFacts.

Section WatermarkRuns.
Import Cli Trace.
Variables red green yellow : string -> string.
Variables region logGroup logStream : string.

(** One event of a schedule without overlapping fetches: every request
    still sends the watermark that the answers before it have left, the
    variable [startTime] is that watermark, and again at most the last
    activation is under way. *)
Lemma step_without_overlap
    (wm : Z) (ev : Interval.Event) (t t' : Interval.Tail) :
  follows wm (Interval.requests t) ->
  (Interval.ended t = None ->
   finalWatermark wm (Interval.requests t) = startTime (Interval.closure t)
   /\ lastUnderWay t) ->
  Interval.step red green yellow region logGroup logStream ev t = Some t' ->
  (ev = Interval.TimerFires -> idle t = true) ->
  follows wm (Interval.requests t')
  /\ (Interval.ended t' = None ->
      finalWatermark wm (Interval.requests t') = startTime (Interval.closure t')
      /\ lastUnderWay t').
Proof.
  intros Hfol Hlive Hstep Hidle. unfold Interval.step in Hstep.
  destruct (Interval.ended t) eqn:Hended; [ discriminate Hstep | ].
  destruct (Hlive eq_refl) as [Hfin [settled [Hsettled Hshape]]]. clear Hlive.
  destruct ev as [ | i answer | i answers | i failure ].
  - (* the timer is due *)
    specialize (Hidle eq_refl). unfold idle in Hidle.
    assert (Hall : Interval.activations t = settled).
    { destruct Hshape as [H | [[earlier [w [H _]]] | [H | [c H]]]];
        [ exact H | | | ];
        rewrite H in Hidle; apply idle_last in Hidle; discriminate Hidle. }
    injection Hstep as <-.
    cbn [Interval.sendRequest Interval.requests Interval.closure
         Interval.ended Interval.activations].
    split; [ apply follows_snoc; split; [ exact Hfol | symmetry; exact Hfin ] | ].
    intros _. split.
    + rewrite finalWatermark_snoc. exact Hfin.
    + exists settled. split; [ exact Hsettled | ].
        cbn [Interval.moveOn Interval.sendRequest Interval.settle
             Interval.activations Interval.requests Interval.closure].
      right. left. exists (Interval.requests t), (startTime (Interval.closure t)).
      rewrite Hall. split; reflexivity.
  - (* a request settles *)
    destruct (List.nth_error (Interval.activations t) i) as [stage | ] eqn:Hnth;
      [ | discriminate Hstep ].
    destruct stage as [request | | c | ]; try discriminate Hstep.
    assert (Hlast : exists earlier w,
               Interval.activations t
               = (settled ++ [Interval.AwaitsAnswer (List.length earlier)])%list
               /\ Interval.requests t = (earlier ++ [(w, None)])%list
               /\ i = List.length settled
               /\ request = List.length earlier).
    { destruct Hshape as [H | [[earlier [w [H Hreq]]] | [H | [c H]]]];
        rewrite H in Hnth.
      - pose proof (settled_nth_error _ _ _ Hsettled Hnth) as Hs.
        discriminate Hs.
      - destruct (under_way_is_last _ _ _ _ Hsettled Hnth) as [Hi Hs];
          [ discriminate | ].
        injection Hs as Hs. exists earlier, w. auto.
      - destruct (under_way_is_last _ _ _ _ Hsettled Hnth) as [_ Hs];
          [ discriminate | discriminate Hs ].
      - destruct (under_way_is_last _ _ _ _ Hsettled Hnth) as [_ Hs];
          [ discriminate | discriminate Hs ]. }
    destruct Hlast as [earlier [w [Hacts [Hreqs [-> ->]]]]].
    rewrite Hreqs in Hfol, Hfin.
    apply follows_snoc in Hfol. destruct Hfol as [Hfol Hw]. cbn [fst] in Hw.
    rewrite finalWatermark_snoc in Hfin. cbn [snd nextWatermark] in Hfin.
    assert (Hsettle :
              Interval.requests (Interval.settle (List.length earlier) answer t)
              = (earlier ++ [(w, Some answer)])%list).
    { unfold Interval.settle. cbn [Interval.requests].
      rewrite Hreqs, nth_middle, replace_last. reflexivity. }
    assert (Hfol' : follows wm (earlier ++ [(w, Some answer)])).
    { apply follows_snoc. split; [ exact Hfol | exact Hw ]. }
    assert (Hcatch : forall error,
               (answer = Thrown error
                \/ isExpiredToken error = false) ->
               let t1 :=
                 Interval.catchBlock red (List.length settled) error
                   (Interval.settle (List.length earlier) answer t) in
               follows wm (Interval.requests t1)
               /\ (Interval.ended t1 = None ->
                   finalWatermark wm (Interval.requests t1)
                   = startTime (Interval.closure t1)
                   /\ lastUnderWay t1)).
    { intros error Hcase t1. subst t1. unfold Interval.catchBlock.
      destruct (isExpiredToken error) eqn:Hexp.
      - destruct Hcase as [-> | Hcase]; [ | discriminate Hcase ].
        cbn [Interval.moveOn Interval.requests Interval.closure
             Interval.ended Interval.activations Interval.settle].
        rewrite Hreqs, nth_middle, replace_last. cbn [fst].
        split; [ exact Hfol' | ]. intros _. split.
        + rewrite finalWatermark_snoc. exact Hfin.
        + exists settled. split; [ exact Hsettled | ].
        cbn [Interval.moveOn Interval.sendRequest Interval.settle
             Interval.activations Interval.requests Interval.closure].
          right. right. left. rewrite Hacts. apply replace_last.
      - cbn [Interval.reject Interval.requests Interval.ended
             Interval.settle].
        rewrite Hreqs, nth_middle, replace_last. cbn [fst].
        split; [ exact Hfol' | discriminate ]. }
    destruct answer as [events | error].
    + destruct (processEvents green yellow events
                  (Interval.closure
                     (Interval.settle (List.length earlier) (Ok events) t)))
        as [st' | error] eqn:Hproc.
      * injection Hstep as <-.
        cbn [Interval.moveOn Interval.requests Interval.closure
             Interval.ended Interval.activations].
        rewrite Hsettle. split; [ exact Hfol' | ]. intros _. split.
        -- rewrite finalWatermark_snoc. cbn [snd].
           rewrite (processEvents_watermark green yellow _ _ _ Hproc).
           cbn [Interval.settle Interval.closure].
           rewrite <- Hfin. reflexivity.
        -- exists (settled ++ [Interval.Settled])%list.
           split; [ exact (settled_snoc _ Hsettled) | ].
           cbn [Interval.moveOn Interval.sendRequest Interval.settle
                Interval.activations Interval.requests Interval.closure].
           left. cbn [Interval.settle Interval.activations].
           rewrite Hacts. apply replace_last.
      * injection Hstep as <-. apply Hcatch. right.
        exact (processEvents_error green yellow _ _ _ Hproc).
    + injection Hstep as <-. apply Hcatch. left. reflexivity.
  - (* the prompt settles *)
    destruct (List.nth_error (Interval.activations t) i) as [stage | ] eqn:Hnth;
      [ | discriminate Hstep ].
    destruct stage as [request | | c | ]; try discriminate Hstep.
    assert (Hlast : Interval.activations t
                    = (settled ++ [Interval.AwaitsCredentials])%list
                    /\ i = List.length settled).
    { destruct Hshape as [H | [[earlier [w [H Hreq]]] | [H | [c H]]]];
        rewrite H in Hnth.
      - pose proof (settled_nth_error _ _ _ Hsettled Hnth) as Hs.
        discriminate Hs.
      - destruct (under_way_is_last _ _ _ _ Hsettled Hnth) as [_ Hs];
          [ discriminate | discriminate Hs ].
      - destruct (under_way_is_last _ _ _ _ Hsettled Hnth) as [Hi _];
          [ discriminate | ]. auto.
      - destruct (under_way_is_last _ _ _ _ Hsettled Hnth) as [_ Hs];
          [ discriminate | discriminate Hs ]. }
    destruct Hlast as [Hacts ->].
    destruct answers as [answers | error]; injection Hstep as <-.
    + cbn [Interval.moveOn Interval.requests Interval.closure
           Interval.ended Interval.activations].
      split; [ exact Hfol | ]. intros _. split; [ exact Hfin | ].
      exists settled. split; [ exact Hsettled | ].
        cbn [Interval.moveOn Interval.sendRequest Interval.settle
             Interval.activations Interval.requests Interval.closure].
      right. right. right. eexists. rewrite Hacts. apply replace_last.
    + cbn [Interval.reject Interval.requests Interval.ended].
      split; [ exact Hfol | discriminate ].
  - (* the write settles *)
    destruct (List.nth_error (Interval.activations t) i) as [stage | ] eqn:Hnth;
      [ | discriminate Hstep ].
    destruct stage as [request | | c | ]; try discriminate Hstep.
    assert (Hlast : Interval.activations t
                    = (settled ++ [Interval.AwaitsWrite c])%list
                    /\ i = List.length settled).
    { destruct Hshape as [H | [[earlier [w [H Hreq]]] | [H | [c' H]]]];
        rewrite H in Hnth.
      - pose proof (settled_nth_error _ _ _ Hsettled Hnth) as Hs.
        discriminate Hs.
      - destruct (under_way_is_last _ _ _ _ Hsettled Hnth) as [_ Hs];
          [ discriminate | discriminate Hs ].
      - destruct (under_way_is_last _ _ _ _ Hsettled Hnth) as [_ Hs];
          [ discriminate | discriminate Hs ].
      - destruct (under_way_is_last _ _ _ _ Hsettled Hnth) as [Hi Hs];
          [ discriminate | ]. injection Hs as ->. auto. }
    destruct Hlast as [Hacts ->].
    destruct failure as [error | ]; injection Hstep as <-.
    + cbn [Interval.reject Interval.requests Interval.ended].
      split; [ exact Hfol | discriminate ].
    + cbn [Interval.sendRequest Interval.moveOn Interval.requests
           Interval.closure Interval.ended Interval.activations
           refreshCredentials startTime].
      split; [ apply follows_snoc; split; [ exact Hfol | symmetry; exact Hfin ] | ].
      intros _. split.
      * rewrite finalWatermark_snoc. exact Hfin.
      * exists settled. split; [ exact Hsettled | ].
        cbn [Interval.moveOn Interval.sendRequest Interval.settle
             Interval.activations Interval.requests Interval.closure].
        right. left.
        exists (Interval.requests t), (startTime (Interval.closure t)).
        rewrite Hacts, replace_last. split; reflexivity.
Qed.

Lemma run_without_overlap
    (wm : Z) (schedule : list Interval.Event) (t t' : Interval.Tail) :
  follows wm (Interval.requests t) ->
  (Interval.ended t = None ->
   finalWatermark wm (Interval.requests t) = startTime (Interval.closure t)
   /\ lastUnderWay t) ->
  Interval.run red green yellow region logGroup logStream schedule t
  = Some t' ->
  serial red green yellow region logGroup logStream schedule t = true ->
  follows wm (Interval.requests t')
  /\ (Interval.ended t' = None ->
      finalWatermark wm (Interval.requests t') = startTime (Interval.closure t')
      /\ lastUnderWay t').
Proof.
  revert t. induction schedule as [ | ev rest IH ]; intros t Hfol Hlive.
  - cbn. intros H _. injection H as <-. auto.
  - cbn [Interval.run serial].
    destruct (Interval.step red green yellow region logGroup logStream ev t)
      as [t1 | ] eqn:Hstep; [ | discriminate ].
    intros Hrun Hserial.
    assert (Hidle : ev = Interval.TimerFires -> idle t = true).
    { intros ->. destruct (idle t); [ reflexivity | discriminate Hserial ]. }
    destruct (step_without_overlap wm ev t t1 Hfol Hlive Hstep Hidle)
      as [Hfol1 Hlive1].
    apply (IH t1 Hfol1 Hlive1 Hrun).
    destruct (match ev with Interval.TimerFires => idle t | _ => true end);
      [ exact Hserial | discriminate Hserial ].
Qed.

(** C8, in the form that holds of the code.  In a run of the timer in
    which no fetch starts while another is under way, retries included:
    if every event an answer returned is at or after the watermark its
    request sent, the watermarks sent never decrease, none is below the
    starting watermark and, while the process lives, none is above the
    watermark in [startTime]; the request that follows an empty answer
    or a request that failed on the token sends the same watermark
    again; and a run whose last answer was empty ends with the watermark
    it sent last.  In every run, overlapping or not, an answer without
    events leaves [startTime] as it was. *)
Theorem watermark_never_rewinds_without_overlap
    (schedule : list Interval.Event) (st : TailState) (t' : Interval.Tail) :
  Interval.run red green yellow region logGroup logStream schedule
    (Interval.start st)
  = Some t' ->
  serial red green yellow region logGroup logStream schedule
    (Interval.start st)
  = true ->
  (Forall answerRespectsWatermark (Interval.requests t') ->
   StronglySorted Z.le (List.map fst (Interval.requests t'))
   /\ Forall (fun x => startTime st <= fst x) (Interval.requests t')
   /\ (Interval.ended t' = None ->
       startTime st <= startTime (Interval.closure t')
       /\ Forall (fun x => fst x <= startTime (Interval.closure t'))
                 (Interval.requests t')))
  /\ (forall pre x y post,
        Interval.requests t' = (pre ++ x :: y :: post)%list ->
        snd x = Some (Ok []) \/ failedOnToken x ->
        fst y = fst x)
  /\ (forall pre x,
        Interval.requests t' = (pre ++ [x])%list ->
        snd x = Some (Ok []) ->
        Interval.ended t' = None ->
        startTime (Interval.closure t') = fst x)
  /\ (forall (t t1 : Interval.Tail) (activation : nat),
        Interval.step red green yellow region logGroup logStream
          (Interval.RequestSettles activation (Ok [])) t
        = Some t1 ->
        startTime (Interval.closure t1) = startTime (Interval.closure t)).
Proof.
  intros Hrun Hserial.
  assert (Hstart : Interval.ended (Interval.start st) = None ->
            finalWatermark (startTime st)
              (Interval.requests (Interval.start st))
            = startTime (Interval.closure (Interval.start st))
            /\ lastUnderWay (Interval.start st)).
  { intros _. split; [ reflexivity | ].
    exists []. split; [ constructor | left; reflexivity ]. }
  destruct (run_without_overlap (startTime st) schedule (Interval.start st)
              t' I Hstart Hrun Hserial) as [Hfol Hlive].
  split; [ | split; [ | split ] ].
  - intros Hall.
    destruct (follows_monotone _ _ Hfol Hall) as [Hsorted [Hlow [Hend Hhigh]]].
    split; [ exact Hsorted | ]. split; [ exact Hlow | ].
    intros Hended. destruct (Hlive Hended) as [Hfin _].
    rewrite <- Hfin. split; assumption.
  - intros pre x y post Hxs Hx.
    rewrite (follows_adjacent _ _ _ _ _ _ Hfol Hxs).
    destruct Hx as [-> | [e [-> _]]]; reflexivity.
  - intros pre x Hxs Hx Hended. destruct (Hlive Hended) as [Hfin _].
    rewrite <- Hfin, (follows_last _ _ _ _ Hfol Hxs), Hx. reflexivity.
  - intros t t1 activation. unfold Interval.step.
    destruct (Interval.ended t); [ discriminate | ].
    destruct (List.nth_error (Interval.activations t) activation)
      as [[request | | c | ] | ]; try discriminate.
    cbn [processEvents]. intros H. injection H as <-. reflexivity.
Qed.

End WatermarkRuns.

(** Three ticks, none started before the one before it has settled, the
    second retried after a token refresh: the watermarks sent are 0, 6,
    6, 6. *)
Lemma watermark_never_rewinds_without_overlap_witness :
  exists t',
    Interval.run Sample.plain Sample.plain Sample.plain
      "eu-west-1" "/a/b/c" "stream-1" Cases.serialSchedule
      (Interval.start Sample.zeroState)
    = Some t'
    /\ List.map fst (Interval.requests t') = [0; 6; 6; 6]
    /\ StronglySorted Z.le (List.map fst (Interval.requests t')).
Proof.
  eexists. split; [ vm_compute; reflexivity | ].
  split; [ reflexivity | ].
  refine (proj1 (proj1 (watermark_never_rewinds_without_overlap
                          Sample.plain Sample.plain Sample.plain
                          "eu-west-1" "/a/b/c" "stream-1"
                          Cases.serialSchedule Sample.zeroState _ _ _) _)).
  - vm_compute. reflexivity.
  - vm_compute. reflexivity.
  - cbn [Interval.requests]. repeat (constructor; cbn); discriminate.
Defined.

(** C8 as the specification words it does not hold.  The timer does not
    wait for a fetch to settle: with two fetches in flight whose answers
    arrive in the opposite order, every answer respecting the watermark
    of its request and no token refreshed, the watermarks sent are 0, 0,
    21 and then 11. *)
Lemma watermark_rewinds_when_fetches_overlap :
  exists t',
    Interval.run Sample.plain Sample.plain Sample.plain
      "eu-west-1" "/a/b/c" "stream-1" Cases.overlappingSchedule
      (Interval.start Sample.zeroState)
    = Some t'
    /\ Forall Trace.answerRespectsWatermark (Interval.requests t')
    /\ List.map fst (Interval.requests t') = [0; 0; 21; 11]
    /\ ~ StronglySorted Z.le (List.map fst (Interval.requests t')).
Proof.
  eexists. split; [ vm_compute; reflexivity | ].
  cbn [Interval.requests List.map fst]. split; [ | split ].
  - repeat (constructor; cbn); discriminate.
  - reflexivity.
  - intros H. inversion H as [ | ? ? H1 _ ]; subst.
    inversion H1 as [ | ? ? H2 _ ]; subst.
    inversion H2 as [ | ? ? _ H3 ]; subst.
    inversion H3 as [ | ? ? H4 _ ]; subst. lia.
Qed.

(* ================================================================= *)
(** ** The keypress listener *)

Section Keypress.
Import Cli Trace.
Variables red green yellow blue : string -> string.

Lemma eventLoop_other_keys
    (events : list LoopEvent) (fuel : nat)
    (region logGroup logStream : string) (l : Loop) (w : World) :
  eventLoop red green yellow
    (List.filter (fun ev => negb (isOtherKey ev)) events)
    fuel region logGroup logStream l w
  = eventLoop red green yellow events fuel region logGroup logStream l w.
Proof.
  revert l w. induction events as [ | ev rest IH ]; intros l w.
  - reflexivity.
  - destruct ev as [ | key ]; cbn [List.filter isOtherKey negb eventLoop].
    + destruct (intervalArmed (session l)); [ | apply IH ].
      unfold bind.
      destruct (fetchLogs red green yellow fuel region logGroup logStream
                  (tail l) w) as [[st' | e | | ] w1]; try reflexivity.
      apply IH.
    + unfold onData, toString.
      destruct (String.eqb key "q") eqn:Hq; cbn [negb eventLoop].
      * unfold onData, toString. rewrite Hq. apply IH.
      * destruct l. apply IH.
Qed.

Lemma eventLoop_stopped
    (events : list LoopEvent) (fuel : nat)
    (region logGroup logStream : string) (l : Loop) (w : World) :
  intervalArmed (session l) = false ->
  Forall (fun ev => ev = Tick) events ->
  eventLoop red green yellow events fuel region logGroup logStream l w
  = (Returned l, w).
Proof.
  intros Hstopped Hticks. induction Hticks as [ | ev rest -> _ IH ].
  - reflexivity.
  - cbn [eventLoop]. rewrite Hstopped. exact IH.
Qed.

(** C10.  The listener clears the timer and leaves raw mode when the
    chunk read is the single character q, and on any other chunk it
    returns the session as it was; from the session [streamLogs] sets up,
    timer cleared and raw mode off hold after the listener if and only if
    the chunk was q.  Hence chunks other than q can be deleted from any
    schedule of ticks and chunks without changing what the tail does,
    and once q has cleared the timer, ticks fetch nothing. *)
Theorem keypress_stops_tail_only_on_q
    (key : string) (s : Session) (events : list LoopEvent) (fuel : nat)
    (region logGroup logStream : string) (l : Loop) (w : World) :
  (key = "q" ->
   onData green key s
   = mkSession false false true
       (console s ++ [green "Stopped streaming logs."])
       (S (backPrompts s)))
  /\ (key <> "q" -> onData green key s = s)
  /\ (intervalArmed (onData green key (startSession blue)) = false
      /\ rawMode (onData green key (startSession blue)) = false
      <-> key = "q")
  /\ eventLoop red green yellow
       (List.filter (fun ev => negb (isOtherKey ev)) events)
       fuel region logGroup logStream l w
     = eventLoop red green yellow events fuel region logGroup logStream l w
  /\ (Forall (fun ev => ev = Tick) events ->
      eventLoop red green yellow events fuel region logGroup logStream
        (mkLoop (tail l) (onData green "q" (session l))) w
      = (Returned (mkLoop (tail l) (onData green "q" (session l))), w)).
Proof.
  unfold onData at 1 2 3 4, toString.
  destruct (String.eqb_spec key "q") as [-> | Hne].
  - repeat split; try reflexivity; try congruence.
    + apply eventLoop_other_keys.
    + intros Hticks. apply eventLoop_stopped; [ reflexivity | exact Hticks ].
  - repeat split; try congruence.
    + intros [H _]. discriminate H.
    + apply eventLoop_other_keys.
    + intros Hticks. apply eventLoop_stopped; [ reflexivity | exact Hticks ].
Qed.

End Keypress.

(* ================================================================= *)
(** ** The date filter *)

Section DateFilterFacts.
Import Groups.
Variable localTZA : Z -> Z.
Variable nowMs : Z.

Lemma strictEq_true (a b : option Z) :
  JsDate.strictEq a b = true <-> exists x, a = Some x /\ b = Some x.
Proof.
  destruct a as [x | ], b as [y | ]; cbn; split.
  - intros H. apply Z.eqb_eq in H. subst. eauto.
  - intros [z [Ha Hb]]. injection Ha as ->. injection Hb as ->.
    apply Z.eqb_refl.
  - discriminate.
  - intros [z [_ H]]. discriminate.
  - discriminate.
  - intros [z [H _]]. discriminate.
  - discriminate.
  - intros [z [H _]]. discriminate.
Qed.

(** A getter of the creation date equals the getter of now exactly when
    the creation time is a date and the calendar fields agree. *)
Lemma getter_matches
    (field : Z -> Z) (group : LogGroup) :
  JsDate.strictEq
    (option_map (fun t => field (JsDate.LocalTime localTZA t))
                (JsDate.newDate (creationTime group)))
    (option_map (fun t => field (JsDate.LocalTime localTZA t)) (Some nowMs))
  = true
  <-> hasDate group
      /\ field (JsDate.LocalTime localTZA (creationTime group))
         = field (JsDate.LocalTime localTZA nowMs).
Proof.
  unfold hasDate, JsDate.newDate.
  destruct (Z.leb_spec (Z.abs (creationTime group)) JsDate.maxTime)
    as [Hle | Hgt]; cbn [option_map JsDate.strictEq].
  - rewrite Z.eqb_eq. tauto.
  - split; [ discriminate | ]. intros [H _]. lia.
Qed.

Lemma keeps_year (group : LogGroup) :
  dateFilterKeeps localTZA nowMs "year" group = true
  <-> sameYear localTZA nowMs group.
Proof.
  unfold dateFilterKeeps, sameYear, localYear. cbn [String.eqb Ascii.eqb Bool.eqb].
  unfold JsDate.getFullYear. apply getter_matches.
Qed.

Lemma keeps_month (group : LogGroup) :
  dateFilterKeeps localTZA nowMs "month" group = true
  <-> sameMonth localTZA nowMs group.
Proof.
  unfold dateFilterKeeps, sameMonth, sameYear, localYear, localMonth.
  cbn [String.eqb Ascii.eqb Bool.eqb].
  unfold JsDate.getFullYear, JsDate.getMonth.
  rewrite andb_true_iff, !getter_matches. tauto.
Qed.

Lemma keeps_day (group : LogGroup) :
  dateFilterKeeps localTZA nowMs "day" group = true
  <-> sameDay localTZA nowMs group.
Proof.
  unfold dateFilterKeeps, sameDay, sameMonth, sameYear,
    localYear, localMonth, localDayOfMonth.
  cbn [String.eqb Ascii.eqb Bool.eqb].
  unfold JsDate.getFullYear, JsDate.getMonth, JsDate.getDate.
  rewrite !andb_true_iff, !getter_matches. tauto.
Qed.

(** C9.  For every list of entries, time zone and current time: "all"
    returns the list as it is, and "year", "month" and "day" keep, in
    order, exactly the entries whose creation date has the local year,
    the local year and month, and the local year, month and day of the
    month of the current time. *)
Theorem date_filter_keeps_matching_entries (logGroups : list LogGroup) :
  filterLogGroupsByDate localTZA nowMs logGroups "all" = logGroups
  /\ keepsExactly (sameYear localTZA nowMs) logGroups
       (filterLogGroupsByDate localTZA nowMs logGroups "year")
  /\ keepsExactly (sameMonth localTZA nowMs) logGroups
       (filterLogGroupsByDate localTZA nowMs logGroups "month")
  /\ keepsExactly (sameDay localTZA nowMs) logGroups
       (filterLogGroupsByDate localTZA nowMs logGroups "day").
Proof.
  split; [ | split; [ | split ] ].
  - unfold filterLogGroupsByDate.
    induction logGroups as [ | g rest IH ]; [ reflexivity | ].
    cbn [List.filter]. unfold dateFilterKeeps at 1.
    cbn [String.eqb Ascii.eqb Bool.eqb]. f_equal. exact IH.
  - exists (dateFilterKeeps localTZA nowMs "year").
    split; [ exact keeps_year | reflexivity ].
  - exists (dateFilterKeeps localTZA nowMs "month").
    split; [ exact keeps_month | reflexivity ].
  - exists (dateFilterKeeps localTZA nowMs "day").
    split; [ exact keeps_day | reflexivity ].
Qed.

End DateFilterFacts.

(* ================================================================= *)
(** ** Credential validation *)

Section CredentialFacts.
Import Creds.

Lemma trimEnd_empty (s : string) :
  JsString.trimEnd s = EmptyString <-> allWhite s = true.
Proof.
  unfold allWhite. induction s as [ | a s IH ]; cbn.
  - tauto.
  - destruct (JsString.trimEnd s) eqn:Hend.
    + destruct (JsString.isWhiteSpace a); cbn.
      * tauto.
      * split; discriminate.
    + rewrite andb_true_iff. split; [ discriminate | ].
      intros [_ H]. apply IH in H. discriminate.
Qed.

Lemma trimStart_allWhite (s : string) :
  allWhite (JsString.trimStart s) = allWhite s.
Proof.
  unfold allWhite. induction s as [ | a s IH ]; cbn; [ reflexivity | ].
  destruct (JsString.isWhiteSpace a) eqn:Ha; cbn.
  - exact IH.
  - rewrite Ha. reflexivity.
Qed.

Lemma nonBlank_allWhite (s : string) :
  nonBlank s <-> allWhite s = false.
Proof.
  unfold nonBlank, allWhite. split.
  - intros [c [Hin Hc]].
    destruct (forallb JsString.isWhiteSpace (list_ascii_of_string s)) eqn:Hall;
      [ | reflexivity ].
    rewrite forallb_forall in Hall. rewrite (Hall _ Hin) in Hc. discriminate.
  - induction (list_ascii_of_string s) as [ | a l IH ]; cbn; [ discriminate | ].
    destruct (JsString.isWhiteSpace a) eqn:Ha; cbn.
    + intros H. destruct (IH H) as [c [Hin Hc]]. exists c. auto.
    + intros _. exists a. auto.
Qed.

(** [s.trim() !== ''] says that [s] is not blank. *)
Lemma trim_nonBlank (s : string) :
  negb (String.eqb (JsString.trim s) EmptyString) = true <-> nonBlank s.
Proof.
  rewrite nonBlank_allWhite, <- trimStart_allWhite, negb_true_iff.
  unfold JsString.trim.
  destruct (String.eqb_spec (JsString.trimEnd (JsString.trimStart s))
                            EmptyString) as [Heq | Hne].
  - apply trimEnd_empty in Heq. rewrite Heq. split; discriminate.
  - destruct (allWhite (JsString.trimStart s)) eqn:Hall.
    + apply trimEnd_empty in Hall. contradiction.
    + tauto.
Qed.

Lemma truthy_jsAnd (a b : jsval) :
  truthy (jsAnd a b) = truthy a && truthy b.
Proof. unfold jsAnd. destruct (truthy a) eqn:Ha; [ reflexivity | exact Ha ]. Qed.

Lemma nonBlank_nonEmpty (s : string) : nonBlank s -> s <> EmptyString.
Proof. intros [c [Hin _]] ->. exact Hin. Qed.

Lemma typeof_string (v : jsval) :
  String.eqb (typeof v) "string" = true <-> exists s, v = JStr s.
Proof.
  destruct v; cbn; split; try discriminate;
    try (intros [s0 H]; discriminate).
  - eauto.
  - reflexivity.
Qed.

Lemma get_string_truthy (v : jsval) (key s : string) :
  get v key = JStr s -> truthy v = true.
Proof. destruct v; cbn; try discriminate; reflexivity. Qed.

(** C6.  The value [validateCredentials] returns is truthy if and only
    if [accessKeyId] and [secretAccessKey] are both present, both
    strings, and both non-blank; so a value that lacks a non-blank
    [accessKeyId] or a non-blank [secretAccessKey] is rejected. *)
Theorem validateCredentials_accepts_iff_both_keys_non_blank
    (credentials : jsval) :
  (truthy (validateCredentials credentials) = true
   <-> nonBlankString (get credentials "accessKeyId")
       /\ nonBlankString (get credentials "secretAccessKey"))
  /\ (~ nonBlankString (get credentials "accessKeyId")
      \/ ~ nonBlankString (get credentials "secretAccessKey") ->
      truthy (validateCredentials credentials) = false).
Proof.
  assert (Hiff : truthy (validateCredentials credentials) = true
                 <-> nonBlankString (get credentials "accessKeyId")
                     /\ nonBlankString (get credentials "secretAccessKey")).
  { unfold validateCredentials, nonBlankString.
    rewrite !truthy_jsAnd, !andb_true_iff. cbn [truthy].
    rewrite !typeof_string. split.
    - intros [[[[[[_ _] _] [a Ha]] [s Hs]] Hta] Hts].
      rewrite Ha in Hta. rewrite Hs in Hts. cbn [truthy] in Hta, Hts.
      apply trim_nonBlank in Hta. apply trim_nonBlank in Hts.
      split; eexists; split; eauto.
    - intros [[a [Ha Hna]] [s [Hs Hns]]].
      rewrite Ha, Hs. cbn [truthy].
      rewrite !trim_nonBlank, !negb_true_iff, !String.eqb_neq.
      repeat split; eauto using get_string_truthy, nonBlank_nonEmpty. }
  split; [ exact Hiff | ].
  intros Hlack.
  destruct (truthy (validateCredentials credentials)) eqn:Hv; [ | reflexivity ].
  destruct Hiff as [Hacc _]. destruct (Hacc eq_refl) as [Ha Hs].
  destruct Hlack as [H | H]; contradiction.
Qed.

End CredentialFacts.

(* ================================================================= *)
(** ** The next segments *)

(** C3, in the form that holds of the code.  On the entries /a/b/c,
    /a/b/d and /a/e with [mainLogGroup] a, the distinct next segments are
    b/ and e when the prefix is the single slash, the prefix the
    navigator reaches after its first menu; with the empty prefix of the
    first call the only segment is the slash itself. *)
Theorem next_segments_of_example :
  Groups.subGroups Sample.exampleGroups "a" "/" = ["b/"; "e"]
  /\ Groups.subGroups Sample.exampleGroups "a" EmptyString = ["/"].
Proof. split; vm_compute; reflexivity. Qed.

(** C3 as the specification words it does not hold: with the empty
    prefix the segments are not b/ and e. *)
Lemma next_segments_with_empty_prefix :
  ~ (forall segment,
       In segment (Groups.subGroups Sample.exampleGroups "a" EmptyString)
       <-> segment = "b/" \/ segment = "e").
Proof.
  intros H. destruct (proj2 (H "e") (or_intror eq_refl)) as [Habs | []].
  discriminate Habs.
Qed.

(* ================================================================= *)
(** ** The navigator on an empty listing *)

Section NavigatorFacts.
Import Groups Cli Trace.
Variables red green yellow blue : string -> string.
Variable localTZA : Z -> Z.

(** C5.  Whatever the region, the credentials and the place in the
    hierarchy: when the listing of log groups comes back empty,
    [getLogGroup] throws the AWSError that reports "No log groups found."
    (under the prefix its [catch] block adds), and between the call and
    the throw it shows no list prompt and takes no answer from the
    operator. *)
Theorem empty_listing_fails_before_any_menu
    (fuel : nat) (region : string) (credentials : Credentials)
    (mainLogGroup prefix : string) (w : World)
    (pages : list (list LogGroup))
    (later : list (result (list (list LogGroup)))) :
  logGroupReplies w = Ok pages :: later ->
  List.concat pages = [] ->
  exists w' new,
    getLogGroup red localTZA (S fuel) region credentials mainLogGroup prefix w
    = (Threw (AWSError
                "An error occurred while fetching log groups: No log groups found."),
       w')
    /\ output w' = (output w ++ new)%list
    /\ new = [ConsoleLog "Fetching log groups...";
              SpinnerStart "Fetching log groups...";
              DescribeLogGroups region credentials;
              SpinnerStop; SpinnerStop]
    /\ List.existsb isListPrompt new = false
    /\ menuReplies w' = menuReplies w
    /\ credentialReplies w' = credentialReplies w.
Proof.
  intros Hreply Hempty.
  cbn [getLogGroup]. unfold bind at 1. unfold getLogGroupBody.
  unfold bind at 1. unfold emit at 1. unfold bind at 1. unfold emit at 1.
  unfold tryCatch. unfold bind at 1. unfold fetchAllLogGroups.
  cbn [logGroupReplies output logStreamReplies logEventReplies menuReplies
       credentialReplies now].
  rewrite Hreply, Hempty.
  unfold bind at 1. unfold emit at 1. cbn [List.length Nat.eqb].
  unfold throw at 1. unfold bind at 1. unfold emit at 1.
  cbn [isExpiredToken AWSError Err.name Err.message String.eqb Ascii.eqb
       Bool.eqb orb]. unfold throw.
  eexists. eexists. split; [ reflexivity | ].
  cbn [output menuReplies credentialReplies].
  rewrite <- !app_assoc. cbn [app].
  repeat split.
Qed.

End NavigatorFacts.

(** Two empty pages, with an operator ready to pick the first entry of a
    menu that is never shown. *)
Lemma empty_listing_fails_before_any_menu_witness :
  exists w' new,
    Cli.getLogGroup Sample.plain Sample.utc 1 "eu-west-1" Sample.credentials
      "a" "/" Sample.emptyListingWorld
    = (Cli.Threw
         (AWSError
            "An error occurred while fetching log groups: No log groups found."),
       w')
    /\ Cli.output w' = (Cli.output Sample.emptyListingWorld ++ new)%list
    /\ new = [Cli.ConsoleLog "Fetching log groups...";
              Cli.SpinnerStart "Fetching log groups...";
              Cli.DescribeLogGroups "eu-west-1" Sample.credentials;
              Cli.SpinnerStop; Cli.SpinnerStop]
    /\ List.existsb Trace.isListPrompt new = false
    /\ Cli.menuReplies w' = Cli.menuReplies Sample.emptyListingWorld
    /\ Cli.credentialReplies w' = Cli.credentialReplies Sample.emptyListingWorld.
Proof.
  apply (empty_listing_fails_before_any_menu
           Sample.plain Sample.utc 0 "eu-west-1" Sample.credentials "a" "/"
           Sample.emptyListingWorld [[]; []] []).
  - reflexivity.
  - reflexivity.
Defined.

(* ================================================================= *)
(** ** "Back" in the stream menu *)

Section BackFacts.
Import Cli.
Variable red : string -> string.
Variable localTZA : Z -> Z.

(** On "Back", what [getLogStream] yields is what [getLogGroup] yields
    when called with the truncated path as [mainLogGroup] and the empty
    prefix; no stream is selected afterwards. *)
Lemma getLogStream_back
    (fuel : nat) (region logGroup : string) (credentials : Credentials)
    (thirdArgument : string) (w w1 : World) :
  getLogStreamBody red region logGroup credentials w
  = (Returned (StreamBack thirdArgument), w1) ->
  getLogStream red localTZA (S fuel) region logGroup credentials w
  = getLogGroup red localTZA fuel region credentials thirdArgument
      EmptyString w1.
Proof.
  intros Hbody. cbn [getLogStream]. unfold bind. rewrite Hbody. reflexivity.
Qed.

End BackFacts.

(** C4 on the code.  The operator picks "Back" in the stream menu of
    /a/b/c.  The navigator is entered with /a/b/ as [mainLogGroup], so it
    looks for names under //a/b/.  With an ordinary listing nothing
    matches: the date filter is asked and then a menu with no choices is
    shown.  With a listing that holds //a/b/x the operator picks that
    group and [getLogStream] returns its name, a log group path.  In both
    runs streams are listed once, for /a/b/c, and the second listing the
    world holds ready is never asked for. *)
Theorem back_in_stream_menu_returns_the_navigator_result :
  let ordinary :=
    Cli.getLogStream Sample.plain Sample.utc 5 "eu-west-1" "/a/b/c"
      Sample.credentials (Sample.backWorld Sample.ordinaryGroups) in
  let doubleSlash :=
    Cli.getLogStream Sample.plain Sample.utc 5 "eu-west-1" "/a/b/c"
      Sample.credentials (Sample.backWorld Sample.doubleSlashGroups) in
  Trace.returned ordinary = None
  /\ Trace.menus (Cli.output (snd ordinary))
     = [("Select Log Stream:", ["stream-1"; "back"]);
        ("Filter log groups by date:", ["all"; "year"; "month"; "day"]);
        ("Select Log Group:", [])]
  /\ Trace.streamListings (Cli.output (snd ordinary)) = ["/a/b/c"]
  /\ Trace.returned doubleSlash = Some "//a/b/x"
  /\ Trace.menus (Cli.output (snd doubleSlash))
     = [("Select Log Stream:", ["stream-1"; "back"]);
        ("Filter log groups by date:", ["all"; "year"; "month"; "day"]);
        ("Select Log Group:", ["//a/b/x"])]
  /\ Trace.streamListings (Cli.output (snd doubleSlash)) = ["/a/b/c"]
  /\ List.length (Cli.logStreamReplies (snd doubleSlash)) = 1%nat.
Proof. repeat split; vm_compute; reflexivity. Qed.

(** An access key of three spaces is rejected. *)
Lemma validateCredentials_accepts_iff_both_keys_non_blank_witness :
  Creds.truthy
    (Creds.validateCredentials
       (Creds.JObj [("accessKeyId", Creds.JStr "   ");
                    ("secretAccessKey", Creds.JStr "s3cr3t")]))
  = false.
Proof.
  apply (proj2 (validateCredentials_accepts_iff_both_keys_non_blank
                  (Creds.JObj [("accessKeyId", Creds.JStr "   ");
                               ("secretAccessKey", Creds.JStr "s3cr3t")]))).
  left. intros [s [Hs [c [Hin Hc]]]].
  injection Hs as <-. cbn in Hin.
  destruct Hin as [<- | [<- | [<- | []]]]; discriminate Hc.
Defined.

(** The keys q and x on the session [streamLogs] sets up. *)
Lemma keypress_stops_tail_only_on_q_witness :
  Cli.onData Sample.plain "q" (Cli.startSession Sample.plain)
  = Cli.mkSession false false true
      (Cli.console (Cli.startSession Sample.plain)
       ++ ["Stopped streaming logs."]) 1
  /\ Cli.onData Sample.plain "x" (Cli.startSession Sample.plain)
     = Cli.startSession Sample.plain.
Proof.
  pose proof (keypress_stops_tail_only_on_q
                Sample.plain Sample.plain Sample.plain Sample.plain
                "q" (Cli.startSession Sample.plain) [] 0
                "eu-west-1" "/a/b/c" "stream-1"
                (Cli.mkLoop Sample.tailStart (Cli.startSession Sample.plain))
                (Sample.tailWorld [])) as Hq.
  pose proof (keypress_stops_tail_only_on_q
                Sample.plain Sample.plain Sample.plain Sample.plain
                "x" (Cli.startSession Sample.plain) [] 0
                "eu-west-1" "/a/b/c" "stream-1"
                (Cli.mkLoop Sample.tailStart (Cli.startSession Sample.plain))
                (Sample.tailWorld [])) as Hx.
  split.
  - exact (proj1 Hq eq_refl).
  - apply (proj1 (proj2 Hx)). discriminate.
Defined.

(* ================================================================= *)
(** * Further properties of the code *)

(* ================================================================= *)
(** ** The two sorts *)

Section SortFacts.
Import Groups Cli.

Lemma insertGroup_perm (g : LogGroup) (sorted : list LogGroup) :
  Permutation (g :: sorted) (insertGroup g sorted).
Proof.
  induction sorted as [ | h rest IH ]; cbn [insertGroup].
  - apply Permutation_refl.
  - destruct (creationTime h - creationTime g <=? 0).
    + apply Permutation_refl.
    + eapply perm_trans; [ apply perm_swap | ]. apply perm_skip, IH.
Qed.

Lemma insertGroup_sorted (g : LogGroup) (sorted : list LogGroup) :
  StronglySorted (fun a b => creationTime b <= creationTime a) sorted ->
  StronglySorted (fun a b => creationTime b <= creationTime a)
                 (insertGroup g sorted).
Proof.
  induction 1 as [ | h rest Hrest IH Hh ]; cbn [insertGroup].
  - repeat constructor.
  - destruct (Z.leb_spec (creationTime h - creationTime g) 0) as [Hle | Hgt].
    + constructor; [ constructor; assumption | ].
      constructor; [ lia | ].
      eapply Forall_impl; [ | exact Hh ]. cbn. intros. lia.
    + constructor; [ exact IH | ].
      eapply Permutation_Forall; [ apply insertGroup_perm | ].
      constructor; [ lia | exact Hh ].
Qed.

Lemma insertGroup_stable (t : Z) (g : LogGroup) (sorted : list LogGroup) :
  List.filter (fun x => creationTime x =? t) (insertGroup g sorted)
  = List.filter (fun x => creationTime x =? t) (g :: sorted).
Proof.
  induction sorted as [ | h rest IH ]; cbn [insertGroup]; [ reflexivity | ].
  destruct (Z.leb_spec (creationTime h - creationTime g) 0) as [Hle | Hgt];
    [ reflexivity | ].
  cbn [List.filter] in *. rewrite IH.
  destruct (Z.eqb_spec (creationTime h) t) as [Hh | Hh];
    destruct (Z.eqb_spec (creationTime g) t) as [Hg | Hg];
    try reflexivity.
  lia.
Qed.

(** The list of log groups offered after the date filter is the
    filtered list rearranged: nothing is lost or repeated, later
    creation times come first, and groups created at the same
    millisecond keep the order the listing gave them. *)
Theorem sortByCreationDesc_sorts (logGroups : list LogGroup) :
  Permutation logGroups (sortByCreationDesc logGroups)
  /\ StronglySorted (fun a b => creationTime b <= creationTime a)
                    (sortByCreationDesc logGroups)
  /\ forall t,
       List.filter (fun x => creationTime x =? t)
                   (sortByCreationDesc logGroups)
       = List.filter (fun x => creationTime x =? t) logGroups.
Proof.
  unfold sortByCreationDesc.
  induction logGroups as [ | g rest [Hperm [Hsorted Hstable]] ];
    cbn [List.fold_right].
  - repeat split; constructor.
  - split; [ | split ].
    + eapply perm_trans; [ apply perm_skip, Hperm | apply insertGroup_perm ].
    + apply insertGroup_sorted, Hsorted.
    + intros t. rewrite insertGroup_stable. cbn [List.filter].
      rewrite Hstable. reflexivity.
Qed.

Lemma insertStream_perm (s : LogStream) (sorted : list LogStream) :
  Permutation (s :: sorted) (insertStream s sorted).
Proof.
  induction sorted as [ | h rest IH ]; cbn [insertStream].
  - apply Permutation_refl.
  - destruct (lastEventOrZero h - lastEventOrZero s <=? 0).
    + apply Permutation_refl.
    + eapply perm_trans; [ apply perm_swap | ]. apply perm_skip, IH.
Qed.

Lemma insertStream_sorted (s : LogStream) (sorted : list LogStream) :
  StronglySorted (fun a b => lastEventOrZero b <= lastEventOrZero a) sorted ->
  StronglySorted (fun a b => lastEventOrZero b <= lastEventOrZero a)
                 (insertStream s sorted).
Proof.
  induction 1 as [ | h rest Hrest IH Hh ]; cbn [insertStream].
  - repeat constructor.
  - destruct (Z.leb_spec (lastEventOrZero h - lastEventOrZero s) 0)
      as [Hle | Hgt].
    + constructor; [ constructor; assumption | ].
      constructor; [ lia | ].
      eapply Forall_impl; [ | exact Hh ]. cbn. intros. lia.
    + constructor; [ exact IH | ].
      eapply Permutation_Forall; [ apply insertStream_perm | ].
      constructor; [ lia | exact Hh ].
Qed.

Lemma sortByLastEventDesc_perm (logStreams : list LogStream) :
  Permutation logStreams (sortByLastEventDesc logStreams).
Proof.
  unfold sortByLastEventDesc.
  induction logStreams as [ | s rest IH ]; cbn [List.fold_right].
  - constructor.
  - eapply perm_trans; [ apply perm_skip, IH | apply insertStream_perm ].
Qed.

Lemma sortByLastEventDesc_sorted (logStreams : list LogStream) :
  StronglySorted (fun a b => lastEventOrZero b <= lastEventOrZero a)
                 (sortByLastEventDesc logStreams).
Proof.
  unfold sortByLastEventDesc.
  induction logStreams as [ | s rest IH ]; cbn [List.fold_right].
  - constructor.
  - apply insertStream_sorted, IH.
Qed.

Lemma StronglySorted_after {A} (R : A -> A -> Prop)
    (before after : list A) (x : A) :
  StronglySorted R (before ++ x :: after) -> Forall (R x) after.
Proof.
  induction before as [ | b before IH ]; cbn [app]; intros H;
    apply StronglySorted_inv in H; destruct H as [Hrest Hx].
  - exact Hx.
  - exact (IH Hrest).
Qed.

(** The stream menu lists every stream of the listing once, most recent
    last event first; and when every recorded last event is after the
    epoch, no stream without events stands before a stream with
    events. *)
Theorem sortByLastEventDesc_sorts (logStreams : list LogStream) :
  Permutation logStreams (sortByLastEventDesc logStreams)
  /\ StronglySorted (fun a b => lastEventOrZero b <= lastEventOrZero a)
                    (sortByLastEventDesc logStreams)
  /\ ((forall s t, In s logStreams -> lastEventTimestamp s = Some t -> 0 < t) ->
      forall before quiet after t,
        sortByLastEventDesc logStreams = (before ++ quiet :: after)%list ->
        lastEventTimestamp quiet = None ->
        Forall (fun s => lastEventTimestamp s <> Some t) after).
Proof.
  split; [ apply sortByLastEventDesc_perm | ].
  split; [ apply sortByLastEventDesc_sorted | ].
  intros Hpos before quiet after t Hsplit Hquiet.
  pose proof (sortByLastEventDesc_sorted logStreams) as Hsorted.
  rewrite Hsplit in Hsorted.
  apply StronglySorted_after in Hsorted. rename Hsorted into Hafter.
  rewrite Forall_forall in *. intros s Hin Hs.
  specialize (Hafter s Hin). unfold lastEventOrZero in Hafter.
  rewrite Hquiet, Hs in Hafter.
  assert (Hin' : In s logStreams).
  { eapply Permutation_in; [ apply Permutation_sym, sortByLastEventDesc_perm | ].
    rewrite Hsplit. apply in_or_app. right. right. exact Hin. }
  specialize (Hpos s t Hin' Hs). lia.
Qed.

End SortFacts.

(* ================================================================= *)
(** ** Facts about the string methods *)

Section StringFacts.
Import JsString Nav.

Lemma len_nonneg (s : string) : 0 <= len s.
Proof. unfold len. lia. Qed.

Lemma len_app (a b : string) : len (a ++ b) = len a + len b.
Proof.
  unfold len. induction a as [ | c a IH ]; cbn [append String.length].
  - lia.
  - lia.
Qed.

Lemma app_nil_string (s : string) : s ++ EmptyString = s.
Proof. induction s as [ | c s IH ]; cbn; [ reflexivity | now rewrite IH ]. Qed.

Lemma app_assoc_string (a b c : string) : (a ++ b) ++ c = a ++ (b ++ c).
Proof. induction a as [ | x a IH ]; cbn; [ reflexivity | now rewrite IH ]. Qed.

Lemma startsWith_app (p r : string) : startsWith (p ++ r) p = true.
Proof.
  induction p as [ | c p IH ]; cbn.
  - destruct r; reflexivity.
  - rewrite Ascii.eqb_refl. exact IH.
Qed.

Lemma startsWith_inv (s p : string) :
  startsWith s p = true -> exists r, s = p ++ r.
Proof.
  revert s. induction p as [ | c p IH ]; intros s; cbn.
  - intros _. exists s. reflexivity.
  - destruct s as [ | a s ]; [ discriminate | ].
    intros H. apply andb_true_iff in H. destruct H as [Hc Hs].
    apply Ascii.eqb_eq in Hc. subst a.
    destruct (IH _ Hs) as [r ->]. exists r. reflexivity.
Qed.

Lemma substring_all (s : string) :
  String.substring 0 (String.length s) s = s.
Proof. induction s as [ | c s IH ]; cbn; [ reflexivity | now rewrite IH ]. Qed.

Lemma substring_skip (p r : string) (n : nat) :
  String.substring (String.length p) n (p ++ r) = String.substring 0 n r.
Proof. induction p as [ | c p IH ]; cbn; [ reflexivity | exact IH ]. Qed.

Lemma substring_take (p r : string) :
  String.substring 0 (String.length p) (p ++ r) = p.
Proof.
  induction p as [ | c p IH ]; cbn.
  - destruct r; reflexivity.
  - now rewrite IH.
Qed.

(** [(p + r).slice(p.length)] is [r]. *)
Lemma sliceFrom_app (p r : string) : sliceFrom (p ++ r) (len p) = r.
Proof.
  unfold sliceFrom, slice, clampIndex. rewrite len_app.
  pose proof (len_nonneg p). pose proof (len_nonneg r).
  destruct (Z.ltb_spec (len p) 0); [ lia | ].
  destruct (Z.ltb_spec (len p + len r) 0); [ lia | ].
  rewrite Z.min_l, Z.min_id by lia.
  replace (Z.max (len p + len r - len p) 0) with (len r) by lia.
  unfold len. rewrite !Nat2Z.id, substring_skip. apply substring_all.
Qed.

(** [(p + r).slice(0, p.length)] is [p]. *)
Lemma slice_take (p r : string) : slice (p ++ r) 0 (len p) = p.
Proof.
  unfold slice, clampIndex. rewrite len_app.
  pose proof (len_nonneg p). pose proof (len_nonneg r).
  cbn [Z.ltb Z.compare].
  destruct (Z.ltb_spec (len p) 0); [ lia | ].
  rewrite !Z.min_l by lia.
  replace (Z.max (len p - 0) 0) with (len p) by lia.
  unfold len. rewrite Nat2Z.id. cbn [Z.to_nat]. apply substring_take.
Qed.

Lemma endsWith_slash (a : string) : endsWith (a ++ "/") "/" = true.
Proof.
  unfold endsWith. rewrite len_app. change (len "/") with 1.
  pose proof (len_nonneg a).
  replace (len a + 1 - 1) with (len a) by lia.
  rewrite sliceFrom_app. apply andb_true_iff. split.
  - apply Z.leb_le. lia.
  - reflexivity.
Qed.

Lemma indexOfFrom_found (c : ascii) (s : string) (i : Z) :
  indexOfFrom c s i <> -1 ->
  exists a b,
    s = a ++ String c b
    /\ ~ occurs c a
    /\ indexOfFrom c s i = i + len a.
Proof.
  revert i. induction s as [ | x s IH ]; intros i; cbn [indexOfFrom].
  - intros H. contradiction.
  - destruct (Ascii.eqb_spec x c) as [-> | Hne].
    + intros _. exists EmptyString, s. repeat split.
      * intros [].
      * change (len EmptyString) with 0. lia.
    + intros H. destruct (IH _ H) as [a [b [-> [Hno Hidx]]]].
      exists (String x a), b. repeat split.
      * intros [Hx | Hin]; [ congruence | exact (Hno Hin) ].
      * rewrite Hidx. unfold len. cbn [String.length]. lia.
Qed.

Lemma indexOfFrom_absent (c : ascii) (s : string) (i : Z) :
  0 <= i -> indexOfFrom c s i = -1 -> ~ occurs c s.
Proof.
  revert i. induction s as [ | x s IH ]; intros i Hi; cbn [indexOfFrom].
  - intros _ [].
  - destruct (Ascii.eqb_spec x c) as [-> | Hne].
    + lia.
    + intros H [Hx | Hin]; [ congruence | ].
      apply (IH (i + 1)); [ lia | exact H | exact Hin ].
Qed.

Lemma occurs_app (c : ascii) (a b : string) :
  occurs c (a ++ b) <-> occurs c a \/ occurs c b.
Proof.
  unfold occurs. induction a as [ | x a IH ]; cbn.
  - tauto.
  - rewrite IH. tauto.
Qed.

(** The scan of [lastIndexOf] over a stretch that lies within the bound
    and does not hold the character leaves the best hit as it was. *)
Lemma lastIndexOfUpTo_skip
    (c : ascii) (a b : string) (i bound best : Z) :
  ~ occurs c a ->
  i + len a - 1 <= bound ->
  lastIndexOfUpTo c (a ++ b) i bound best
  = lastIndexOfUpTo c b (i + len a) bound best.
Proof.
  revert i. induction a as [ | x a IH ]; intros i Hno Hbound.
  - cbn [append]. change (len EmptyString) with 0.
    now replace (i + 0) with i by lia.
  - cbn [append lastIndexOfUpTo].
    assert (Hlen : len (String x a) = 1 + len a).
    { unfold len. cbn [String.length]. lia. }
    pose proof (len_nonneg a).
    destruct (Z.ltb_spec bound i); [ lia | ].
    destruct (Ascii.eqb_spec x c) as [-> | Hne].
    + exfalso. apply Hno. left. reflexivity.
    + rewrite IH.
      * f_equal. lia.
      * intros Hin. apply Hno. right. exact Hin.
      * lia.
Qed.

(** Over a stretch within the bound the scan ends with some best hit. *)
Lemma lastIndexOfUpTo_over
    (c : ascii) (a b : string) (i bound best : Z) :
  i + len a - 1 <= bound ->
  exists best',
    lastIndexOfUpTo c (a ++ b) i bound best
    = lastIndexOfUpTo c b (i + len a) bound best'.
Proof.
  revert i best. induction a as [ | x a IH ]; intros i best Hbound.
  - exists best. cbn [append]. change (len EmptyString) with 0.
    now replace (i + 0) with i by lia.
  - cbn [append lastIndexOfUpTo].
    assert (Hlen : len (String x a) = 1 + len a).
    { unfold len. cbn [String.length]. lia. }
    pose proof (len_nonneg a).
    destruct (Z.ltb_spec bound i); [ lia | ].
    destruct (IH (i + 1) (if Ascii.eqb x c then i else best)) as [best' Hb];
      [ lia | ].
    exists best'. rewrite Hb. f_equal. lia.
Qed.

(** Going down one level and back up is a round trip: for a prefix
    that is empty or ends with a slash and a level name that is not
    empty and holds no slash, the parent of prefix + name + slash is the
    prefix. *)
Lemma parentPrefix_child (root name : string) :
  root = EmptyString \/ (exists q, root = q ++ "/") ->
  name <> EmptyString ->
  ~ occurs "/" name ->
  parentPrefix (root ++ name ++ "/") = root.
Proof.
  intros Hroot Hname Hno.
  assert (Hlen : 1 <= len name).
  { destruct name; [ contradiction | ]. unfold len. cbn [String.length]. lia. }
  unfold parentPrefix, lastIndexOfAt.
  rewrite !len_app. change (len "/") with 1.
  pose proof (len_nonneg root).
  replace (Z.max (len root + (len name + 1) - 2) 0)
    with (len root + len name - 1) by lia.
  assert (Hscan : lastIndexOfUpTo "/" (root ++ name ++ "/") 0
                    (len root + len name - 1) (-1)
                  = len root - 1).
  { destruct Hroot as [-> | [q ->]].
    - cbn [append]. change (len EmptyString) with 0.
      rewrite lastIndexOfUpTo_skip by (try assumption; lia).
      cbn [lastIndexOfUpTo].
      destruct (Z.ltb_spec (0 + len name - 1) (0 + len name)); [ | lia ].
      reflexivity.
    - rewrite !app_assoc_string. rewrite len_app. change (len "/") with 1.
      pose proof (len_nonneg q).
      destruct (lastIndexOfUpTo_over "/" q ("/" ++ name ++ "/") 0
                  (len q + 1 + len name - 1) (-1)) as [best' ->]; [ lia | ].
      cbn [append lastIndexOfUpTo].
      destruct (Z.ltb_spec (len q + 1 + len name - 1) (0 + len q)); [ lia | ].
      cbn [Ascii.eqb Bool.eqb].
      rewrite lastIndexOfUpTo_skip by (try assumption; lia).
      cbn [lastIndexOfUpTo].
      destruct (Z.ltb_spec (len q + 1 + len name - 1)
                           (0 + len q + 1 + len name)); [ | lia ].
      lia. }
  rewrite Hscan. replace (len root - 1 + 1) with (len root) by lia.
  apply slice_take.
Qed.

End StringFacts.

(* ================================================================= *)
(** ** What the navigator can do in one step *)

Section NavigatorSteps.
Import JsString Groups Cli Nav.

Lemma arrayFromSet_In (x : string) (xs : list string) :
  In x (arrayFromSet xs) <-> In x xs.
Proof.
  induction xs as [ | y xs IH ]; cbn [arrayFromSet]; [ tauto | ].
  cbn [In]. rewrite filter_In, IH, negb_true_iff, String.eqb_neq.
  destruct (String.eqb_spec y x) as [-> | Hne]; [ tauto | ].
  split; [ tauto | ]. intros [H | H]; [ tauto | ]. right. split; congruence.
Qed.

Lemma arrayFromSet_NoDup (xs : list string) : NoDup (arrayFromSet xs).
Proof.
  induction xs as [ | y xs IH ]; cbn [arrayFromSet]; constructor.
  - rewrite filter_In, negb_true_iff, String.eqb_neq. tauto.
  - apply NoDup_filter, IH.
Qed.

(** The next segment of a matching entry is the whole rest of its name
    when that holds no slash, and else the rest up to and including its
    first slash. *)
Lemma nextSegment_cases (mainLogGroup prefix : string) (group : LogGroup) :
  startsWith (logGroupName group) (groupPath mainLogGroup prefix) = true ->
  (~ occurs "/" (nextSegment mainLogGroup prefix group)
   /\ logGroupName group
      = groupPath mainLogGroup prefix ++ nextSegment mainLogGroup prefix group)
  \/ (exists level rest,
        nextSegment mainLogGroup prefix group = level ++ "/"
        /\ ~ occurs "/" level
        /\ logGroupName group
           = groupPath mainLogGroup prefix ++ level ++ "/" ++ rest).
Proof.
  intros Hstarts. destruct (startsWith_inv _ _ Hstarts) as [remaining Hname].
  unfold nextSegment. rewrite Hname, sliceFrom_app. unfold indexOf.
  destruct (Z.eqb_spec (indexOfFrom "/" remaining 0) (-1)) as [Hnone | Hsome];
    cbn [negb].
  - left. split; [ | reflexivity ].
    exact (indexOfFrom_absent _ _ 0 ltac:(lia) Hnone).
  - right. destruct (indexOfFrom_found _ _ _ Hsome) as [a [b [-> [Hno ->]]]].
    exists a, b. split; [ | split; [ exact Hno | reflexivity ] ].
    replace (0 + len a + 1) with (len (a ++ "/")).
    + change (a ++ String "/" b) with (a ++ "/" ++ b).
      rewrite <- app_assoc_string. apply slice_take.
    + rewrite len_app. change (len "/") with 1. lia.
Qed.

Lemma subGroups_In
    (segment : string) (logGroups : list LogGroup)
    (mainLogGroup prefix : string) :
  In segment (subGroups logGroups mainLogGroup prefix)
  <-> exists group,
        In group logGroups
        /\ startsWith (logGroupName group)
                      (groupPath mainLogGroup prefix) = true
        /\ nextSegment mainLogGroup prefix group = segment.
Proof.
  unfold subGroups, matchingGroups.
  rewrite arrayFromSet_In, in_map_iff. split.
  - intros [group [Hseg Hin]]. apply filter_In in Hin. exists group. tauto.
  - intros [group [Hin [Hstarts Hseg]]]. exists group.
    rewrite filter_In. tauto.
Qed.

Lemma mapResult_In {A B} (f : A -> result B) (xs : list A) (ys : list B) :
  mapResult f xs = Ok ys ->
  forall y, In y ys -> exists x, In x xs /\ f x = Ok y.
Proof.
  revert ys. induction xs as [ | x xs IH ]; intros ys; cbn [mapResult].
  - intros H. injection H as <-. intros y [].
  - destruct (f x) as [y0 | e] eqn:Hfx; [ | discriminate ].
    destruct (mapResult f xs) as [ys0 | e]; [ | discriminate ].
    intros H. injection H as <-. intros y [<- | Hin].
    + exists x. split; [ left; reflexivity | exact Hfx ].
    + destruct (IH _ eq_refl y Hin) as [x' [Hx' Hfx']].
      exists x'. split; [ right; exact Hx' | exact Hfx' ].
Qed.

Lemma sortByCreationDesc_In (g : LogGroup) (logGroups : list LogGroup) :
  In g (sortByCreationDesc logGroups) -> In g logGroups.
Proof.
  unfold sortByCreationDesc.
  induction logGroups as [ | h rest IH ]; cbn [List.fold_right]; [ tauto | ].
  generalize dependent (List.fold_right insertGroup [] rest).
  intros sorted IH. induction sorted as [ | s sorted IHs ]; cbn [insertGroup].
  - intros [<- | []]. left. reflexivity.
  - destruct (creationTime s - creationTime h <=? 0).
    + intros [<- | Hin]; [ left; reflexivity | right; exact (IH Hin) ].
    + intros [<- | Hin].
      * right. apply IH. left. reflexivity.
      * apply IHs; [ | exact Hin ]. intros H. apply IH. right. exact H.
Qed.

End NavigatorSteps.

Section NavigatorInversion.
Import JsString Groups Cli Nav.
Variable red : string -> string.
Variable localTZA : Z -> Z.

Lemma getLogGroupBody_returned
    (region : string) (credentials : Credentials)
    (mainLogGroup prefix : string) (w w' : World) (next : GroupNext) :
  getLogGroupBody red localTZA region credentials mainLogGroup prefix w
  = (Returned next, w') ->
  logGroupReplies w' = List.tl (logGroupReplies w)
  /\ ((exists answers, next = GroupAgain (credentialsOf answers) prefix)
  \/ (exists pages later,
        logGroupReplies w = Ok pages :: later
        /\ (next = GroupAgain credentials (parentPrefix prefix)
            \/ (exists segment,
                  In segment (subGroups (List.concat pages) mainLogGroup prefix)
                  /\ endsWith (prefix ++ segment) "/" = true
                  /\ next = GroupAgain credentials (prefix ++ segment))
            \/ (exists group,
                  In group (List.concat pages)
                  /\ startsWith (logGroupName group)
                                (groupPath mainLogGroup prefix) = true
                  /\ next = GroupDone (logGroupName group))))).
Proof.
  unfold getLogGroupBody.
  unfold bind at 1. unfold emit at 1. unfold bind at 1. unfold emit at 1.
  unfold tryCatch. unfold bind at 1. unfold fetchAllLogGroups.
  cbn [logGroupReplies logStreamReplies logEventReplies menuReplies
       credentialReplies now output].
  destruct (logGroupReplies w) as [ | [pages | e] later ] eqn:Hreplies.
  - intros H. discriminate H.
  - unfold bind at 1. unfold emit at 1.
    destruct (List.length (List.concat pages) =? 0)%nat.
    + unfold throw at 1. refresh_or_rethrow.
    + set (choices := List.map _ (arrayFromSet _)).
      assert (Hchoices : forall choice, In choice choices ->
                exists segment,
                  In segment (subGroups (List.concat pages) mainLogGroup prefix)
                  /\ value choice = prefix ++ segment).
      { intros choice Hin. apply in_map_iff in Hin.
        destruct Hin as [segment [<- Hseg]]. exists segment. auto. }
      clearbody choices.
      destruct ((1 <? List.length choices)%nat || _).
      * unfold bind at 1. unfold listPrompt.
        cbn [logGroupReplies logStreamReplies logEventReplies menuReplies
             credentialReplies now output].
        destruct (menuReplies w) as [ | [index | e] replies ].
        -- intros H. discriminate H.
        -- destruct (nth_error (choices ++ [mkChoice "Back" "back"]) index)
             as [choice | ] eqn:Hnth; [ | intros H; discriminate H ].
           apply nth_error_In, in_app_or in Hnth.
           destruct (String.eqb_spec (value choice) "back") as [Hback | Hback].
           ++ unfold ret. intros H. inversion H. subst.
              split; [ reflexivity | ].
              right. exists pages, later. split; [ reflexivity | ].
              left. reflexivity.
           ++ destruct Hnth as [Hin | [<- | []]]; [ | contradiction Hback; reflexivity ].
              destruct (Hchoices _ Hin) as [segment [Hseg Hvalue]].
              destruct (endsWith (value choice) "/") eqn:Hends;
                unfold ret; intros H; inversion H; subst;
                (split; [ reflexivity | ]);
                right; exists pages, later; (split; [ reflexivity | ]).
              ** right. left. exists segment. rewrite <- Hvalue. auto.
              ** right. right.
                 apply subGroups_In in Hseg.
                 destruct Hseg as [group [Hgroup [Hstarts Hnext]]].
                 exists group. split; [ exact Hgroup | ].
                 split; [ exact Hstarts | ].
                 destruct (nextSegment_cases _ _ _ Hstarts)
                   as [[_ Hname] | [level [rest [Hlevel _]]]].
                 --- rewrite Hname, Hnext, Hvalue. unfold groupPath.
                     cbn [append]. rewrite app_assoc_string. reflexivity.
                 --- rewrite Hvalue, <- Hnext, Hlevel in Hends.
                     rewrite <- app_assoc_string, endsWith_slash in Hends.
                     discriminate Hends.
        -- refresh_or_rethrow.
      * unfold bind at 1. unfold listPrompt.
        cbn [logGroupReplies logStreamReplies logEventReplies menuReplies
             credentialReplies now output].
        destruct (menuReplies w) as [ | [index | e] replies ].
        -- intros H. discriminate H.
        -- destruct (nth_error dateFilterChoices index) as [filter | ];
             [ | intros H; discriminate H ].
           unfold bind at 1. cbn [now].
           unfold bind at 1.
           destruct (mapResult finalChoice _) as [finalChoices | e] eqn:Hfinal;
             cbn [liftResult]; unfold ret at 1, throw at 1.
           ++ unfold bind at 1. unfold listPrompt.
              cbn [logGroupReplies logStreamReplies logEventReplies menuReplies
                   credentialReplies now output].
              destruct replies as [ | [index2 | e] replies ].
              ** intros H. discriminate H.
              ** destruct (nth_error finalChoices index2) as [choice | ] eqn:Hnth;
                   [ | intros H; discriminate H ].
                 unfold ret. intros H. inversion H. subst.
                 split; [ reflexivity | ].
                 right. exists pages, later. split; [ reflexivity | ].
                 right. right.
                 apply nth_error_In in Hnth.
                 destruct (mapResult_In _ _ _ Hfinal _ Hnth)
                   as [group [Hgroup Hchoice]].
                 apply sortByCreationDesc_In in Hgroup.
                 apply filter_In in Hgroup. destruct Hgroup as [Hgroup _].
                 apply filter_In in Hgroup. destruct Hgroup as [Hgroup Hstarts].
                 exists group. split; [ exact Hgroup | ].
                 split; [ exact Hstarts | ].
                 unfold finalChoice in Hchoice.
                 destruct (JsDate.toISOString _); [ | discriminate Hchoice ].
                 injection Hchoice as <-. reflexivity.
              ** refresh_or_rethrow.
           ++ refresh_or_rethrow.
        -- refresh_or_rethrow.
  - refresh_or_rethrow.
Qed.

End NavigatorInversion.

Section MenuProperties.
Import JsString Groups Cli Nav.

Lemma In_tl {A} (x : A) (l : list A) : In x (List.tl l) -> In x l.
Proof. destruct l; [ tauto | right; assumption ]. Qed.

Lemma startsWith_groupPath (name mainLogGroup prefix : string) :
  startsWith name (groupPath mainLogGroup prefix) = true ->
  startsWith name ("/" ++ mainLogGroup) = true.
Proof.
  intros H. destruct (startsWith_inv _ _ H) as [rest ->].
  unfold groupPath. cbn [append].
  rewrite app_assoc_string.
  exact (startsWith_app (String "/" mainLogGroup) (prefix ++ rest)).
Qed.

(** The menu of one level: its entries are distinct; each is a leaf
    name without a slash or a sub-level name closed by its only slash;
    and every listed group under the current path lies under one of the
    entries. *)
Theorem menu_entries_are_distinct_next_segments
    (logGroups : list LogGroup) (mainLogGroup prefix : string) :
  NoDup (subGroups logGroups mainLogGroup prefix)
  /\ (forall segment,
        In segment (subGroups logGroups mainLogGroup prefix) ->
        ~ occurs "/" segment
        \/ exists level, segment = level ++ "/" /\ ~ occurs "/" level)
  /\ (forall group,
        In group logGroups ->
        startsWith (logGroupName group) (groupPath mainLogGroup prefix) = true ->
        exists segment,
          In segment (subGroups logGroups mainLogGroup prefix)
          /\ startsWith (logGroupName group)
               (groupPath mainLogGroup prefix ++ segment) = true).
Proof.
  split; [ apply arrayFromSet_NoDup | ]. split.
  - intros segment Hin. apply subGroups_In in Hin.
    destruct Hin as [group [_ [Hstarts <-]]].
    destruct (nextSegment_cases _ _ _ Hstarts)
      as [[Hno _] | [level [rest [Hlevel [Hno _]]]]].
    + left. exact Hno.
    + right. exists level. auto.
  - intros group Hin Hstarts.
    exists (nextSegment mainLogGroup prefix group). split.
    + apply subGroups_In. exists group. auto.
    + destruct (nextSegment_cases _ _ _ Hstarts)
        as [[_ Hname] | [level [rest [Hlevel [_ Hname]]]]].
      * rewrite Hname at 1. rewrite <- (app_nil_string (_ ++ _)) at 1.
        apply startsWith_app.
      * rewrite Hlevel. rewrite Hname at 1.
        rewrite <- !app_assoc_string. apply startsWith_app.
Qed.

(** Going down one level and back up returns to where the operator
    was: from a prefix that is empty or ends with a slash, the parent of
    the prefix extended by a non-empty level name and a slash is the
    prefix again. *)
Theorem back_undoes_a_descent (prefix level : string) :
  prefix = EmptyString \/ (exists q, prefix = q ++ "/") ->
  level <> EmptyString ->
  ~ occurs "/" level ->
  parentPrefix (prefix ++ level ++ "/") = prefix.
Proof. exact (parentPrefix_child prefix level). Qed.

End MenuProperties.

Section NavigatorProperties.
Import JsString Groups Cli Nav.
Variable red : string -> string.
Variable localTZA : Z -> Z.


Lemma getLogGroup_returned
    (fuel : nat) (region : string) (credentials : Credentials)
    (mainLogGroup prefix : string) (w w' : World) (path : string) :
  getLogGroup red localTZA fuel region credentials mainLogGroup prefix w
  = (Returned path, w') ->
  exists pages group,
    In (Ok pages) (logGroupReplies w)
    /\ In group (List.concat pages)
    /\ logGroupName group = path
    /\ startsWith path ("/" ++ mainLogGroup) = true.
Proof.
  revert credentials prefix w.
  induction fuel as [ | fuel IH ]; intros credentials prefix w;
    cbn [getLogGroup].
  - discriminate.
  - unfold bind.
    destruct (getLogGroupBody red localTZA region credentials mainLogGroup
                prefix w) as [[next | e | | ] w1] eqn:Hbody;
      try discriminate.
    destruct (getLogGroupBody_returned red localTZA _ _ _ _ _ _ _ Hbody)
      as [Htl Hcases].
    destruct next as [done | credentials' prefix'].
    + unfold ret. intros H. injection H as <- <-.
      destruct Hcases as [[answers Habs] | [pages [later [Hrep Hcases]]]];
        [ discriminate Habs | ].
      destruct Hcases as [Habs | [[seg [_ [_ Habs]]] | [group [Hin [Hst Hdone]]]]];
        try discriminate.
      injection Hdone as ->.
      exists pages, group. rewrite Hrep.
      repeat split; try assumption.
      * left. reflexivity.
      * exact (startsWith_groupPath _ _ _ Hst).
    + intros Hrec. destruct (IH _ _ _ Hrec) as [pages [group [Hin Hrest]]].
      exists pages, group. split; [ | exact Hrest ].
      rewrite Htl in Hin. exact (In_tl _ _ Hin).
Qed.

(** Whatever the operator does and however many menus it takes: a path
    [getLogGroup] returns is the name of a log group that one of the
    listings of the run contains, and that name starts with a slash
    followed by the main group. *)
Theorem navigator_returns_a_listed_group
    (fuel : nat) (region : string) (credentials : Credentials)
    (mainLogGroup prefix : string) (w w' : World) (path : string) :
  getLogGroup red localTZA fuel region credentials mainLogGroup prefix w
  = (Returned path, w') ->
  exists pages group,
    In (Ok pages) (logGroupReplies w)
    /\ In group (List.concat pages)
    /\ logGroupName group = path
    /\ startsWith path ("/" ++ mainLogGroup) = true.
Proof. apply getLogGroup_returned. Qed.

End NavigatorProperties.

(* ================================================================= *)
(** ** The stream menu *)

Section StreamProperties.
Import JsString Groups Cli Nav.
Variable red : string -> string.
Variable localTZA : Z -> Z.


(** When the listing of streams comes back empty, [getLogStream] throws
    the AWSError that reports "No log streams found." under the prefix
    of its [catch] block; it shows no menu and takes no answer from the
    operator. *)
Theorem empty_stream_listing_fails_before_any_menu
    (fuel : nat) (region logGroup : string) (credentials : Credentials)
    (w : World) (pages : list (list LogStream))
    (later : list (result (list (list LogStream)))) :
  logStreamReplies w = Ok pages :: later ->
  List.concat pages = [] ->
  exists w',
    getLogStream red localTZA (S fuel) region logGroup credentials w
    = (Threw (AWSError
                "An error occurred while fetching log streams: No log streams found."),
       w')
    /\ output w'
       = (output w
          ++ [ConsoleLog "Fetching log streams...";
              SpinnerStart "Fetching log streams...";
              DescribeLogStreams region credentials logGroup;
              SpinnerStop; SpinnerStop])%list
    /\ menuReplies w' = menuReplies w
    /\ credentialReplies w' = credentialReplies w.
Proof.
  intros Hreply Hempty.
  cbn [getLogStream]. unfold bind at 1. unfold getLogStreamBody.
  unfold bind at 1. unfold emit at 1. unfold bind at 1. unfold emit at 1.
  unfold tryCatch. unfold bind at 1. unfold fetchAllLogStreams.
  cbn [logGroupReplies output logStreamReplies logEventReplies menuReplies
       credentialReplies now].
  rewrite Hreply, Hempty.
  unfold bind at 1. unfold emit at 1. cbn [List.length Nat.eqb].
  unfold throw at 1. unfold bind at 1. unfold emit at 1.
  cbn [isExpiredToken AWSError Err.name Err.message String.eqb Ascii.eqb
       Bool.eqb orb]. unfold throw.
  eexists. split; [ reflexivity | ].
  cbn [output menuReplies credentialReplies].
  rewrite <- !app_assoc. cbn [app].
  repeat split.
Qed.

End StreamProperties.

(* ================================================================= *)
(** ** Failed requests *)

Section FailedRequests.
Import JsString Groups Cli Nav Trace.
Variables red green yellow : string -> string.
Variable localTZA : Z -> Z.

(** When the listing of log groups fails.  On any error but an expired
    or unrecognised token, [getLogGroup] throws an AWSError that carries
    the error's message behind a fixed prefix, without asking the
    operator anything.  On an expired or unrecognised token it asks for
    credentials once, stores them, and runs the same step again: same
    region, main group and prefix, new credentials. *)
Theorem navigator_on_failed_listing
    (fuel : nat) (region : string) (credentials : Credentials)
    (mainLogGroup prefix : string) (w : World) (e : JsError)
    (later : list (result (list (list LogGroup)))) :
  logGroupReplies w = Thrown e :: later ->
  let sent :=
    (output w
     ++ [ConsoleLog "Fetching log groups...";
         SpinnerStart "Fetching log groups...";
         DescribeLogGroups region credentials;
         SpinnerStop])%list in
  (isExpiredToken e = false ->
   getLogGroup red localTZA (S fuel) region credentials mainLogGroup prefix w
   = (Threw (AWSError ("An error occurred while fetching log groups: "
                       ++ Err.message e)),
      mkWorld later (logStreamReplies w) (logEventReplies w) (menuReplies w)
              (credentialReplies w) (now w) sent))
  /\ (isExpiredToken e = true ->
      forall answers more,
        credentialReplies w = answers :: more ->
        getLogGroup red localTZA (S fuel) region credentials mainLogGroup
          prefix w
        = getLogGroup red localTZA fuel region (credentialsOf answers)
            mainLogGroup prefix
            (mkWorld later (logStreamReplies w) (logEventReplies w)
               (menuReplies w) more (now w)
               (sent
                ++ [ConsoleLog
                      (red "The security token is expired or invalid. Requesting new credentials.");
                    ConsoleLog
                      (red "The security token is expired. Requesting new credentials.");
                    ConsoleLog "Prompting user for AWS credentials...";
                    CredentialsPrompt;
                    WriteConfig (credentialsOf answers)]))).
Proof.
  intros Hreply sent. subst sent. split.
  - intros Hexp.
    cbn [getLogGroup]. unfold bind at 1. unfold getLogGroupBody.
    unfold bind at 1. unfold emit at 1. unfold bind at 1. unfold emit at 1.
    unfold tryCatch. unfold bind at 1. unfold fetchAllLogGroups.
    cbn [logGroupReplies output logStreamReplies logEventReplies menuReplies
         credentialReplies now].
    rewrite Hreply. unfold bind at 1. unfold emit at 1. rewrite Hexp.
    unfold throw. cbn [output logGroupReplies logStreamReplies
      logEventReplies menuReplies credentialReplies now].
    rewrite <- !app_assoc. reflexivity.
  - intros Hexp answers more Hanswers.
    cbn [getLogGroup]. unfold bind at 1. unfold getLogGroupBody.
    unfold bind at 1. unfold emit at 1. unfold bind at 1. unfold emit at 1.
    unfold tryCatch. unfold bind at 1. unfold fetchAllLogGroups.
    cbn [logGroupReplies output logStreamReplies logEventReplies menuReplies
         credentialReplies now].
    rewrite Hreply. unfold bind at 1. unfold emit at 1. rewrite Hexp.
    unfold handleExpiredToken, getCredentialsFromUser, storeCredentials,
      credentialsPrompt.
    unfold bind, emit, ret.
    cbn [output logGroupReplies logStreamReplies logEventReplies menuReplies
         credentialReplies now].
    rewrite Hanswers.
    cbn [output logGroupReplies logStreamReplies logEventReplies menuReplies
         credentialReplies now credentialsOf app].
    rewrite <- !app_assoc. reflexivity.
Qed.

Lemma renderEvents_invalid (events : list LogEvent) :
  Exists (fun ev => ~ renders ev) events ->
  mapResult (renderEvent green) events
  = Thrown (Err.mk "RangeError" "Invalid time value").
Proof.
  induction 1 as [ ev rest Hbad | ev rest _ IH ]; cbn [mapResult].
  - unfold renderEvent, JsDate.newDate. unfold renders in Hbad.
    destruct (Z.leb_spec (Z.abs (timestamp ev)) JsDate.maxTime); [ lia | ].
    reflexivity.
  - rewrite IH. destruct (renderEvent green ev) as [line | e] eqn:Hline;
      [ reflexivity | ].
    unfold renderEvent, JsDate.newDate in Hline.
    destruct (Z.abs (timestamp ev) <=? JsDate.maxTime);
      cbn in Hline; [ discriminate Hline | ].
    injection Hline as <-. reflexivity.
Qed.

(** A tick that cannot go on ends the polling.  When the request fails
    on anything but the token, or when an event of the answer carries a
    timestamp outside the range of dates, [fetchLogs] throws an AWSError
    with the cause behind a fixed prefix; the loop stops there, having
    sent this one request, and the screen has not been cleared. *)
Theorem fatal_tick_ends_the_polling
    (ticks fuel : nat) (region logGroup logStream : string)
    (st : TailState) (w : World) (answer : result (list LogEvent))
    (later : list (result (list LogEvent))) (cause : string) :
  logEventReplies w = answer :: later ->
  (exists e, answer = Thrown e /\ isExpiredToken e = false
             /\ cause = Err.message e)
  \/ (exists events, answer = Ok events
                     /\ Exists (fun ev => ~ renders ev) events
                     /\ cause = "Invalid time value") ->
  exists w',
    poll red green yellow (S ticks) (S fuel) region logGroup logStream st w
    = (Threw (AWSError ("An error occurred while fetching log events: "
                        ++ cause)), w')
    /\ output w'
       = (output w
          ++ [FilterLogEvents region (credentials st) logGroup logStream
                MAX_FETCH_LINES (startTime st) (Some answer)])%list
    /\ logEventReplies w' = later.
Proof.
  intros Hreply Hcause.
  cbn [poll]. unfold bind at 1. cbn [fetchLogs]. unfold bind at 1.
  unfold fetchLogsBody, tryCatch. unfold bind at 1.
  unfold sendFilterLogEvents. rewrite Hreply.
  destruct Hcause as [[e [-> [Hexp ->]]] | [events [-> [Hbad ->]]]].
  - rewrite Hexp. unfold throw. eexists. split; [ reflexivity | ].
    cbn [output logEventReplies]. repeat split.
  - unfold bind at 1.
    assert (Hproc : processEvents green yellow events st
                    = Thrown (Err.mk "RangeError" "Invalid time value")).
    { unfold processEvents. destruct events as [ | first rest ].
      - inversion Hbad.
      - rewrite (renderEvents_invalid _ Hbad). reflexivity. }
    rewrite Hproc. cbn [liftResult]. unfold throw.
    cbn [isExpiredToken Err.name Err.message String.eqb Ascii.eqb Bool.eqb orb].
    eexists. split; [ reflexivity | ].
    cbn [output logEventReplies]. repeat split.
Qed.


End FailedRequests.

(* ================================================================= *)
(** ** The buffer over a run of the timer *)

Section RunBuffer.
Import Cli Trace.
Variables red green yellow : string -> string.
Variables region logGroup logStream : string.

(** A run that ends with the process alive never passed a state in
    which it had ended. *)
Lemma run_alive
    (schedule : list Interval.Event) (t t' : Interval.Tail) :
  Interval.run red green yellow region logGroup logStream schedule t
  = Some t' ->
  Interval.ended t' = None ->
  Interval.ended t = None.
Proof.
  destruct schedule as [ | ev rest ]; cbn [Interval.run].
  - intros H. injection H as <-. auto.
  - unfold Interval.step. destruct (Interval.ended t); [ discriminate | auto ].
Qed.

(** What one event does to the buffer and to [lastFetchHadEvents] when
    the process survives it: an answer with events that render, or with
    none, pushes its lines and the buffer is trimmed; any other event
    leaves both alone. *)
Lemma step_buffer
    (ev : Interval.Event) (t t1 : Interval.Tail) :
  Interval.step red green yellow region logGroup logStream ev t = Some t1 ->
  Interval.ended t1 = None ->
  exists lines,
    pushedBy green yellow (lastFetchHadEvents (Interval.closure t))
      (answeredEvents ev)
    = Ok lines
    /\ logBuffer (Interval.closure t1)
       = (if match answeredEvents ev with [] => true | _ :: _ => false end
          then logBuffer (Interval.closure t)
          else limitBuffer (logBuffer (Interval.closure t) ++ lines))
    /\ forall later,
         pushedBy green yellow (lastFetchHadEvents (Interval.closure t))
           (answeredEvents ev ++ later)
         = match pushedBy green yellow
                   (lastFetchHadEvents (Interval.closure t1)) later with
           | Thrown e => Thrown e
           | Ok more => Ok (lines ++ more)%list
           end.
Proof.
  unfold Interval.step. destruct (Interval.ended t) eqn:Hended;
    [ discriminate | ].
  assert (Hsame : forall st,
             exists lines,
               pushedBy green yellow (lastFetchHadEvents st) [] = Ok lines
               /\ logBuffer st = logBuffer st
               /\ forall later,
                    pushedBy green yellow (lastFetchHadEvents st) later
                    = match pushedBy green yellow (lastFetchHadEvents st)
                              later with
                      | Thrown e => Thrown e
                      | Ok more => Ok (lines ++ more)%list
                      end).
  { intros st. exists []. repeat split.
    intros later.
    destruct (pushedBy green yellow (lastFetchHadEvents st) later);
      reflexivity. }
  assert (Hrejected : forall i error u,
             Interval.ended (Interval.reject i error u) = None -> False).
  { intros i error u. cbn. discriminate. }
  assert (Hcaught : forall i error u,
             Interval.ended (Interval.catchBlock red i error u) = None ->
             Interval.closure (Interval.catchBlock red i error u)
             = Interval.closure u
             /\ isExpiredToken error = true).
  { intros i error u. unfold Interval.catchBlock.
    destruct (isExpiredToken error); cbn; [ auto | discriminate ]. }
  destruct ev as [ | i answer | i answers | i failure ].
  - intros H _. injection H as <-. cbn [answeredEvents app]. apply Hsame.
  - destruct (List.nth_error (Interval.activations t) i)
      as [[request | | c | ] | ]; try discriminate.
    destruct answer as [events | error].
    + cbn [Interval.settle Interval.closure answeredEvents app].
      destruct (processEvents green yellow events (Interval.closure t))
        as [st' | error] eqn:Hproc.
      * intros H _. injection H as <-.
        cbn [Interval.moveOn Interval.closure].
        revert Hproc. unfold processEvents.
        destruct events as [ | first rest ].
        -- intros H. injection H as <-.
           cbn [logBuffer lastFetchHadEvents pushedBy].
           exists (if lastFetchHadEvents (Interval.closure t) then []
                   else [yellow "No log events found."]).
           split; [ rewrite app_nil_r; reflexivity | ]. split.
           ++ destruct (lastFetchHadEvents (Interval.closure t));
                cbn [negb]; rewrite ?app_nil_r; reflexivity.
           ++ intros later.
              destruct (pushedBy green yellow false later); reflexivity.
        -- destruct (mapResult (renderEvent green) (first :: rest))
             as [lines | e] eqn:Hlines; [ | discriminate ].
           intros H. injection H as <-.
           cbn [logBuffer lastFetchHadEvents pushedBy].
           rewrite Hlines. exists lines.
           split; [ rewrite app_nil_r; reflexivity | ].
           split; [ reflexivity | ].
           intros later.
           destruct (pushedBy green yellow true later); reflexivity.
      * intros H Halive. injection H as <-.
        destruct (Hcaught _ _ _ Halive) as [_ Hexp].
        rewrite (processEvents_error green yellow _ _ _ Hproc) in Hexp.
        discriminate Hexp.
    + intros H Halive. injection H as <-.
      destruct (Hcaught _ _ _ Halive) as [-> _].
      cbn [Interval.settle Interval.closure answeredEvents app]. apply Hsame.
  - destruct (List.nth_error (Interval.activations t) i)
      as [[request | | c | ] | ]; try discriminate.
    destruct answers as [answers | error]; intros H Halive;
      injection H as <-.
    + cbn [answeredEvents app Interval.moveOn Interval.closure]. apply Hsame.
    + elim (Hrejected _ _ _ Halive).
  - destruct (List.nth_error (Interval.activations t) i)
      as [[request | | c | ] | ]; try discriminate.
    destruct failure as [error | ]; intros H Halive; injection H as <-.
    + elim (Hrejected _ _ _ Halive).
    + cbn [answeredEvents app Interval.sendRequest Interval.moveOn
           Interval.closure refreshCredentials lastFetchHadEvents logBuffer].
      apply Hsame.
Qed.

Lemma run_buffer
    (schedule : list Interval.Event) (t t' : Interval.Tail) :
  Interval.run red green yellow region logGroup logStream schedule t
  = Some t' ->
  Interval.ended t' = None ->
  Z.of_nat (List.length (logBuffer (Interval.closure t))) <= MAX_LOG_LINES ->
  exists lines,
    pushedBy green yellow (lastFetchHadEvents (Interval.closure t))
      (eventsAnswered schedule)
    = Ok lines
    /\ logBuffer (Interval.closure t')
       = limitBuffer (logBuffer (Interval.closure t) ++ lines).
Proof.
  revert t. induction schedule as [ | ev rest IH ]; intros t.
  - cbn. intros H _ Hcap. injection H as <-. exists [].
    split; [ reflexivity | ]. rewrite app_nil_r.
    unfold limitBuffer.
    destruct (Z.ltb_spec MAX_LOG_LINES
                (Z.of_nat (List.length (logBuffer (Interval.closure t)))));
      [ lia | reflexivity ].
  - cbn [Interval.run].
    destruct (Interval.step red green yellow region logGroup logStream ev t)
      as [t1 | ] eqn:Hstep; [ | discriminate ].
    intros Hrun Halive Hcap.
    pose proof (run_alive _ _ _ Hrun Halive) as Halive1.
    destruct (step_buffer _ _ _ Hstep Halive1) as [lines [_ [Hbuf Hpush]]].
    assert (Hcap1 : Z.of_nat (List.length (logBuffer (Interval.closure t1)))
                    <= MAX_LOG_LINES).
    { rewrite Hbuf. destruct (answeredEvents ev); [ exact Hcap | ].
      rewrite limitBuffer_length. unfold MAX_LOG_LINES. lia. }
    destruct (IH t1 Hrun Halive Hcap1) as [more [Hmore Hend]].
    exists (lines ++ more)%list.
    change (eventsAnswered (ev :: rest))
      with (answeredEvents ev ++ eventsAnswered rest)%list.
    rewrite Hpush, Hmore. split; [ reflexivity | ].
    rewrite Hend, Hbuf.
    destruct (answeredEvents ev) as [ | events others ] eqn:Hev.
    + assert (Hlines : lines = []).
      { specialize (Hpush []). rewrite ?Hev in Hpush. cbn in Hpush.
        injection Hpush as Hpush.
        rewrite app_nil_r in Hpush. symmetry. exact Hpush. }
      rewrite Hlines. reflexivity.
    + rewrite limitBuffer_app, app_assoc. reflexivity.
Qed.

(** Whatever the schedule, with fetches overlapping or not: while the
    process lives, the buffer is what one trim at the end would have
    left of the buffer the run started with followed by every line the
    answers pushed, in the order the answers arrived.  It holds the last
    lines of that list, at most 1000 of them. *)
Theorem polling_keeps_the_last_lines
    (schedule : list Interval.Event) (t t' : Interval.Tail) :
  Interval.run red green yellow region logGroup logStream schedule t
  = Some t' ->
  Interval.ended t' = None ->
  Z.of_nat (List.length (logBuffer (Interval.closure t))) <= MAX_LOG_LINES ->
  exists lines,
    pushedBy green yellow (lastFetchHadEvents (Interval.closure t))
      (eventsAnswered schedule)
    = Ok lines
    /\ logBuffer (Interval.closure t')
       = List.skipn
           (List.length (logBuffer (Interval.closure t) ++ lines) - 1000)
           (logBuffer (Interval.closure t) ++ lines)
    /\ Z.of_nat (List.length (logBuffer (Interval.closure t')))
       <= MAX_LOG_LINES.
Proof.
  intros Hrun Halive Hcap.
  destruct (run_buffer _ _ _ Hrun Halive Hcap) as [lines [Hlines Hbuf]].
  exists lines. split; [ exact Hlines | ]. rewrite Hbuf. split.
  - apply limitBuffer_skipn.
  - rewrite limitBuffer_length. unfold MAX_LOG_LINES. lia.
Qed.

End RunBuffer.

(* ================================================================= *)
(** ** Ticks that do not overlap *)

Section SerialRuns.
Import Cli Trace.
Variables red green yellow : string -> string.
Variables region logGroup logStream : string.

Lemma run_app
    (first second : list Interval.Event) (t : Interval.Tail) :
  Interval.run red green yellow region logGroup logStream (first ++ second) t
  = match Interval.run red green yellow region logGroup logStream first t with
    | Some t1 =>
        Interval.run red green yellow region logGroup logStream second t1
    | None => None
    end.
Proof.
  revert t. induction first as [ | ev rest IH ]; intros t; cbn.
  - reflexivity.
  - destruct (Interval.step red green yellow region logGroup logStream ev t);
      [ apply IH | reflexivity ].
Qed.

Lemma serial_app
    (first second : list Interval.Event) (t t1 : Interval.Tail) :
  Interval.run red green yellow region logGroup logStream first t = Some t1 ->
  serial red green yellow region logGroup logStream first t = true ->
  serial red green yellow region logGroup logStream second t1 = true ->
  serial red green yellow region logGroup logStream (first ++ second) t = true.
Proof.
  revert t. induction first as [ | ev rest IH ]; intros t; cbn.
  - intros H _ Hsecond. injection H as <-. exact Hsecond.
  - destruct (match ev with Interval.TimerFires => idle t | _ => true end);
      [ | discriminate ].
    destruct (Interval.step red green yellow region logGroup logStream ev t);
      [ apply IH | discriminate ].
Qed.

(** A schedule in which the timer is never due is serial. *)
Lemma serial_without_timer
    (schedule : list Interval.Event) (t : Interval.Tail) :
  Forall (fun ev => ev <> Interval.TimerFires) schedule ->
  serial red green yellow region logGroup logStream schedule t = true.
Proof.
  intros Hall. revert t. induction Hall as [ | ev rest Hev _ IH ]; intros t.
  - reflexivity.
  - cbn [serial]. destruct ev; try (elim Hev; reflexivity);
      destruct (Interval.step _ _ _ _ _ _ _ t); auto.
Qed.

Lemma exchanges_app (a b : list Output) :
  exchanges (a ++ b) = (exchanges a ++ exchanges b)%list.
Proof. apply flat_map_app. Qed.

Lemma exchanges_of_lines (lines : list string) :
  exchanges (List.map ConsoleLog lines) = [].
Proof. induction lines as [ | l rest IH ]; [ reflexivity | exact IH ]. Qed.

(** How an activation of [fetchLogs] in the scripted world comes to
    return: the script answered the request with events that
    [processEvents] accepted, or it failed the request on the token and
    the operator entered credentials. *)
Lemma fetchLogsBody_script
    (st : TailState) (w w' : World) (next : FetchNext) :
  fetchLogsBody red green yellow region logGroup logStream st w
  = (Returned next, w') ->
  exists answer post,
    output w'
    = (output w
       ++ FilterLogEvents region (credentials st) logGroup logStream
            MAX_FETCH_LINES (startTime st) (Some answer) :: post)%list
    /\ exchanges post = []
    /\ match next with
       | FetchDone st' =>
           exists events,
             answer = Ok events
             /\ processEvents green yellow events st = Ok st'
       | FetchRetry st' =>
           exists error answers,
             answer = Thrown error
             /\ isExpiredToken error = true
             /\ st' = refreshCredentials st
                        (Interval.enteredCredentials answers)
       end.
Proof.
  unfold fetchLogsBody, tryCatch.
  unfold bind at 1. unfold sendFilterLogEvents.
  destruct (logEventReplies w) as [ | [events | e] later ].
  - discriminate.
  - unfold bind at 1.
    destruct (processEvents green yellow events st) as [st' | e] eqn:Hproc;
      cbn [liftResult]; unfold ret at 1, throw at 1.
    + unfold bind at 1. unfold emit at 1. unfold bind at 1.
      rewrite forEach_log. unfold ret. cbn [output].
      intros H. injection H as <- <-. cbn [output].
      exists (Ok events), (ConsoleClear :: List.map ConsoleLog (logBuffer st')).
      rewrite <- !app_assoc. split; [ reflexivity | ].
      split; [ exact (exchanges_of_lines _) | ].
      exists events. auto.
    + rewrite (processEvents_error green yellow _ _ _ Hproc). unfold throw.
      discriminate.
  - destruct (isExpiredToken e) eqn:Hexp.
    + unfold handleExpiredToken, getCredentialsFromUser, storeCredentials.
      unfold bind, emit, credentialsPrompt, ret. cbn.
      destruct (credentialReplies w) as [ | answers more ];
        intros H; [ discriminate H | ].
      injection H as <- <-. cbn [output].
      rewrite <- !app_assoc. cbn [app].
      eexists. eexists. split; [ reflexivity | ].
      split; [ reflexivity | ].
      exists e, answers. auto.
    + unfold throw. discriminate.
Qed.

Lemma nth_error_last {A} (l : list A) (x : A) :
  List.nth_error (l ++ [x]) (List.length l) = Some x.
Proof.
  rewrite nth_error_app2 by lia. rewrite Nat.sub_diag. reflexivity.
Qed.

(** A call of [fetchLogs] that returns in the scripted world, seen from
    the moment its request has left: the answers of the script, taken as
    events of the event loop, lead the activation to settle with the
    same variables, and the requests of the call, with their answers,
    are the ones it has added. *)
Lemma fetchLogs_is_a_run
    (fuel : nat) (st st' : TailState) (w w' : World) :
  fetchLogs red green yellow fuel region logGroup logStream st w
  = (Returned st', w') ->
  forall settled earlier done,
  exists schedule new done',
    Forall (fun ev => ev <> Interval.TimerFires) schedule
    /\ output w' = (output w ++ new)%list
    /\ Interval.run red green yellow region logGroup logStream schedule
         (Interval.mkTail st
            (settled ++ [Interval.AwaitsAnswer (List.length earlier)])
            (earlier ++ [(startTime st, None)]) done None)
       = Some (Interval.mkTail st' (settled ++ [Interval.Settled])
                 (earlier ++ exchanges new) done' None).
Proof.
  revert st w. induction fuel as [ | fuel IH ]; intros st w; cbn [fetchLogs].
  - discriminate.
  - unfold bind.
    destruct (fetchLogsBody red green yellow region logGroup logStream st w)
      as [[[st1 | st1] | e | | ] w1] eqn:Hbody; try discriminate.
    + unfold ret. intros H. injection H as <- <-.
      destruct (fetchLogsBody_script _ _ _ _ Hbody)
        as [answer [post [Hout [Hpost [events [-> Hproc]]]]]].
      intros settled earlier done.
      exists [Interval.RequestSettles (List.length settled) (Ok events)].
      eexists. eexists.
      split; [ repeat constructor; discriminate | ].
      split; [ exact Hout | ].
      cbn [Interval.run]. unfold Interval.step.
      cbn [Interval.ended Interval.activations].
      rewrite nth_error_last.
      unfold Interval.settle at 1.
      cbn [Interval.closure Interval.requests Interval.activations
           Interval.effects Interval.ended].
      rewrite Hproc.
      unfold Interval.moveOn, Interval.settle.
      cbn [Interval.closure Interval.requests Interval.activations
           Interval.effects Interval.ended].
      rewrite nth_middle, !replace_last. cbn [fst].
      change (exchanges (?o :: post)) with (exchangeOf o ++ exchanges post)%list.
      rewrite Hpost. reflexivity.
    + destruct (fetchLogsBody_script _ _ _ _ Hbody)
        as [answer [post [Hout [Hpost [error [answers [-> [Hexp ->]]]]]]]].
      intros Hrec settled earlier done.
      destruct (IH _ _ Hrec settled
                  (earlier ++ [(startTime st, Some (Thrown error))])%list
                  ((((done
                     ++ [ConsoleLog
                           (red "The security token is expired or invalid. Requesting new credentials.");
                         ConsoleLog
                           (red "The security token is expired. Requesting new credentials.");
                         ConsoleLog "Prompting user for AWS credentials...";
                         CredentialsPrompt])
                    ++ [WriteConfig (Interval.enteredCredentials answers)])
                   ++ [])
                   ++ [FilterLogEvents region
                         (credentials
                            (refreshCredentials st
                               (Interval.enteredCredentials answers)))
                         logGroup logStream MAX_FETCH_LINES
                         (startTime
                            (refreshCredentials st
                               (Interval.enteredCredentials answers)))
                         None])%list)
        as [schedule [new [done' [Htimer [Hout' Hrun]]]]].
      exists (Interval.RequestSettles (List.length settled) (Thrown error)
              :: Interval.PromptSettles (List.length settled) (Ok answers)
              :: Interval.WriteSettles (List.length settled) None
              :: schedule).
      exists (FilterLogEvents region (credentials st) logGroup logStream
                MAX_FETCH_LINES (startTime st) (Some (Thrown error))
              :: post ++ new)%list.
      exists done'.
      split; [ repeat (constructor; [ discriminate | ]); exact Htimer | ].
      split; [ rewrite Hout', Hout, <- app_assoc; reflexivity | ].
      cbn [Interval.run]. unfold Interval.step at 1.
      cbn [Interval.ended Interval.activations].
      rewrite nth_error_last. unfold Interval.catchBlock. rewrite Hexp.
      unfold Interval.moveOn, Interval.settle.
      cbn [Interval.closure Interval.requests Interval.activations
           Interval.effects Interval.ended].
      rewrite nth_middle, !replace_last. cbn [fst].
      unfold Interval.step at 1.
      cbn [Interval.ended Interval.activations].
      rewrite nth_error_last.
      unfold Interval.moveOn.
      cbn [Interval.closure Interval.requests Interval.activations
           Interval.effects Interval.ended].
      rewrite !replace_last.
      unfold Interval.step at 1.
      cbn [Interval.ended Interval.activations].
      rewrite nth_error_last.
      unfold Interval.sendRequest, Interval.moveOn.
      cbn [Interval.closure Interval.requests Interval.activations
           Interval.effects Interval.ended].
      rewrite !replace_last.
      rewrite length_app in Hrun. cbn [List.length] in Hrun.
      rewrite Nat.add_comm in Hrun. cbn [Nat.add] in Hrun.
      rewrite length_app. cbn [List.length].
      rewrite (Nat.add_comm _ 1). cbn [Nat.add].
      rewrite Hrun. f_equal. f_equal.
      change (exchanges (?o :: ?l)) with (exchangeOf o ++ exchanges l)%list.
      rewrite exchanges_app, Hpost. cbn [exchangeOf app]. rewrite <- app_assoc. reflexivity.
Qed.

Lemma poll_is_a_run
    (ticks fuel : nat) (st st' : TailState) (w w' : World) :
  poll red green yellow ticks fuel region logGroup logStream st w
  = (Returned st', w') ->
  forall settled earlier done,
  Forall (fun stage => stage = Interval.Settled) settled ->
  exists schedule new done' settled',
    output w' = (output w ++ new)%list
    /\ Forall (fun stage => stage = Interval.Settled) settled'
    /\ List.length settled' = (List.length settled + ticks)%nat
    /\ Interval.run red green yellow region logGroup logStream schedule
         (Interval.mkTail st settled earlier done None)
       = Some (Interval.mkTail st' settled' (earlier ++ exchanges new)
                 done' None)
    /\ serial red green yellow region logGroup logStream schedule
         (Interval.mkTail st settled earlier done None)
       = true.
Proof.
  revert st w. induction ticks as [ | ticks IH ]; intros st w; cbn [poll].
  - unfold ret. intros H. injection H as <- <-.
    intros settled earlier done Hsettled.
    exists [], [], done, settled.
    rewrite !app_nil_r, Nat.add_0_r. cbn. auto.
  - unfold bind.
    destruct (fetchLogs red green yellow fuel region logGroup logStream st w)
      as [[st1 | e | | ] w1] eqn:Hfetch; try discriminate.
    intros Hrec settled earlier done Hsettled.
    destruct (fetchLogs_is_a_run _ _ _ _ _ Hfetch settled earlier
                (done
                 ++ [FilterLogEvents region (credentials st) logGroup
                       logStream MAX_FETCH_LINES (startTime st) None])%list)
      as [first [new1 [done1 [Htimer [Hout1 Hrun1]]]]].
    destruct (IH _ _ Hrec (settled ++ [Interval.Settled])%list
                (earlier ++ exchanges new1)%list done1
                (settled_snoc _ Hsettled))
      as [second [new2 [done2 [settled2
            [Hout2 [Hsettled2 [Hlen2 [Hrun2 Hserial2]]]]]]]].
    exists (Interval.TimerFires :: first ++ second)%list.
    exists (new1 ++ new2)%list, done2, settled2.
    split; [ rewrite Hout2, Hout1, app_assoc; reflexivity | ].
    split; [ exact Hsettled2 | ].
    split; [ rewrite Hlen2, length_app; cbn [List.length]; lia | ].
    rewrite exchanges_app, app_assoc. split.
    + cbn [Interval.run]. unfold Interval.step, Interval.sendRequest.
      cbn [Interval.closure Interval.requests Interval.activations
           Interval.effects Interval.ended].
      rewrite run_app, Hrun1. exact Hrun2.
    + cbn [serial]. unfold idle at 1. cbn [Interval.activations].
      rewrite (idle_settled _ Hsettled).
      unfold Interval.step, Interval.sendRequest.
      cbn [Interval.closure Interval.requests Interval.activations
           Interval.effects Interval.ended].
      apply (serial_app _ _ _ _ Hrun1).
      * apply serial_without_timer. exact Htimer.
      * exact Hserial2.
Qed.

(** What is proved of [poll] is proved of the timer: every run of
    [poll] in the scripted world that returns is a run of the timer in
    which no fetch starts while another is under way.  The answers of
    the script, taken as events of the event loop, lead from the same
    start to the same variables with every activation settled, and the
    requests sent, with their answers, are the same. *)
Theorem poll_is_the_timer_without_overlap
    (ticks fuel : nat) (st st' : TailState) (w w' : World) :
  poll red green yellow ticks fuel region logGroup logStream st w
  = (Returned st', w') ->
  exists schedule t',
    Interval.run red green yellow region logGroup logStream schedule
      (Interval.start st)
    = Some t'
    /\ serial red green yellow region logGroup logStream schedule
         (Interval.start st)
       = true
    /\ Interval.closure t' = st'
    /\ Interval.ended t' = None
    /\ idle t' = true
    /\ List.length (Interval.activations t') = ticks
    /\ exists new,
         output w' = (output w ++ new)%list
         /\ Interval.requests t' = exchanges new.
Proof.
  intros Hrun.
  destruct (poll_is_a_run _ _ _ _ _ _ Hrun [] [] [] (Forall_nil _))
    as [schedule [new [done' [settled'
          [Hout [Hsettled [Hlen [Hrun' Hserial]]]]]]]].
  exists schedule. eexists. split; [ exact Hrun' | ].
  split; [ exact Hserial | ].
  cbn [Interval.closure Interval.ended Interval.requests
       Interval.activations app].
  repeat split.
  - exact (idle_settled _ Hsettled).
  - exact Hlen.
  - exists new. auto.
Qed.

End SerialRuns.

(* ================================================================= *)
(** ** The main-group menu and the navigator *)

Section MainGroupProperties.
Import JsString Groups Cli Nav Entry.

Lemma split_whole (s : string) (c : ascii) :
  ~ occurs c s -> split s c = [s].
Proof.
  induction s as [ | a s IH ]; cbn [split]; [ reflexivity | ].
  intros Hno. destruct (Ascii.eqb_spec a c) as [-> | Hne].
  - exfalso. apply Hno. left. reflexivity.
  - rewrite IH; [ reflexivity | ]. intros Hin. apply Hno. right. exact Hin.
Qed.

Lemma split_first (a b : string) (c : ascii) :
  ~ occurs c a -> split (a ++ String c b) c = a :: split b c.
Proof.
  induction a as [ | x a IH ]; cbn [append split].
  - intros _. rewrite Ascii.eqb_refl. reflexivity.
  - intros Hno. destruct (Ascii.eqb_spec x c) as [-> | Hne].
    + exfalso. apply Hno. left. reflexivity.
    + rewrite IH; [ reflexivity | ]. intros Hin. apply Hno. right. exact Hin.
Qed.

Lemma mainGroups_In (listing : list LogGroup) (group : LogGroup) :
  In group listing -> In (mainGroupOf group) (mainGroups listing).
Proof.
  intros Hin. unfold mainGroups. apply arrayFromSet_In, in_map, Hin.
Qed.

(** A listed group whose name is a slash, a first component without a
    slash, and then nothing or a further slash: the main menu offers
    that first component, and with it as main group the first step of
    the navigator keeps the group. *)
Theorem main_menu_leads_to_the_group
    (listing : list LogGroup) (group : LogGroup) (first rest : string) :
  In group listing ->
  logGroupName group = "/" ++ first ++ rest ->
  ~ occurs "/" first ->
  rest = EmptyString \/ (exists r, rest = "/" ++ r) ->
  mainGroupOf group = first
  /\ In first (mainGroups listing)
  /\ In group (matchingGroups listing first EmptyString).
Proof.
  intros Hin Hname Hno Hrest.
  assert (Hmain : mainGroupOf group = first).
  { unfold mainGroupOf. rewrite Hname.
    change ("/" ++ first ++ rest) with (EmptyString ++ String "/" (first ++ rest)).
    rewrite split_first by (intros []).
    destruct Hrest as [-> | [r ->]].
    - rewrite app_nil_string, split_whole by exact Hno. reflexivity.
    - change (first ++ "/" ++ r) with (first ++ String "/" r).
      rewrite split_first by exact Hno. reflexivity. }
  split; [ exact Hmain | ]. split.
  - rewrite <- Hmain. apply mainGroups_In, Hin.
  - unfold matchingGroups. apply filter_In. split; [ exact Hin | ].
    rewrite Hname. unfold groupPath. rewrite app_nil_string.
    cbn [append]. exact (startsWith_app (String "/" first) rest).
Qed.

End MainGroupProperties.

Section UnreachableGroups.
Import JsString Groups Cli Nav Entry.
Variable red : string -> string.
Variable localTZA : Z -> Z.

(** A listed group whose name holds no slash is offered in the main
    menu under its own name, and yet no run of the navigator, whatever
    main group and prefix it is given and whatever the operator picks,
    returns it. *)
Theorem group_without_slash_is_offered_but_never_returned
    (listing : list LogGroup) (group : LogGroup)
    (fuel : nat) (region : string) (credentials : Credentials)
    (mainLogGroup prefix : string) (w w' : World) (path : string) :
  In group listing ->
  ~ occurs "/" (logGroupName group) ->
  getLogGroup red localTZA fuel region credentials mainLogGroup prefix w
  = (Returned path, w') ->
  In (logGroupName group) (mainGroups listing)
  /\ path <> logGroupName group.
Proof.
  intros Hin Hno Hrun. split.
  - replace (logGroupName group) with (mainGroupOf group).
    + apply mainGroups_In, Hin.
    + unfold mainGroupOf. rewrite split_whole by exact Hno. reflexivity.
  - destruct (getLogGroup_returned red localTZA _ _ _ _ _ _ _ _ Hrun)
      as [pages [found [_ [_ [_ Hstarts]]]]].
    intros ->. destruct (startsWith_inv _ _ Hstarts) as [r Hr].
    apply Hno. rewrite Hr. left. reflexivity.
Qed.

End UnreachableGroups.

Section MainMenuProperties.
Import JsString Groups Cli Nav Entry.
Variable red : string -> string.

Lemma getMainLogGroupBody_returned
    (region : string) (credentials : Credentials)
    (w w' : World) (next : MainNext) :
  getMainLogGroupBody red region credentials w = (Returned next, w') ->
  logGroupReplies w' = List.tl (logGroupReplies w)
  /\ ((exists answers, next = MainAgain (credentialsOf answers))
      \/ (exists pages later mainLogGroup,
            logGroupReplies w = Ok pages :: later
            /\ In mainLogGroup (mainGroups (List.concat pages))
            /\ next = MainDone mainLogGroup)).
Proof.
  unfold getMainLogGroupBody.
  unfold bind at 1. unfold emit at 1. unfold bind at 1. unfold emit at 1.
  unfold tryCatch. unfold bind at 1. unfold fetchAllLogGroups.
  cbn [logGroupReplies logStreamReplies logEventReplies menuReplies
       credentialReplies now output].
  assert (Hhandler : forall e w1,
             (emit SpinnerStop;;
              (if isExpiredToken e
               then
                 emit (ConsoleLog
                         (red "The security token is expired or invalid. Requesting new credentials."));;
                 newCredentials <- handleExpiredToken red region;;
                 ret (MainAgain newCredentials)
               else
                 throw (AWSError
                          ("An error occurred while fetching main log groups: "
                           ++ Err.message e))))%cli w1
             = (Returned next, w') ->
             logGroupReplies w' = logGroupReplies w1
             /\ exists answers, next = MainAgain (credentialsOf answers)).
  { intros e w1.
    unfold bind, emit, handleExpiredToken, getCredentialsFromUser,
      storeCredentials, credentialsPrompt, ret, throw.
    cbn [fst snd logGroupReplies logStreamReplies logEventReplies menuReplies
         credentialReplies now output].
    destruct (isExpiredToken e); [ | intros H; discriminate H ].
    destruct (credentialReplies w1) as [ | answers more ];
      intros H; inversion H; subst.
    split; [ reflexivity | eexists; reflexivity ]. }
  destruct (logGroupReplies w) as [ | [pages | e] later ] eqn:Hreplies.
  - intros H. discriminate H.
  - unfold bind at 1. unfold emit at 1.
    destruct (List.length (List.concat pages) =? 0)%nat.
    + unfold throw at 1. intros H. apply Hhandler in H.
      destruct H as [-> Hnext]. split; [ reflexivity | left; exact Hnext ].
    + unfold bind at 1. unfold listPrompt.
      cbn [logGroupReplies logStreamReplies logEventReplies menuReplies
           credentialReplies now output].
      destruct (menuReplies w) as [ | [index | e] replies ].
      * intros H. discriminate H.
      * destruct (nth_error _ index) as [choice | ] eqn:Hnth;
          [ | intros H; discriminate H ].
        unfold ret. intros H. inversion H. subst.
        split; [ reflexivity | ]. right. exists pages, later, (value choice).
        split; [ reflexivity | ]. split; [ | reflexivity ].
        apply nth_error_In, in_map_iff in Hnth.
        destruct Hnth as [group [<- Hin]]. exact Hin.
      * intros H. apply Hhandler in H.
        destruct H as [-> Hnext]. split; [ reflexivity | left; exact Hnext ].
  - intros H. apply Hhandler in H.
    destruct H as [-> Hnext]. split; [ reflexivity | left; exact Hnext ].
Qed.

(** Whatever the operator does: what [getMainLogGroup] returns is the
    main group of a log group that one of the listings of the run
    contains. *)
Theorem main_menu_returns_a_main_group
    (fuel : nat) (region : string) (credentials : Credentials)
    (w w' : World) (mainLogGroup : string) :
  getMainLogGroup red fuel region credentials w = (Returned mainLogGroup, w') ->
  exists pages group,
    In (Ok pages) (logGroupReplies w)
    /\ In group (List.concat pages)
    /\ mainGroupOf group = mainLogGroup.
Proof.
  revert credentials w.
  induction fuel as [ | fuel IH ]; intros credentials w; cbn [getMainLogGroup].
  - discriminate.
  - unfold bind.
    destruct (getMainLogGroupBody red region credentials w)
      as [[next | e | | ] w1] eqn:Hbody; try discriminate.
    destruct (getMainLogGroupBody_returned _ _ _ _ _ Hbody) as [Htl Hcases].
    destruct next as [done | credentials'].
    + unfold ret. intros H. injection H as <- <-.
      destruct Hcases as [[answers Habs] | [pages [later [m [Hrep [Hin Hdone]]]]]];
        [ discriminate Habs | ].
      injection Hdone as ->.
      unfold mainGroups in Hin. apply arrayFromSet_In, in_map_iff in Hin.
      destruct Hin as [group [Hmain Hgroup]].
      exists pages, group. rewrite Hrep.
      split; [ left; reflexivity | ]. auto.
    + intros Hrec. destruct (IH _ _ Hrec) as [pages [group [Hin Hrest]]].
      exists pages, group. split; [ | exact Hrest ].
      rewrite Htl in Hin. exact (In_tl _ _ Hin).
Qed.

End MainMenuProperties.

(* ================================================================= *)
(** ** Acquiring credentials *)

Section ConfigProperties.
Import Creds Config.
Variable red : string -> string.

Lemma lookup_assign_same
    (key : string) (v : jsval) (props : list (string * jsval)) :
  lookup key (assign key v props) = v.
Proof.
  induction props as [ | [k x] rest IH ]; cbn [assign lookup].
  - rewrite String.eqb_refl. reflexivity.
  - destruct (String.eqb k key) eqn:Hk; cbn [lookup]; rewrite Hk.
    + reflexivity.
    + exact IH.
Qed.

Lemma lookup_assign_other
    (key other : string) (v : jsval) (props : list (string * jsval)) :
  other <> key ->
  lookup other (assign key v props) = lookup other props.
Proof.
  intros Hne. induction props as [ | [k x] rest IH ]; cbn [assign lookup].
  - destruct (String.eqb_spec key other); [ congruence | reflexivity ].
  - destruct (String.eqb_spec k key) as [-> | Hk]; cbn [lookup].
    + destruct (String.eqb_spec key other); [ congruence | reflexivity ].
    + destruct (String.eqb k other); [ reflexivity | exact IH ].
Qed.

(** Only an object passes validation. *)
Lemma valid_is_object (credentials : jsval) :
  truthy (validateCredentials credentials) = true ->
  exists props, credentials = JObj props.
Proof.
  unfold validateCredentials. rewrite !truthy_jsAnd, !andb_true_iff.
  intros [[[[[[_ Hkey] _] _] _] _] _].
  destruct credentials; cbn in Hkey; try discriminate Hkey.
  eexists. reflexivity.
Qed.

(** The first steps of [checkAWSConfig] when valid credentials are
    stored: they are loaded and nothing is asked. *)
Lemma checkAWSConfig_stored (w : ConfigWorld) (stored : jsval) :
  configFile w = Some stored ->
  truthy (validateCredentials stored) = true ->
  checkAWSConfig red w
  = (if negb (truthy (get stored "sessionToken")) then
       bind (generateSessionToken stored)
         (fun generated =>
            match snd generated with
            | Thrown _ =>
                bind (emit (Log (red "Failed to get session token. Please check your AWS credentials.")))
                     (fun _ => ret (fst generated))
            | Ok credentials =>
                bind (attempt (storeCredentials credentials))
                  (fun stored =>
                     match stored with
                     | Thrown _ =>
                         bind (emit (Log (red "Failed to get session token. Please check your AWS credentials.")))
                              (fun _ => ret credentials)
                     | Ok _ => ret credentials
                     end)
            end)
     else ret stored)
      (mkConfigWorld (configFile w) (stsReplies w) (answerReplies w)
         (writeReplies w) (done w ++ [Log "Checking AWS Config..."])).
Proof.
  intros Hfile Hvalid.
  unfold checkAWSConfig. unfold bind at 1. unfold emit at 1.
  unfold bind at 1. unfold bind at 1.
  unfold loadStoredCredentials. cbn [configFile].
  rewrite Hfile, Hvalid, Hvalid. cbn [negb]. unfold ret at 1.
  reflexivity.
Qed.

(** Once it holds credentials, [checkAWSConfig] no longer throws. *)
Lemma token_step_never_throws
    (credentials : jsval) (w w' : ConfigWorld) (e : JsError) :
  (if negb (truthy (get credentials "sessionToken")) then
     bind (generateSessionToken credentials)
       (fun generated =>
          match snd generated with
          | Thrown _ =>
              bind (emit (Log (red "Failed to get session token. Please check your AWS credentials.")))
                   (fun _ => ret (fst generated))
          | Ok credentials =>
              bind (attempt (storeCredentials credentials))
                (fun stored =>
                   match stored with
                   | Thrown _ =>
                       bind (emit (Log (red "Failed to get session token. Please check your AWS credentials.")))
                            (fun _ => ret credentials)
                   | Ok _ => ret credentials
                   end)
          end)
   else ret credentials) w <> (Cli.Threw e, w').
Proof.
  destruct (negb (truthy (get credentials "sessionToken")));
    [ | unfold ret; discriminate ].
  unfold generateSessionToken, sendGetSessionToken, storeCredentials,
    attempt, bind, emit, ret.
  cbn [stsReplies configFile answerReplies writeReplies done].
  destruct (stsReplies w) as [ | [token | e1] rest ]; try discriminate.
  destruct (writeReplies w) as [ | [e1 | ] [ | [e2 | ] later ] ];
    cbn [List.tl snd fst]; discriminate.
Qed.

(** Stored credentials that pass validation and carry a session token
    are returned as they are: nothing is asked, requested or written. *)
Theorem stored_session_is_reused
    (w : ConfigWorld) (stored : jsval) :
  configFile w = Some stored ->
  truthy (validateCredentials stored) = true ->
  truthy (get stored "sessionToken") = true ->
  checkAWSConfig red w
  = (Cli.Returned stored,
     mkConfigWorld (configFile w) (stsReplies w) (answerReplies w)
                   (writeReplies w)
                   (done w ++ [Log "Checking AWS Config..."])).
Proof.
  intros Hfile Hvalid Htoken.
  rewrite (checkAWSConfig_stored w stored Hfile Hvalid), Htoken.
  reflexivity.
Qed.

(** Stored credentials that pass validation but carry no session token,
    while the config file can be written: when STS issues a token, the
    result is the stored object with [sessionToken] set to it and every
    other property as it was, it still passes validation, and it is
    written to the config file twice; when STS fails, the stored
    object is returned unchanged after a warning and nothing is
    written. *)
Theorem session_token_is_requested_when_missing
    (w : ConfigWorld) (stored : jsval) (reply : result string)
    (later : list (result string)) :
  configFile w = Some stored ->
  truthy (validateCredentials stored) = true ->
  truthy (get stored "sessionToken") = false ->
  stsReplies w = reply :: later ->
  hd None (writeReplies w) = None ->
  hd None (tl (writeReplies w)) = None ->
  let request :=
    GetSessionToken (get stored "region") (get stored "accessKeyId")
                    (get stored "secretAccessKey") 3600 in
  match reply with
  | Ok token =>
      let result := setProp stored "sessionToken" (JStr token) in
      checkAWSConfig red w
      = (Cli.Returned result,
         mkConfigWorld (configFile w) later (answerReplies w)
           (tl (tl (writeReplies w)))
           (done w ++ [Log "Checking AWS Config..."; request;
                       WriteFile result; WriteFile result]))
      /\ get result "sessionToken" = JStr token
      /\ (forall key, key <> "sessionToken" ->
                      get result key = get stored key)
      /\ truthy (validateCredentials result) = true
  | Thrown e =>
      checkAWSConfig red w
      = (Cli.Returned stored,
         mkConfigWorld (configFile w) later (answerReplies w)
           (writeReplies w)
           (done w ++ [Log "Checking AWS Config..."; request;
                       Log (red "Failed to get session token. Please check your AWS credentials.")]))
  end.
Proof.
  intros Hfile Hvalid Htoken Hsts Hfirst Hsecond request. subst request.
  rewrite (checkAWSConfig_stored w stored Hfile Hvalid), Htoken.
  cbn [negb].
  destruct reply as [token | e].
  - cbn zeta. repeat split.
    + unfold generateSessionToken, sendGetSessionToken, storeCredentials,
        attempt, bind, emit, ret.
      cbn [stsReplies configFile answerReplies writeReplies done].
      rewrite Hsts.
      destruct (writeReplies w) as [ | [e1 | ] [ | [e2 | ] laterW ] ];
        cbn [hd List.tl] in Hfirst, Hsecond; try discriminate;
        cbn [List.tl snd fst stsReplies configFile answerReplies
             writeReplies done];
        rewrite <- !app_assoc; reflexivity.
    + destruct (valid_is_object _ Hvalid) as [props ->].
      cbn [setProp get]. apply lookup_assign_same.
    + intros key Hkey. destruct (valid_is_object _ Hvalid) as [props ->].
      cbn [setProp get]. apply lookup_assign_other. exact Hkey.
    + destruct (valid_is_object _ Hvalid) as [props ->].
      unfold validateCredentials in *. cbn [setProp get] in *.
      rewrite !lookup_assign_other by discriminate. exact Hvalid.
  - unfold generateSessionToken, sendGetSessionToken, attempt, bind,
      emit, ret.
    cbn [stsReplies configFile answerReplies writeReplies done].
    rewrite Hsts.
    cbn [List.tl snd fst stsReplies configFile answerReplies
         writeReplies done].
    rewrite <- !app_assoc. reflexivity.
Qed.

(** When STS issues a token but one of the two writes of the config
    file that follow fails, [checkAWSConfig] neither throws nor writes
    again: it prints the warning that the session token could not be
    obtained, and yet returns the stored object with the token set,
    because the token was assigned to that object before the write. *)
Theorem token_survives_a_failed_write
    (w : ConfigWorld) (stored : jsval) (token : string)
    (later : list (result string)) (succeeded : list (option JsError))
    (e : JsError) (laterWrites : list (option JsError)) :
  configFile w = Some stored ->
  truthy (validateCredentials stored) = true ->
  truthy (get stored "sessionToken") = false ->
  stsReplies w = Ok token :: later ->
  writeReplies w = (succeeded ++ Some e :: laterWrites)%list ->
  succeeded = [] \/ succeeded = [None] ->
  let result := setProp stored "sessionToken" (JStr token) in
  checkAWSConfig red w
  = (Cli.Returned result,
     mkConfigWorld (configFile w) later (answerReplies w) laterWrites
       (done w
        ++ [Log "Checking AWS Config...";
            GetSessionToken (get stored "region") (get stored "accessKeyId")
                            (get stored "secretAccessKey") 3600]
        ++ List.map (fun _ => WriteFile result) succeeded
        ++ [WriteFile result;
            Log (red "Failed to get session token. Please check your AWS credentials.")])).
Proof.
  intros Hfile Hvalid Htoken Hsts Hwrites Hsucceeded result. subst result.
  rewrite (checkAWSConfig_stored w stored Hfile Hvalid), Htoken.
  cbn [negb].
  unfold generateSessionToken, sendGetSessionToken, storeCredentials,
    attempt, bind, emit, ret.
  cbn [stsReplies configFile answerReplies writeReplies done].
  rewrite Hsts, Hwrites.
  destruct Hsucceeded as [-> | ->];
    cbn [app List.map List.tl snd fst stsReplies configFile answerReplies
         writeReplies done];
    rewrite <- !app_assoc; reflexivity.
Qed.

(** [checkAWSConfig] throws exactly when no stored credentials pass
    validation and either the prompt for credentials rejects or the
    write of what was entered fails; the error is then that rejection
    or that failure.  No failure of STS, and no failure to write the
    session token, makes it throw. *)
Theorem checkAWSConfig_throws_only_on_entered_credentials
    (w : ConfigWorld) (e : JsError) :
  (exists w', checkAWSConfig red w = (Cli.Threw e, w'))
  <-> (configFile w = None
       \/ exists stored,
            configFile w = Some stored
            /\ truthy (validateCredentials stored) = false)
      /\ ((exists later, answerReplies w = Thrown e :: later)
          \/ (exists answers later laterWrites,
                answerReplies w = Ok answers :: later
                /\ writeReplies w = Some e :: laterWrites)).
Proof.
  split.
  - intros [w' H].
    destruct (configFile w) as [stored | ] eqn:Hfile.
    + destruct (truthy (validateCredentials stored)) eqn:Hvalid.
      * rewrite (checkAWSConfig_stored w stored Hfile Hvalid) in H.
        exfalso. exact (token_step_never_throws _ _ _ _ H).
      * split; [ right; exists stored; auto | ].
        revert H. unfold checkAWSConfig. unfold bind at 1. unfold emit at 1.
        unfold bind at 1. unfold bind at 1.
        unfold loadStoredCredentials. cbn [configFile].
        rewrite Hfile, Hvalid.
        cbn [validateCredentials jsAnd truthy negb].
        unfold getCredentialsFromUser.
        unfold bind at 1. unfold bind at 1. unfold emit at 1.
        unfold bind at 1.
        cbn [stsReplies configFile answerReplies writeReplies done].
        destruct (answerReplies w) as [ | [answers | e1] rest ].
        -- intros H. discriminate H.
        -- unfold ret at 1. unfold bind at 1. unfold storeCredentials.
           cbn [stsReplies configFile answerReplies writeReplies done].
           destruct (writeReplies w) as [ | [e1 | ] laterWrites ].
           ++ unfold bind at 1. unfold ret at 1.
              intros H. exfalso. exact (token_step_never_throws _ _ _ _ H).
           ++ intros H. injection H as <- _. right.
              exists answers, rest, laterWrites. auto.
           ++ unfold bind at 1. unfold ret at 1.
              intros H. exfalso. exact (token_step_never_throws _ _ _ _ H).
        -- intros H. injection H as <- _. left. exists rest. reflexivity.
    + split; [ left; reflexivity | ].
      revert H. unfold checkAWSConfig. unfold bind at 1. unfold emit at 1.
      unfold bind at 1. unfold bind at 1.
      unfold loadStoredCredentials. cbn [configFile].
      rewrite Hfile.
      cbn [validateCredentials jsAnd truthy negb].
      unfold getCredentialsFromUser.
      unfold bind at 1. unfold bind at 1. unfold emit at 1.
      unfold bind at 1.
      cbn [stsReplies configFile answerReplies writeReplies done].
      destruct (answerReplies w) as [ | [answers | e1] rest ].
      * intros H. discriminate H.
      * unfold ret at 1. unfold bind at 1. unfold storeCredentials.
        cbn [stsReplies configFile answerReplies writeReplies done].
        destruct (writeReplies w) as [ | [e1 | ] laterWrites ].
        -- unfold bind at 1. unfold ret at 1.
           intros H. exfalso. exact (token_step_never_throws _ _ _ _ H).
        -- intros H. injection H as <- _. right.
           exists answers, rest, laterWrites. auto.
        -- unfold bind at 1. unfold ret at 1.
           intros H. exfalso. exact (token_step_never_throws _ _ _ _ H).
      * intros H. injection H as <- _. left. exists rest. reflexivity.
  - intros [Hfile Hfails].
    assert (Hload : loadStoredCredentials
                      (mkConfigWorld (configFile w) (stsReplies w)
                         (answerReplies w) (writeReplies w)
                         (done w ++ [Log "Checking AWS Config..."]))
                    = (Cli.Returned JNull,
                       mkConfigWorld (configFile w) (stsReplies w)
                         (answerReplies w) (writeReplies w)
                         (done w ++ [Log "Checking AWS Config..."]))).
    { unfold loadStoredCredentials. cbn [configFile].
      destruct Hfile as [-> | [stored [-> ->]]]; reflexivity. }
    unfold checkAWSConfig. unfold bind at 1. unfold emit at 1.
    unfold bind at 1. unfold bind at 1. rewrite Hload.
    cbn [validateCredentials jsAnd truthy negb].
    unfold getCredentialsFromUser.
    unfold bind at 1. unfold bind at 1. unfold emit at 1. unfold bind at 1.
    cbn [stsReplies configFile answerReplies writeReplies done].
    destruct Hfails as [[later ->] | [answers [later [laterWrites [-> Hw]]]]].
    + eexists. reflexivity.
    + unfold ret at 1. unfold bind at 1. unfold storeCredentials.
      cbn [stsReplies configFile answerReplies writeReplies done].
      rewrite Hw. eexists. reflexivity.
Qed.

(** What the operator enters is not validated.  When no stored
    credentials pass validation, the operator enters a session token
    and the config file can be written, whatever keys were entered,
    blank ones included, are written to the config file and returned,
    and STS is not asked for anything. *)
Theorem entered_credentials_are_stored_unchecked
    (w : ConfigWorld) (answers : Cli.Answers)
    (later : list (result Cli.Answers)) :
  configFile w = None
  \/ (exists stored,
        configFile w = Some stored
        /\ truthy (validateCredentials stored) = false) ->
  answerReplies w = Ok answers :: later ->
  hd None (writeReplies w) = None ->
  Cli.ansSessionToken answers <> EmptyString ->
  checkAWSConfig red w
  = (Cli.Returned (credentialsObject answers),
     mkConfigWorld (configFile w) (stsReplies w) later
       (tl (writeReplies w))
       (done w ++ [Log "Checking AWS Config...";
                   Log "Prompting user for AWS credentials...";
                   AskCredentials;
                   WriteFile (credentialsObject answers)])).
Proof.
  intros Hfile Hanswers Hwrite Htoken.
  assert (Hload : loadStoredCredentials
                    (mkConfigWorld (configFile w) (stsReplies w)
                       (answerReplies w) (writeReplies w)
                       (done w ++ [Log "Checking AWS Config..."]))
                  = (Cli.Returned JNull,
                     mkConfigWorld (configFile w) (stsReplies w)
                       (answerReplies w) (writeReplies w)
                       (done w ++ [Log "Checking AWS Config..."]))).
  { unfold loadStoredCredentials. cbn [configFile].
    destruct Hfile as [-> | [stored [-> ->]]]; reflexivity. }
  unfold checkAWSConfig. unfold bind at 1. unfold emit at 1.
  unfold bind at 1. unfold bind at 1. rewrite Hload.
  cbn [validateCredentials jsAnd truthy negb].
  unfold getCredentialsFromUser.
  unfold bind at 1. unfold bind at 1. unfold emit at 1. unfold bind at 1.
  cbn [stsReplies configFile answerReplies writeReplies done].
  rewrite Hanswers.
  unfold ret at 1. unfold bind at 1. unfold storeCredentials.
  cbn [stsReplies configFile answerReplies writeReplies done].
  assert (Hhas : truthy (get (credentialsObject answers) "sessionToken")
                 = true).
  { unfold credentialsObject. cbn [get lookup String.eqb Ascii.eqb Bool.eqb].
    destruct (String.eqb_spec (Cli.ansSessionToken answers) EmptyString)
      as [Heq | Hne]; [ contradiction | ].
    cbn [truthy]. apply negb_true_iff, String.eqb_neq, Hne. }
  destruct (writeReplies w) as [ | [e1 | ] laterWrites ];
    cbn [hd] in Hwrite; try discriminate;
    unfold bind at 1; unfold ret at 1; rewrite Hhas; cbn [negb]; unfold ret;
    cbn [List.tl]; rewrite <- !app_assoc; reflexivity.
Qed.

End ConfigProperties.

(* ================================================================= *)
(** ** Instances *)


(** The walk ends with /a/e, a group of the listing. *)
Lemma navigator_returns_a_listed_group_witness :
  exists pages group,
    In (Ok pages) (Cli.logGroupReplies Sample.walkWorld)
    /\ In group (List.concat pages)
    /\ Groups.logGroupName group = "/a/e"
    /\ JsString.startsWith "/a/e" ("/" ++ "a") = true.
Proof.
  apply (navigator_returns_a_listed_group Sample.plain Sample.utc 4
           "eu-west-1" Sample.credentials "a" EmptyString Sample.walkWorld
           (snd (Cli.getLogGroup Sample.plain Sample.utc 4 "eu-west-1"
                   Sample.credentials "a" EmptyString Sample.walkWorld))).
  vm_compute. reflexivity.
Defined.

(** From the root into b/ and back. *)
Lemma back_undoes_a_descent_witness :
  Nav.parentPrefix ("/" ++ "b" ++ "/") = "/".
Proof.
  apply (back_undoes_a_descent "/" "b").
  - right. exists EmptyString. reflexivity.
  - discriminate.
  - intros [H | []]. discriminate H.
Defined.


(** One empty page of streams. *)
Lemma empty_stream_listing_fails_before_any_menu_witness :
  exists w',
    Cli.getLogStream Sample.plain Sample.utc 1 "eu-west-1" "/a/b/c"
      Sample.credentials Cases.noStreamsWorld
    = (Cli.Threw
         (AWSError
            "An error occurred while fetching log streams: No log streams found."),
       w')
    /\ Cli.output w'
       = (Cli.output Cases.noStreamsWorld
          ++ [Cli.ConsoleLog "Fetching log streams...";
              Cli.SpinnerStart "Fetching log streams...";
              Cli.DescribeLogStreams "eu-west-1" Sample.credentials "/a/b/c";
              Cli.SpinnerStop; Cli.SpinnerStop])%list
    /\ Cli.menuReplies w' = Cli.menuReplies Cases.noStreamsWorld
    /\ Cli.credentialReplies w' = Cli.credentialReplies Cases.noStreamsWorld.
Proof.
  apply (empty_stream_listing_fails_before_any_menu Sample.plain Sample.utc
           0 "eu-west-1" "/a/b/c" Sample.credentials Cases.noStreamsWorld
           [[]] []).
  - reflexivity.
  - reflexivity.
Defined.

(** A throttled listing. *)
Lemma navigator_on_failed_listing_witness :
  fst (Cli.getLogGroup Sample.plain Sample.utc 1 "eu-west-1"
         Sample.credentials "a" "/" Cases.throttledListingWorld)
  = Cli.Threw
      (AWSError "An error occurred while fetching log groups: Rate exceeded").
Proof.
  rewrite (proj1 (navigator_on_failed_listing Sample.plain Sample.utc 0
                    "eu-west-1" Sample.credentials "a" "/"
                    Cases.throttledListingWorld Cases.throttled []
                    eq_refl) eq_refl).
  reflexivity.
Defined.

(** A throttled first request, three ticks scheduled. *)
Lemma fatal_tick_ends_the_polling_witness :
  exists w',
    Cli.poll Sample.plain Sample.plain Sample.plain 3 1
      "eu-west-1" "/a/b/c" "stream-1" Sample.tailStart
      Cases.throttledTailWorld
    = (Cli.Threw
         (AWSError
            ("An error occurred while fetching log events: "
             ++ "Rate exceeded")), w')
    /\ Cli.output w'
       = (Cli.output Cases.throttledTailWorld
          ++ [Cli.FilterLogEvents "eu-west-1"
                (Cli.credentials Sample.tailStart) "/a/b/c" "stream-1"
                Cli.MAX_FETCH_LINES (Cli.startTime Sample.tailStart)
                (Some (Thrown Cases.throttled))])%list
    /\ Cli.logEventReplies w' = [Ok []].
Proof.
  apply (fatal_tick_ends_the_polling Sample.plain Sample.plain Sample.plain
           2 0 "eu-west-1" "/a/b/c" "stream-1" Sample.tailStart
           Cases.throttledTailWorld (Thrown Cases.throttled) [Ok []]
           "Rate exceeded").
  - reflexivity.
  - left. exists Cases.throttled. repeat split.
Defined.


(** The overlapping schedule from an empty buffer: the line of the
    event at 10 ms is on the screen twice. *)
Lemma polling_keeps_the_last_lines_witness :
  Cli.logBuffer (Interval.closure Cases.overlappingEnd)
  = ["[1970-01-01T00:00:00.010Z] line";
     "[1970-01-01T00:00:00.020Z] line";
     "[1970-01-01T00:00:00.010Z] line"]
  /\ exists lines,
       Trace.pushedBy Sample.plain Sample.plain
         (Cli.lastFetchHadEvents
            (Interval.closure (Interval.start Sample.zeroState)))
         (Trace.eventsAnswered Cases.overlappingSchedule)
       = Ok lines
       /\ Cli.logBuffer (Interval.closure Cases.overlappingEnd)
          = List.skipn
              (List.length
                 (Cli.logBuffer
                    (Interval.closure (Interval.start Sample.zeroState))
                  ++ lines) - 1000)
              (Cli.logBuffer
                 (Interval.closure (Interval.start Sample.zeroState))
               ++ lines)
       /\ Z.of_nat
            (List.length
               (Cli.logBuffer (Interval.closure Cases.overlappingEnd)))
          <= Cli.MAX_LOG_LINES.
Proof.
  split; [ vm_compute; reflexivity | ].
  apply (polling_keeps_the_last_lines
           Sample.plain Sample.plain Sample.plain
           "eu-west-1" "/a/b/c" "stream-1"
           Cases.overlappingSchedule (Interval.start Sample.zeroState)
           Cases.overlappingEnd).
  - vm_compute. reflexivity.
  - vm_compute. reflexivity.
  - vm_compute. discriminate.
Defined.

(** Two ticks without events, as run by [poll] and as run by the
    timer. *)
Lemma poll_is_the_timer_without_overlap_witness :
  exists schedule t',
    Interval.run Sample.plain Sample.plain Sample.plain
      "eu-west-1" "/a/b/c" "stream-1" schedule
      (Interval.start Sample.tailStart)
    = Some t'
    /\ Trace.serial Sample.plain Sample.plain Sample.plain
         "eu-west-1" "/a/b/c" "stream-1" schedule
         (Interval.start Sample.tailStart)
       = true
    /\ Cli.logBuffer (Interval.closure t')
       = ["No log events found."; "No log events found."].
Proof.
  destruct (poll_is_the_timer_without_overlap
              Sample.plain Sample.plain Sample.plain
              "eu-west-1" "/a/b/c" "stream-1" 2 1 Sample.tailStart
              (Cli.mkTailState
                 ["No log events found."; "No log events found."]
                 (1700000000000 - 10 * 60 * 1000) false Sample.credentials)
              (Sample.tailWorld [Ok []; Ok []])
              (snd (Cli.poll Sample.plain Sample.plain Sample.plain 2 1
                      "eu-west-1" "/a/b/c" "stream-1" Sample.tailStart
                      (Sample.tailWorld [Ok []; Ok []])))
              eq_refl)
    as [schedule [t' [Hrun [Hserial [Hclosure _]]]]].
  exists schedule, t'. split; [ exact Hrun | ].
  split; [ exact Hserial | ]. rewrite Hclosure. reflexivity.
Defined.

(** The group /a/b/c of the example is found under the main group a. *)
Lemma main_menu_leads_to_the_group_witness :
  Entry.mainGroupOf (Groups.mkLogGroup "/a/b/c" 1700000000000) = "a"
  /\ In "a" (Entry.mainGroups Sample.exampleGroups)
  /\ In (Groups.mkLogGroup "/a/b/c" 1700000000000)
        (Groups.matchingGroups Sample.exampleGroups "a" EmptyString).
Proof.
  apply (main_menu_leads_to_the_group Sample.exampleGroups
           (Groups.mkLogGroup "/a/b/c" 1700000000000) "a" "/b/c").
  - left. reflexivity.
  - reflexivity.
  - intros [H | []]. discriminate H.
  - right. exists "b/c". reflexivity.
Defined.

(** RDSOSMetrics is in the main menu; the walk returns another group. *)
Lemma group_without_slash_is_offered_but_never_returned_witness :
  In "RDSOSMetrics" (Entry.mainGroups Cases.mixedGroups)
  /\ "/a/e" <> "RDSOSMetrics".
Proof.
  apply (group_without_slash_is_offered_but_never_returned
           Sample.plain Sample.utc Cases.mixedGroups
           (Groups.mkLogGroup "RDSOSMetrics" 1700000000000)
           4 "eu-west-1" Sample.credentials "a" EmptyString Sample.walkWorld
           (snd (Cli.getLogGroup Sample.plain Sample.utc 4 "eu-west-1"
                   Sample.credentials "a" EmptyString Sample.walkWorld))
           "/a/e").
  - left. reflexivity.
  - cbn. intuition discriminate.
  - vm_compute. reflexivity.
Defined.

(** The main menu over the example offers a alone. *)
Lemma main_menu_returns_a_main_group_witness :
  exists pages group,
    In (Ok pages) (Cli.logGroupReplies Cases.mainMenuWorld)
    /\ In group (List.concat pages)
    /\ Entry.mainGroupOf group = "a".
Proof.
  apply (main_menu_returns_a_main_group Sample.plain 1 "eu-west-1"
           Sample.credentials Cases.mainMenuWorld
           (snd (Entry.getMainLogGroup Sample.plain 1 "eu-west-1"
                   Sample.credentials Cases.mainMenuWorld))).
  vm_compute. reflexivity.
Defined.

(** A config file with a session token. *)
Lemma stored_session_is_reused_witness :
  Config.checkAWSConfig Sample.plain
    (Cases.configWorld (Some Cases.storedWithToken) [] [] [])
  = (Cli.Returned Cases.storedWithToken,
     Config.mkConfigWorld (Some Cases.storedWithToken) [] [] []
       [Config.Log "Checking AWS Config..."]).
Proof.
  apply (stored_session_is_reused Sample.plain
           (Cases.configWorld (Some Cases.storedWithToken) [] [] [])
           Cases.storedWithToken); reflexivity.
Defined.

(** A config file without a session token; STS issues one. *)
Lemma session_token_is_requested_when_missing_witness :
  Creds.get
    (Config.setProp Cases.storedWithoutToken "sessionToken"
                    (Creds.JStr "issued"))
    "sessionToken"
  = Creds.JStr "issued"
  /\ Creds.truthy
       (Creds.validateCredentials
          (Config.setProp Cases.storedWithoutToken "sessionToken"
                          (Creds.JStr "issued")))
     = true.
Proof.
  pose proof (session_token_is_requested_when_missing Sample.plain
                (Cases.configWorld (Some Cases.storedWithoutToken)
                                   [Ok "issued"] [] [])
                Cases.storedWithoutToken (Ok "issued") []
                eq_refl eq_refl eq_refl eq_refl eq_refl eq_refl) as H.
  cbn zeta in H. destruct H as [_ [Htoken [_ Hvalid]]].
  split; [ exact Htoken | exact Hvalid ].
Defined.

(** STS issues a token and the config file cannot be written. *)
Lemma token_survives_a_failed_write_witness :
  fst (Config.checkAWSConfig Sample.plain
         (Cases.configWorld (Some Cases.storedWithoutToken)
                            [Ok "issued"] [] [Some Cases.readOnly]))
  = Cli.Returned
      (Config.setProp Cases.storedWithoutToken "sessionToken"
                      (Creds.JStr "issued")).
Proof.
  rewrite (token_survives_a_failed_write Sample.plain
             (Cases.configWorld (Some Cases.storedWithoutToken)
                                [Ok "issued"] [] [Some Cases.readOnly])
             Cases.storedWithoutToken "issued" [] [] Cases.readOnly []
             eq_refl eq_refl eq_refl eq_refl eq_refl (or_introl eq_refl)).
  reflexivity.
Defined.

(** Blank keys are returned, although they do not pass validation. *)
Lemma entered_credentials_are_stored_unchecked_witness :
  fst (Config.checkAWSConfig Sample.plain
         (Cases.configWorld None [] [Ok Cases.blankAnswers] []))
  = Cli.Returned (Config.credentialsObject Cases.blankAnswers)
  /\ Creds.truthy
       (Creds.validateCredentials
          (Config.credentialsObject Cases.blankAnswers))
     = false.
Proof.
  split; [ | reflexivity ].
  rewrite (entered_credentials_are_stored_unchecked Sample.plain
             (Cases.configWorld None [] [Ok Cases.blankAnswers] [])
             Cases.blankAnswers [] (or_introl eq_refl) eq_refl eq_refl).
  - reflexivity.
  - discriminate.
Defined.

(** No config file, and the prompt is interrupted. *)
Lemma checkAWSConfig_throws_only_on_entered_credentials_witness :
  exists w',
    Config.checkAWSConfig Sample.plain
      (Cases.configWorld None [] [Thrown Cases.interrupted] [])
    = (Cli.Threw Cases.interrupted, w').
Proof.
  apply (proj2 (checkAWSConfig_throws_only_on_entered_credentials
                  Sample.plain
                  (Cases.configWorld None [] [Thrown Cases.interrupted] [])
                  Cases.interrupted)).
  split.
  - left. reflexivity.
  - left. exists []. reflexivity.
Defined.
